(** * Trust and responsibility propagation engine of universal-token

    A shallow embedding of the four math components of the repository
    (sponsor-graph connectedness, safety tiers, credit flow, cross-branch
    escalation) and of the contract endpoint of the credit API, with the
    properties the design document states about them.

    Numbers.  The source computes with JavaScript numbers.  Components that
    use only [+ - * /], comparisons and integer powers are embedded over the
    exact rationals [Q], so every definition computes; components that call
    [Math.exp] or [Math.pow] with a fractional exponent are embedded over the
    real numbers [R].  The exact models agree with the source up to rounding
    as long as no operation yields [NaN], overflows or underflows; the
    theorems over them carry the conditions that keep the source in that
    range and state what rounding preserves (ranges, order that is not
    strict, bounds with the rounding error written out).  Where rounding,
    underflow or [NaN] decide the result, the functions are embedded over
    binary64 itself, in the module [Binary64]. *)

From Stdlib Require Import ZArith QArith Qround Qminmax Qpower Reals Psatz.
From Stdlib Require Import Floats.
From Stdlib Require Import String DecimalString List Permutation Sorted.
From stdpp Require Import base gmap strings list.

(** ** Helpers shared by the components *)

(** [Array.from(new Set(xs))]: duplicates dropped, first occurrences kept in
    insertion order. [seen] is the content of the set so far. *)
Fixpoint uniqueFrom {A : Type} `{EqDecision A} (seen l : list A) : list A :=
  match l with
  | [] => []
  | x :: l' =>
      if bool_decide (x ∈ seen) then uniqueFrom seen l'
      else x :: uniqueFrom (x :: seen) l'
  end.

Definition unique {A : Type} `{EqDecision A} (l : list A) : list A :=
  uniqueFrom [] l.

(** A JavaScript [Map<string, V>] read with [map.get(k) || d]. *)
Definition getOr {V : Type} (m : gmap string V) (k : string) (d : V) : V :=
  default d (m !! k).

(** [Math.pow(base, exponent)] over the reals, for a positive base, where
    the source's result is the rounded power.  For a negative base and a
    fractional exponent the source gives [NaN], and 0 once the power is
    below the least positive number: see [Binary64.Math_pow]. *)
Definition Math_pow (base exponent : R) : R := Rpower base exponent.

(** * Connectedness (src/social/math/connectedness.ts) *)
Module Connectedness.
Local Open Scope Q_scope.

(** ** The embedded code and the notions the properties use *)

(** A path length, or JavaScript's [Infinity] ([shortestPath] of no path). *)
Inductive PathLength : Type :=
| Finite (n : nat)
| Infinity.

Definition minPathLength (a b : PathLength) : PathLength :=
  match a, b with
  | Finite x, Finite y => Finite (Nat.min x y)
  | Finite x, Infinity => Finite x
  | Infinity, _ => b
  end.

(** [Math.min(...xs)]; [Math.min()] is [Infinity]. *)
Definition Math_min (xs : list PathLength) : PathLength :=
  fold_left minPathLength xs Infinity.

(** [Math.max(x, ...xs)] on a non-empty argument list. *)
Definition Math_max (x : Q) (xs : list Q) : Q :=
  fold_left Qmax xs x.

Record ConnectednessResult : Type := mkResult {
  score : Q;
  pathCount : Z;
  shortestPath : PathLength;
  diversityScore : Q;
  confidence : Q
}.

(** [ConnectednessOptions]: every field may be left out. *)
Record ConnectednessOptions : Type := mkOptions {
  opt_maxDepth : option Z;
  opt_decayFactor : option Q;
  opt_minPathDiversity : option Q;
  opt_confidenceThreshold : option Q
}.

(** [Required<ConnectednessOptions>]. *)
Record RequiredOptions : Type := mkRequired {
  maxDepth : Z;
  decayFactor : Q;
  minPathDiversity : Q;
  confidenceThreshold : Q
}.

Definition DEFAULT_OPTIONS : RequiredOptions :=
  {| maxDepth := 6;
     decayFactor := 1 / 3;
     minPathDiversity := 0.7;
     confidenceThreshold := 0.6 |}.

(** The call without an options argument: [options = {}]. *)
Definition noOptions : ConnectednessOptions :=
  {| opt_maxDepth := None;
     opt_decayFactor := None;
     opt_minPathDiversity := None;
     opt_confidenceThreshold := None |}.

(** [{ ...DEFAULT_OPTIONS, ...options }]. *)
Definition mergeOptions (d : RequiredOptions) (o : ConnectednessOptions)
  : RequiredOptions :=
  {| maxDepth := default (maxDepth d) (opt_maxDepth o);
     decayFactor := default (decayFactor d) (opt_decayFactor o);
     minPathDiversity := default (minPathDiversity d) (opt_minPathDiversity o);
     confidenceThreshold :=
       default (confidenceThreshold d) (opt_confidenceThreshold o) |}.

Abbreviation Graph := (gmap string (list string)).
Abbreviation Path := (list string).

(** The two variables the closure [dfs] mutates. *)
Record DfsState : Type := mkDfs {
  paths : list Path;
  visited : gset string
}.

Section FindWeightedPaths.
Variables (target : string) (graph : Graph) (maxDepth : Z).

(** The inner function [dfs] of [findWeightedPaths]; [fuel] bounds the
    recursion depth and is never the reason to stop (see
    [dfs_fuel_enough]). *)
Fixpoint dfs (fuel : nat) (current : string) (path : Path) (depth : Z)
    (st : DfsState) : DfsState :=
  match fuel with
  | O => st
  | S fuel' =>
      if (maxDepth <? depth)%Z then st
      else if bool_decide (current ∈ visited st)
              && negb (bool_decide (current = target)) then st
      else if bool_decide (current = target) && (1 <? length path)%nat then
        {| paths := paths st ++ [path]; visited := visited st |}
      else
        let neighbors := getOr graph current [] in
        let st1 := {| paths := paths st;
                      visited := {[ current ]} ∪ visited st |} in
        let st2 :=
          fold_left
            (fun (s : DfsState) (neighbor : string) =>
               if bool_decide (neighbor ∈ path) then s
               else dfs fuel' neighbor (path ++ [neighbor]) (depth + 1)%Z s)
            neighbors st1 in
        {| paths := paths st2; visited := visited st2 ∖ {[ current ]} |}
  end.
End FindWeightedPaths.

(** Stable insertion into a list sorted by length: [p] goes before the
    first path that is at least as long. *)
Fixpoint insertByLength (p : Path) (sorted : list Path) : list Path :=
  match sorted with
  | [] => [p]
  | q :: rest =>
      if (length p <=? length q)%nat then p :: q :: rest
      else q :: insertByLength p rest
  end.

(** [paths.sort((a, b) => a.length - b.length)], a stable sort. *)
Fixpoint sortByLength (l : list Path) : list Path :=
  match l with
  | [] => []
  | p :: rest => insertByLength p (sortByLength rest)
  end.

(** Fuel that [dfs] started at depth 0 cannot use up. *)
Definition dfsFuel (maxDepth : Z) : nat := Z.to_nat (maxDepth + 1).

(** [JSON.stringify] is injective on arrays of strings, so the set of
    serialised paths is the set of paths. *)
Definition findWeightedPaths (source target : string) (graph : Graph)
    (maxDepth : Z) : list Path :=
  let st := dfs target graph maxDepth (dfsFuel maxDepth) source [source] 0%Z
              {| paths := []; visited := ∅ |} in
  let uniquePaths := unique (paths st) in
  sortByLength uniquePaths.

Record WeightedPath : Type := mkWeighted {
  wp_path : Path;
  wp_weight : Q;
  wp_length : nat
}.

Definition inject_nat (n : nat) : Q := inject_Z (Z.of_nat n).

(** [xs.filter((x, idx) => f(x, idx))], with [idx] counted from [i]. *)
Fixpoint filterIndexed {A : Type} (f : A -> nat -> bool) (i : nat)
    (xs : list A) : list A :=
  match xs with
  | [] => []
  | x :: rest =>
      if f x i then x :: filterIndexed f (S i) rest
      else filterIndexed f (S i) rest
  end.

(** The interior nodes of [pathA] that occur in [pathB]. *)
Definition overlapNodes (pathA pathB : Path) : list string :=
  filterIndexed
    (fun node idx =>
       (0 <? idx)%nat && (Z.of_nat idx <? Z.of_nat (length pathA) - 1)%Z
       && bool_decide (node ∈ pathB))
    0%nat pathA.

(** The inner reducer of [calculatePathDiversity]. *)
Definition pairOverlapStep (pathA : WeightedPath) (pairOverlap : Q)
    (pathB : WeightedPath) : Q :=
  let maxLength := Nat.max (length (wp_path pathA)) (length (wp_path pathB)) in
  pairOverlap
  + inject_nat (length (overlapNodes (wp_path pathA) (wp_path pathB)))
    / inject_nat maxLength.

(** The outer reducer: at index [i] the inner one runs over [slice(i + 1)]. *)
Fixpoint totalOverlapFrom (totalOverlap : Q) (rest : list WeightedPath) : Q :=
  match rest with
  | [] => totalOverlap
  | pathA :: later =>
      totalOverlapFrom
        (totalOverlap + fold_left (pairOverlapStep pathA) later 0) later
  end.

Definition calculatePathDiversity (weightedPaths : list WeightedPath) : Q :=
  if (length weightedPaths <=? 1)%nat then 1
  else
    let totalOverlap := totalOverlapFrom 0 weightedPaths in
    let n := inject_nat (length weightedPaths) in
    let maxPossibleOverlap := n * (n - 1) / 2 in
    let overlapRatio :=
      if Qlt_le_dec 0 maxPossibleOverlap
      then totalOverlap / maxPossibleOverlap else 0 in
    Qmax 0 (1 - overlapRatio).

Definition calculateConfidence (weightedPaths : list WeightedPath)
    (diversityScore : Q) : Q :=
  if (length weightedPaths =? 0)%nat then 0
  else
    let pathCountFactor := Qmin 1 (inject_nat (length weightedPaths) / 3) in
    let diversityFactor := diversityScore in
    let lengths := map wp_length weightedPaths in
    let avgLength :=
      fold_left (fun sum len => sum + inject_nat len) lengths 0
      / inject_nat (length lengths) in
    let lengthVariance :=
      fold_left (fun sum len => sum + (inject_nat len - avgLength) ^ 2)
        lengths 0
      / inject_nat (length lengths) in
    let consistencyFactor := 1 / (1 + lengthVariance) in
    pathCountFactor * 0.4 + diversityFactor * 0.4 + consistencyFactor * 0.2.

(** [sponsorGraph.get(sourceHER)?.includes(targetHER)]. *)
Definition directlyLinked (sponsorGraph : Graph) (sourceHER targetHER : string)
  : bool :=
  match sponsorGraph !! sourceHER with
  | Some edges => bool_decide (targetHER ∈ edges)
  | None => false
  end.

Definition weigh (decay : Q) (path : Path) : WeightedPath :=
  {| wp_path := path;
     wp_weight := decay ^ (Z.of_nat (length path) - 1);
     wp_length := length path |}.

Definition calculatePairwiseConnectedness (sourceHER targetHER : string)
    (sponsorGraph : Graph) (options : ConnectednessOptions)
  : ConnectednessResult :=
  let opts := mergeOptions DEFAULT_OPTIONS options in
  if directlyLinked sponsorGraph sourceHER targetHER then
    {| score := 1; pathCount := 1; shortestPath := Finite 1;
       diversityScore := 1; confidence := 1 |}
  else
    let paths :=
      findWeightedPaths sourceHER targetHER sponsorGraph (maxDepth opts) in
    if (length paths =? 0)%nat then
      {| score := 0; pathCount := 0; shortestPath := Infinity;
         diversityScore := 0; confidence := 1 |}
    else
      let weightedPaths := map (weigh (decayFactor opts)) paths in
      let diversityScore := calculatePathDiversity weightedPaths in
      let totalWeight :=
        fold_left (fun sum wp => sum + wp_weight wp) weightedPaths 0 in
      let normalizedScore := Qmin 1 totalWeight in
      let confidence := calculateConfidence weightedPaths diversityScore in
      {| score := normalizedScore;
         pathCount := Z.of_nat (length paths);
         shortestPath := Math_min (map (fun p => Finite (length p)) paths);
         diversityScore := diversityScore;
         confidence := confidence |}.

Definition calculateUnionConnectedness (sourceHER : string)
    (targetSet : list string) (sponsorGraph : Graph)
    (options : ConnectednessOptions) : ConnectednessResult :=
  let opts := mergeOptions DEFAULT_OPTIONS options in
  let pairwiseResults :=
    map (fun target =>
           calculatePairwiseConnectedness sourceHER target sponsorGraph options)
      targetSet in
  let validResults :=
    List.filter (fun r => Qle_bool (confidenceThreshold opts) (confidence r))
      pairwiseResults in
  match validResults with
  | [] =>
      {| score := 0; pathCount := 0; shortestPath := Infinity;
         diversityScore := 0; confidence := 0 |}
  | first :: others =>
      let maxScore := Math_max (score first) (map score others) in
      let totalPaths :=
        fold_left (fun sum r => (sum + pathCount r)%Z) validResults 0%Z in
      let shortestPath := Math_min (map shortestPath validResults) in
      let weightedDiversitySum :=
        fold_left (fun sum r => sum + diversityScore r * confidence r)
          validResults 0 in
      let totalConfidence :=
        fold_left (fun sum r => sum + confidence r) validResults 0 in
      let avgDiversity :=
        if Qlt_le_dec 0 totalConfidence
        then weightedDiversitySum / totalConfidence else 0 in
      let overallConfidence :=
        fold_left (fun sum r => sum + confidence r) validResults 0
        / inject_nat (length validResults) in
      {| score := maxScore;
         pathCount := totalPaths;
         shortestPath := shortestPath;
         diversityScore := avgDiversity;
         confidence := overallConfidence |}
  end.

(** One pass of the inner loop of [buildSponsorGraph]: the edge
    [sponsor -> herCID], then the edge [herCID -> sponsor], each pushed
    unless already listed. *)
Definition addSponsor (herCID : string) (graph : Graph) (sponsor : string)
  : Graph :=
  let sponsorEdges := getOr graph sponsor [] in
  let graph :=
    if bool_decide (herCID ∈ sponsorEdges) then graph
    else <[ sponsor := sponsorEdges ++ [herCID] ]> graph in
  let humanEdges := getOr graph herCID [] in
  if bool_decide (sponsor ∈ humanEdges) then graph
  else <[ herCID := humanEdges ++ [sponsor] ]> graph.

(** The body of the outer loop of [buildSponsorGraph]: the sponsors of one
    entry [herCID, data], in order. *)
Definition addEntry (graph : Graph) (entry : string * list string) : Graph :=
  fold_left (addSponsor (fst entry)) (snd entry) graph.

(** [herData] is the entry list of the input [Map], in iteration order. *)
Definition buildSponsorGraph (herData : list (string * list string)) : Graph :=
  fold_left addEntry herData ∅.

(** *** Notions the properties are stated with *)

Definition neighbors (g : Graph) (u : string) : list string := getOr g u [].

(** [h] lists [s] among its declared sponsors. *)
Definition declares (herData : list (string * list string)) (h s : string)
  : Prop :=
  ∃ sponsors, (h, sponsors) ∈ herData ∧ s ∈ sponsors.

Definition symmetric (g : Graph) : Prop :=
  ∀ u v, v ∈ neighbors g u ↔ u ∈ neighbors g v.

Definition deduplicated (g : Graph) : Prop := ∀ u, NoDup (neighbors g u).

Definition noSelfEdges (g : Graph) : Prop := ∀ u, u ∉ neighbors g u.

Definition withinBounds (r : ConnectednessResult) : Prop :=
  0 <= score r <= 1 ∧ 0 <= diversityScore r <= 1 ∧ 0 <= confidence r <= 1
  ∧ (0 <= pathCount r)%Z.

Definition nonnegativeDecay (options : ConnectednessOptions) : Prop :=
  ∀ d, opt_decayFactor options = Some d → 0 <= d.

Section PathSearch.
Variables (target : string) (graph : Graph) (maxDepth : Z).

(** What [dfs] pushes, as a function of the call: the visited set never
    changes the outcome (see [dfs_search]). *)
Fixpoint search (fuel : nat) (current : string) (path : Path) (depth : Z)
  : list Path :=
  match fuel with
  | O => []
  | S fuel' =>
      if (maxDepth <? depth)%Z then []
      else if bool_decide (current = target) && (1 <? length path)%nat
      then [path]
      else
        flat_map
          (fun neighbor =>
             if bool_decide (neighbor ∈ path) then []
             else search fuel' neighbor (path ++ [neighbor]) (depth + 1)%Z)
          (getOr graph current [])
  end.

Definition visitedOnPath (st : DfsState) (path : Path) (current : string)
  : Prop :=
  ∀ x, x ∈ visited st → x ∈ path ∧ x ≠ current.
End PathSearch.

Definition subgraph (g g' : Graph) : Prop :=
  ∀ u v, v ∈ neighbors g u → v ∈ neighbors g' u.

(** The sum a [reduce] accumulates, as a structural recursion. *)
Fixpoint sumOf {A : Type} (f : A -> Q) (l : list A) : Q :=
  match l with
  | [] => 0
  | x :: rest => f x + sumOf f rest
  end.

(** The graph after the attestations of a chain of sponsorships
    [prev - n1 - n2 - ...], each recorded as [buildSponsorGraph] records it. *)
Fixpoint addChain (g : Graph) (prev : string) (rest : list string) : Graph :=
  match rest with
  | [] => g
  | next :: rest' => addChain (addSponsor next g prev) next rest'
  end.

(** [g] extended with the path [a - interior - b]. *)
Definition addPath (g : Graph) (a : string) (interior : list string)
    (b : string) : Graph :=
  addChain g a (interior ++ [b]).

(** [n] is no key of [g] and is in no neighbour list of [g]. *)
Definition newTo (g : Graph) (n : string) : Prop :=
  g !! n = None ∧ map_Forall (λ _ edges, n ∉ edges) g.

(** The interior of the added path is not empty, and its nodes are pairwise
    distinct, new to [g] and different from both ends. *)
Definition independentPath (g : Graph) (a b : string)
    (interior : list string) : Prop :=
  interior ≠ [] ∧ NoDup interior
  ∧ Forall (λ n, n ≠ a ∧ n ≠ b ∧ newTo g n) interior.

(** A graph with one indirect path between [a] and [b]. *)
Definition exampleGraph : Graph :=
  buildSponsorGraph [("m", ["a"]); ("b", ["m"])]%string.

(** ** Properties *)

(** *** The sponsor graph builder *)

Lemma neighbors_insert (g : Graph) (k u : string) (l : list string) :
  neighbors (<[k := l]> g) u = if decide (k = u) then l else neighbors g u.
Proof.
  unfold neighbors, getOr. rewrite lookup_insert. by destruct (decide (k = u)).
Qed.

Lemma neighbors_empty (u : string) : neighbors ∅ u = [].
Proof. unfold neighbors, getOr. by rewrite lookup_empty. Qed.

(** One guarded [push]/[set] pair adds exactly the edge [a -> b]. *)
Lemma pushEdge_neighbors (g : Graph) (a b u v : string) :
  v ∈ neighbors (if bool_decide (b ∈ getOr g a []) then g
                 else <[a := getOr g a [] ++ [b]]> g) u
  ↔ v ∈ neighbors g u ∨ (u = a ∧ v = b).
Proof.
  case_bool_decide as Hin.
  - split; [auto|]. intros [?|[-> ->]]; auto.
  - rewrite neighbors_insert. destruct (decide (a = u)) as [->|Hne].
    + rewrite elem_of_app, list_elem_of_singleton. unfold neighbors.
      intuition congruence.
    + intuition congruence.
Qed.

Lemma pushEdge_NoDup (g : Graph) (a b : string) :
  deduplicated g →
  deduplicated (if bool_decide (b ∈ getOr g a []) then g
                else <[a := getOr g a [] ++ [b]]> g).
Proof.
  intros Hg u. case_bool_decide as Hin; [apply Hg|].
  rewrite neighbors_insert. destruct (decide (a = u)) as [->|]; [|apply Hg].
  apply NoDup_app. split; [apply Hg|]. split; [|apply NoDup_singleton].
  intros x Hx Hb. apply list_elem_of_singleton in Hb. by subst.
Qed.

Lemma addSponsor_neighbors (h s : string) (g : Graph) (u v : string) :
  v ∈ neighbors (addSponsor h g s) u
  ↔ v ∈ neighbors g u ∨ (u = s ∧ v = h) ∨ (u = h ∧ v = s).
Proof.
  unfold addSponsor. rewrite pushEdge_neighbors, pushEdge_neighbors. tauto.
Qed.

Lemma addSponsor_NoDup (h s : string) (g : Graph) :
  deduplicated g → deduplicated (addSponsor h g s).
Proof. intros Hg. unfold addSponsor. by do 2 apply pushEdge_NoDup. Qed.

Lemma addSponsors_neighbors (h : string) (sponsors : list string) (g : Graph)
    (u v : string) :
  v ∈ neighbors (fold_left (addSponsor h) sponsors g) u
  ↔ v ∈ neighbors g u ∨ (u ∈ sponsors ∧ v = h) ∨ (u = h ∧ v ∈ sponsors).
Proof.
  revert g. induction sponsors as [|s rest IH]; intros g; cbn [fold_left].
  - rewrite !elem_of_nil. tauto.
  - rewrite IH, addSponsor_neighbors, !elem_of_cons. tauto.
Qed.

Lemma addSponsors_NoDup (h : string) (sponsors : list string) (g : Graph) :
  deduplicated g → deduplicated (fold_left (addSponsor h) sponsors g).
Proof.
  revert g. induction sponsors as [|s rest IH]; intros g Hg; cbn [fold_left].
  - done.
  - by apply IH, addSponsor_NoDup.
Qed.

Lemma declares_nil (u v : string) : ¬ declares [] u v.
Proof. intros [l [Hl _]]. by apply elem_of_nil in Hl. Qed.

Lemma declares_cons (h : string) (sponsors : list string)
    (rest : list (string * list string)) (u v : string) :
  declares ((h, sponsors) :: rest) u v
  ↔ (u = h ∧ v ∈ sponsors) ∨ declares rest u v.
Proof.
  unfold declares. split.
  - intros [l [Hl Hv]]. apply elem_of_cons in Hl as [Heq|Hl].
    + injection Heq as -> ->. by left.
    + right. by exists l.
  - intros [[-> Hv]|[l [Hl Hv]]].
    + exists sponsors. split; [apply elem_of_cons; by left|done].
    + exists l. split; [apply elem_of_cons; by right|done].
Qed.

(** The edges of the built graph are exactly the declared sponsorships,
    read in both directions. *)
Lemma addEntries_neighbors (herData : list (string * list string)) (g : Graph)
    (u v : string) :
  v ∈ neighbors (fold_left addEntry herData g) u
  ↔ v ∈ neighbors g u ∨ declares herData u v ∨ declares herData v u.
Proof.
  revert g. induction herData as [|[h sponsors] rest IH]; intros g;
    cbn [fold_left].
  - pose proof (declares_nil u v). pose proof (declares_nil v u). tauto.
  - rewrite IH. unfold addEntry. cbn [fst snd].
    rewrite addSponsors_neighbors, !declares_cons. tauto.
Qed.

Lemma addEntries_NoDup (herData : list (string * list string)) (g : Graph) :
  deduplicated g → deduplicated (fold_left addEntry herData g).
Proof.
  revert g. induction herData as [|[h sponsors] rest IH]; intros g Hg;
    cbn [fold_left].
  - done.
  - by apply IH, addSponsors_NoDup.
Qed.

Lemma buildSponsorGraph_neighbors (herData : list (string * list string))
    (u v : string) :
  v ∈ neighbors (buildSponsorGraph herData) u
  ↔ declares herData u v ∨ declares herData v u.
Proof.
  unfold buildSponsorGraph.
  rewrite addEntries_neighbors, neighbors_empty, elem_of_nil. tauto.
Qed.

(** C3 (as amended). For every input mapping, the graph [buildSponsorGraph]
    returns is symmetric and lists each neighbour at most once, whatever the
    duplicates among the declarations; a participant is in its own neighbour
    list exactly when it declares itself as a sponsor, so the graph has no
    self-edge when nobody does. *)
Theorem buildSponsorGraph_symmetric_deduplicated
    (herData : list (string * list string)) :
  symmetric (buildSponsorGraph herData)
  ∧ deduplicated (buildSponsorGraph herData)
  ∧ (∀ u, u ∈ neighbors (buildSponsorGraph herData) u ↔ declares herData u u)
  ∧ ((∀ u, ¬ declares herData u u) → noSelfEdges (buildSponsorGraph herData)).
Proof.
  split; [|split; [|split]].
  - intros u v. rewrite !buildSponsorGraph_neighbors. tauto.
  - unfold buildSponsorGraph.
    apply addEntries_NoDup. intros u. rewrite neighbors_empty. constructor.
  - intros u. rewrite buildSponsorGraph_neighbors. tauto.
  - intros Hno u Hu. apply (Hno u).
    apply buildSponsorGraph_neighbors in Hu. tauto.
Qed.

(** C3 at a concrete input: [b] sponsors [c] twice and [a] sponsors [b]. *)
Lemma buildSponsorGraph_symmetric_deduplicated_witness :
  let herData := [("b", ["a"]); ("c", ["b"; "b"])]%string in
  symmetric (buildSponsorGraph herData)
  ∧ deduplicated (buildSponsorGraph herData)
  ∧ noSelfEdges (buildSponsorGraph herData).
Proof.
  intros herData.
  destruct (buildSponsorGraph_symmetric_deduplicated herData)
    as (Hsym & Hdedup & _ & Hself).
  split; [exact Hsym|]. split; [exact Hdedup|].
  apply Hself. intros u [l [Hl Hu]].
  repeat (apply elem_of_cons in Hl as [Heq|Hl];
          [injection Heq as -> ->;
           repeat (apply elem_of_cons in Hu as [Hu|Hu]; [discriminate Hu|]);
           by apply elem_of_nil in Hu|]).
  by apply elem_of_nil in Hl.
Defined.

(** C3 as stated fails: a participant that names itself as a sponsor ends up
    in its own neighbour list. *)
Lemma buildSponsorGraph_self_edge :
  ¬ noSelfEdges (buildSponsorGraph [("a", ["a"])]%string).
Proof.
  intros Hno. apply (Hno "a"%string).
  apply buildSponsorGraph_neighbors. left. apply declares_cons. left.
  split; [done|]. apply elem_of_cons. by left.
Qed.

(** *** Bounds of the results *)

Lemma inject_nat_nonneg (n : nat) : 0 <= inject_nat n.
Proof.
  unfold inject_nat. change 0 with (inject_Z 0). rewrite <- Zle_Qle. lia.
Qed.

Lemma inject_nat_S (n : nat) : inject_nat (S n) == inject_nat n + 1.
Proof.
  unfold inject_nat. rewrite Nat2Z.inj_succ, <- Z.add_1_r, inject_Z_plus.
  reflexivity.
Qed.

Section FoldSum.
Context {A : Type}.
Implicit Types (f g : A -> Q) (l : list A).

Lemma fold_sum_le f g l (a b : Q) :
  Forall (fun x => f x <= g x) l -> a <= b ->
  fold_left (fun sum x => sum + f x) l a
  <= fold_left (fun sum x => sum + g x) l b.
Proof.
  intros Hl. revert a b. induction Hl as [|x l Hx Hl IH]; intros a b Hab;
    cbn [fold_left]; [exact Hab|].
  apply IH. lra.
Qed.

Lemma fold_sum_const l (c a : Q) :
  fold_left (fun sum (_ : A) => sum + c) l a == a + inject_nat (length l) * c.
Proof.
  revert a. induction l as [|x l IH]; intros a; cbn [fold_left length].
  - unfold inject_nat. simpl. ring.
  - rewrite IH, inject_nat_S. ring.
Qed.

Lemma fold_sum_nonneg f l (a : Q) :
  Forall (fun x => 0 <= f x) l -> 0 <= a ->
  0 <= fold_left (fun sum x => sum + f x) l a.
Proof.
  intros Hl. revert a. induction Hl as [|x l Hx Hl IH]; intros a Ha;
    cbn [fold_left]; [exact Ha|].
  apply IH. lra.
Qed.

Lemma fold_sum_le_length f l :
  Forall (fun x => f x <= 1) l ->
  fold_left (fun sum x => sum + f x) l 0 <= inject_nat (length l).
Proof.
  intros Hl.
  apply Qle_trans with (fold_left (fun sum (_ : A) => sum + 1) l 0).
  - apply fold_sum_le; [exact Hl|lra].
  - rewrite fold_sum_const. lra.
Qed.
End FoldSum.

Lemma Qdiv_nonneg (a b : Q) : 0 <= a -> 0 <= b -> 0 <= a / b.
Proof.
  intros Ha Hb. unfold Qdiv. apply Qmult_le_0_compat; [exact Ha|].
  apply Qinv_le_0_compat, Hb.
Qed.

Lemma Qdiv_le_1 (a b : Q) : 0 <= a -> a <= b -> a / b <= 1.
Proof.
  intros Ha Hab. destruct (Qlt_le_dec 0 b) as [Hb|Hb].
  - apply Qle_shift_div_r; [exact Hb|lra].
  - assert (Hb0 : b == 0) by lra. rewrite Hb0. unfold Qdiv.
    rewrite Qmult_comm. change (/ 0) with 0. lra.
Qed.

Lemma pairOverlap_nonneg (pathA : WeightedPath) (later : list WeightedPath)
    (a : Q) :
  0 <= a -> 0 <= fold_left (pairOverlapStep pathA) later a.
Proof.
  revert a. induction later as [|pathB later IH]; intros a Ha;
    cbn [fold_left]; [exact Ha|].
  apply IH. unfold pairOverlapStep.
  pose proof (Qdiv_nonneg _ _
    (inject_nat_nonneg (length (overlapNodes (wp_path pathA) (wp_path pathB))))
    (inject_nat_nonneg (Nat.max (length (wp_path pathA))
                                (length (wp_path pathB))))).
  lra.
Qed.

Lemma totalOverlapFrom_nonneg (wps : list WeightedPath) (a : Q) :
  0 <= a -> 0 <= totalOverlapFrom a wps.
Proof.
  revert a. induction wps as [|pathA later IH]; intros a Ha;
    cbn [totalOverlapFrom]; [exact Ha|].
  apply IH. pose proof (pairOverlap_nonneg pathA later 0 (Qle_refl 0)). lra.
Qed.

Lemma calculatePathDiversity_bounds (wps : list WeightedPath) :
  0 <= calculatePathDiversity wps <= 1.
Proof.
  unfold calculatePathDiversity.
  destruct (length wps <=? 1)%nat; [lra|]. cbv zeta.
  split; [apply Q.le_max_l|]. apply Q.max_lub; [lra|].
  destruct (Qlt_le_dec 0 _) as [Hpos|_]; [|lra].
  pose proof (totalOverlapFrom_nonneg wps 0 (Qle_refl 0)) as Htot.
  pose proof (Qdiv_nonneg _ _ Htot (Qlt_le_weak _ _ Hpos)). lra.
Qed.

Lemma calculateConfidence_bounds (wps : list WeightedPath) (d : Q) :
  0 <= d <= 1 -> 0 <= calculateConfidence wps d <= 1.
Proof.
  intros Hd. unfold calculateConfidence.
  destruct (length wps =? 0)%nat; [lra|]. cbv zeta.
  set (n := inject_nat (length (map wp_length wps))).
  set (avg := fold_left (fun sum len => sum + inject_nat len) _ 0 / n).
  set (var := fold_left _ _ 0 / n).
  assert (Hvar : 0 <= var).
  { apply Qdiv_nonneg; [|apply inject_nat_nonneg].
    apply (fold_sum_nonneg (fun len => (inject_nat len - avg) ^ 2));
      [|lra].
    apply Forall_forall. intros len _. apply Qsqr_nonneg. }
  assert (Hcons : 0 <= 1 / (1 + var) <= 1).
  { split; [apply Qdiv_nonneg; lra|apply Qdiv_le_1; lra]. }
  assert (Hcount : 0 <= Qmin 1 (inject_nat (length wps) / 3) <= 1).
  { split; [|apply Q.le_min_l]. apply Q.min_glb; [lra|].
    apply Qdiv_nonneg; [apply inject_nat_nonneg|lra]. }
  lra.
Qed.

Lemma mergeOptions_decay_nonneg (options : ConnectednessOptions) :
  nonnegativeDecay options ->
  0 <= decayFactor (mergeOptions DEFAULT_OPTIONS options).
Proof.
  intros Hd. unfold mergeOptions. cbn [decayFactor].
  destruct (opt_decayFactor options) as [d|] eqn:E; cbn [default].
  - by apply Hd.
  - vm_compute. discriminate.
Qed.

Lemma calculatePairwiseConnectedness_bounds (sourceHER targetHER : string)
    (sponsorGraph : Graph) (options : ConnectednessOptions) :
  nonnegativeDecay options ->
  withinBounds
    (calculatePairwiseConnectedness sourceHER targetHER sponsorGraph options).
Proof.
  intros Hd. apply mergeOptions_decay_nonneg in Hd.
  unfold calculatePairwiseConnectedness, withinBounds.
  destruct (directlyLinked _ _ _); [cbn; repeat split; (lra || lia)|].
  cbv zeta. destruct (length _ =? 0)%nat; [cbn; repeat split; (lra || lia)|].
  cbn [score diversityScore confidence pathCount].
  set (wps := map _ _).
  pose proof (calculatePathDiversity_bounds wps) as Hdiv.
  split; [|split; [exact Hdiv|split;
    [by apply calculateConfidence_bounds|lia]]].
  split; [|apply Q.le_min_l]. apply Q.min_glb; [lra|].
  apply (fold_sum_nonneg wp_weight); [|lra].
  apply Forall_forall. intros wp Hwp.
  subst wps. apply list_elem_of_fmap in Hwp as [p [-> _]].
  cbn. by apply Qpower_0_le.
Qed.

Lemma Math_max_bounds (x : Q) (xs : list Q) (lo hi : Q) :
  lo <= x <= hi -> Forall (fun y => lo <= y <= hi) xs ->
  lo <= Math_max x xs <= hi.
Proof.
  intros Hx Hxs. unfold Math_max. revert x Hx.
  induction Hxs as [|y xs Hy Hxs IH]; intros x Hx; cbn [fold_left];
    [exact Hx|].
  apply IH. split.
  - apply Qle_trans with x; [apply Hx|apply Q.le_max_l].
  - apply Q.max_lub; [apply Hx|apply Hy].
Qed.

Lemma fold_pathCount_nonneg (rs : list ConnectednessResult) (a : Z) :
  Forall withinBounds rs -> (0 <= a)%Z ->
  (0 <= fold_left (fun sum r => (sum + pathCount r)%Z) rs a)%Z.
Proof.
  intros Hrs. revert a. induction Hrs as [|r rs Hr Hrs IH]; intros a Ha;
    cbn [fold_left]; [exact Ha|].
  apply IH. destruct Hr as (_ & _ & _ & Hr). lia.
Qed.

Lemma calculateUnionConnectedness_bounds (sourceHER : string)
    (targetSet : list string) (sponsorGraph : Graph)
    (options : ConnectednessOptions) :
  nonnegativeDecay options ->
  withinBounds
    (calculateUnionConnectedness sourceHER targetSet sponsorGraph options).
Proof.
  intros Hd. unfold calculateUnionConnectedness. cbv zeta.
  set (valid := List.filter _ _).
  assert (Hvalid : Forall withinBounds valid).
  { apply Forall_forall. intros r Hr. apply list_elem_of_In in Hr.
    subst valid. apply filter_In in Hr as [Hr _].
    apply in_map_iff in Hr as [t [<- _]].
    by apply calculatePairwiseConnectedness_bounds. }
  destruct valid as [|first others] eqn:E;
    [unfold withinBounds; cbn; repeat split; (lra || lia)|].
  rewrite <- E in *. clear Hd.
  unfold withinBounds. cbn [score diversityScore confidence pathCount].
  assert (Hconf : Forall (fun r => 0 <= confidence r) valid).
  { eapply Forall_impl; [exact Hvalid|]. intros r Hr. apply Hr. }
  pose proof (fold_sum_nonneg confidence valid 0 Hconf (Qle_refl 0)) as Htot.
  split; [|split; [|split; [split|]]].
  - rewrite E in Hvalid. apply Forall_cons in Hvalid as [Hf Ho].
    apply Math_max_bounds; [apply Hf|].
    apply Forall_forall. intros y Hy.
    apply list_elem_of_fmap in Hy as [r [-> Hr]].
    rewrite Forall_forall in Ho. by apply Ho.
  - destruct (Qlt_le_dec 0 _) as [Hpos|_]; [|lra]. split.
    + apply Qdiv_nonneg; [|exact Htot].
      apply (fold_sum_nonneg (fun r => diversityScore r * confidence r));
        [|lra].
      eapply Forall_impl; [exact Hvalid|]. intros r (_ & Hdv & Hc & _).
      cbn beta. nra.
    + apply Qdiv_le_1.
      * apply (fold_sum_nonneg (fun r => diversityScore r * confidence r));
          [|lra].
        eapply Forall_impl; [exact Hvalid|]. intros r (_ & Hdv & Hc & _).
        cbn beta. nra.
      * apply (fold_sum_le (fun r => diversityScore r * confidence r)
                 confidence); [|lra].
        eapply Forall_impl; [exact Hvalid|]. intros r (_ & Hdv & Hc & _).
        cbn beta. nra.
  - apply Qdiv_nonneg; [exact Htot|apply inject_nat_nonneg].
  - apply Qdiv_le_1; [exact Htot|]. apply fold_sum_le_length.
    eapply Forall_impl; [exact Hvalid|]. intros r (_ & _ & Hc & _).
    apply Hc.
  - by apply fold_pathCount_nonneg.
Qed.

(** *** The path search *)

Section PathSearchFacts.
Variables (target : string) (graph : Graph) (maxDepth : Z).

Lemma dfs_search (fuel : nat) :
  ∀ (current : string) (path : Path) (depth : Z) (st : DfsState),
    visitedOnPath st path current → current ∈ path →
    dfs target graph maxDepth fuel current path depth st
    = {| paths := paths st ++ search target graph maxDepth fuel current path depth;
         visited := visited st |}.
Proof.
  induction fuel as [|fuel IH]; intros current path depth st Hvis Hcur;
    cbn [dfs search].
  - rewrite app_nil_r. by destruct st.
  - destruct (maxDepth <? depth)%Z; [rewrite app_nil_r; by destruct st|].
    assert (Hnot : current ∉ visited st).
    { intros Hin. by apply Hvis in Hin as [_ ?]. }
    rewrite (bool_decide_eq_false_2 _ Hnot). cbn [andb].
    destruct (bool_decide (current = target) && (1 <? length path)%nat);
      [done|].
    cbv zeta.
    assert (Hloop : ∀ (ns : list string) (s : DfsState),
      visited s = {[ current ]} ∪ visited st →
      fold_left
        (fun (s : DfsState) (neighbor : string) =>
           if bool_decide (neighbor ∈ path) then s
           else dfs target graph maxDepth fuel neighbor (path ++ [neighbor])
                  (depth + 1)%Z s)
        ns s
      = {| paths := paths s ++
             flat_map
               (fun neighbor =>
                  if bool_decide (neighbor ∈ path) then []
                  else search target graph maxDepth fuel neighbor (path ++ [neighbor])
                         (depth + 1)%Z)
               ns;
           visited := visited s |}).
    { induction ns as [|n rest IHn]; intros s Hs;
        cbn [fold_left flat_map].
      - rewrite app_nil_r. by destruct s.
      - destruct (decide (n ∈ path)) as [Hn|Hn].
        + rewrite (bool_decide_eq_true_2 _ Hn). by rewrite IHn.
        + rewrite (bool_decide_eq_false_2 _ Hn).
          rewrite IH.
          * rewrite IHn by done. cbn [paths visited].
            by rewrite <- app_assoc.
          * intros x Hx. rewrite Hs in Hx.
            apply elem_of_union in Hx as [Hx|Hx].
            -- apply elem_of_singleton in Hx as ->. split.
               ++ apply elem_of_app. by left.
               ++ intros ->. done.
            -- apply Hvis in Hx as [Hx _]. split.
               ++ apply elem_of_app. by left.
               ++ intros ->. done.
          * apply elem_of_app. right. by apply list_elem_of_singleton. }
    rewrite Hloop by done. cbn [paths visited]. f_equal.
    apply set_eq. intros x.
    rewrite elem_of_difference, elem_of_union, elem_of_singleton.
    split; [tauto|]. intros Hx. split; [by right|]. by intros ->.
Qed.

Lemma search_fuel_enough (fuel1 : nat) :
  ∀ (fuel2 : nat) (current : string) (path : Path) (depth : Z),
    (Z.to_nat (maxDepth + 1 - depth) <= fuel1)%nat →
    (Z.to_nat (maxDepth + 1 - depth) <= fuel2)%nat →
    search target graph maxDepth fuel1 current path depth = search target graph maxDepth fuel2 current path depth.
Proof.
  induction fuel1 as [|fuel1 IH]; intros [|fuel2] current path depth H1 H2;
    cbn [search]; try done.
  - destruct (maxDepth <? depth)%Z eqn:E; [done|].
    apply Z.ltb_ge in E. lia.
  - destruct (maxDepth <? depth)%Z eqn:E; [done|].
    apply Z.ltb_ge in E. lia.
  - destruct (maxDepth <? depth)%Z eqn:E; [done|].
    apply Z.ltb_ge in E.
    destruct (bool_decide (current = target) && (1 <? length path)%nat);
      [done|].
    apply flat_map_ext. intros n. case_bool_decide; [done|].
    apply IH; lia.
Qed.
End PathSearchFacts.

Section Unique.
Context {A : Type} `{EqDecision A}.
Implicit Types (l seen : list A).

Lemma elem_of_uniqueFrom l : ∀ seen x,
  x ∈ uniqueFrom seen l ↔ x ∈ l ∧ x ∉ seen.
Proof.
  induction l as [|y l IH]; intros seen x; cbn [uniqueFrom].
  - rewrite elem_of_nil. tauto.
  - case_bool_decide as Hy.
    + rewrite IH, elem_of_cons. split; [tauto|].
      intros [[->|Hx] Hs]; [done|tauto].
    + rewrite !elem_of_cons, IH, elem_of_cons.
      destruct (decide (x = y)) as [->|Hne]; [tauto|]. tauto.
Qed.

Lemma NoDup_uniqueFrom l : ∀ seen, NoDup (uniqueFrom seen l).
Proof.
  induction l as [|y l IH]; intros seen; cbn [uniqueFrom].
  - constructor.
  - case_bool_decide as Hy; [apply IH|]. constructor; [|apply IH].
    rewrite elem_of_uniqueFrom, elem_of_cons. tauto.
Qed.

Lemma elem_of_unique l x : x ∈ unique l ↔ x ∈ l.
Proof.
  unfold unique. rewrite elem_of_uniqueFrom, elem_of_nil. tauto.
Qed.

Lemma NoDup_unique l : NoDup (unique l).
Proof. apply NoDup_uniqueFrom. Qed.
End Unique.

(** *** The paths found, as a set *)

Lemma insertByLength_Permutation (p : Path) (l : list Path) :
  insertByLength p l ≡ₚ p :: l.
Proof.
  induction l as [|q l IH]; cbn [insertByLength]; [done|].
  destruct (length p <=? length q)%nat; [done|].
  rewrite IH. apply Permutation_swap.
Qed.

Lemma sortByLength_Permutation (l : list Path) : sortByLength l ≡ₚ l.
Proof.
  induction l as [|p l IH]; cbn [sortByLength]; [done|].
  by rewrite insertByLength_Permutation, IH.
Qed.

Lemma elem_of_findWeightedPaths (source target : string) (graph : Graph)
    (maxDepth : Z) (p : Path) :
  p ∈ findWeightedPaths source target graph maxDepth
  ↔ p ∈ search target graph maxDepth (dfsFuel maxDepth) source [source] 0%Z.
Proof.
  unfold findWeightedPaths. cbv zeta.
  rewrite sortByLength_Permutation, elem_of_unique, dfs_search.
  - done.
  - intros x Hx. cbn in Hx. by apply elem_of_empty in Hx.
  - by apply list_elem_of_singleton.
Qed.

Lemma NoDup_findWeightedPaths (source target : string) (graph : Graph)
    (maxDepth : Z) :
  NoDup (findWeightedPaths source target graph maxDepth).
Proof.
  unfold findWeightedPaths. cbv zeta.
  rewrite sortByLength_Permutation. apply NoDup_unique.
Qed.

Lemma search_subgraph (target : string) (g g' : Graph) (maxDepth : Z)
    (fuel : nat) :
  subgraph g g' →
  ∀ (current : string) (path : Path) (depth : Z) (p : Path),
    p ∈ search target g maxDepth fuel current path depth →
    p ∈ search target g' maxDepth fuel current path depth.
Proof.
  intros Hsub. induction fuel as [|fuel IH]; intros current path depth p;
    cbn [search]; [done|].
  destruct (maxDepth <? depth)%Z; [done|].
  destruct (bool_decide (current = target) && (1 <? length path)%nat);
    [done|].
  rewrite !list_elem_of_In, !in_flat_map.
  intros [n [Hn Hp]]. exists n. rewrite <- !list_elem_of_In in *.
  split; [by apply Hsub|].
  destruct (bool_decide (n ∈ path)); [done|]. by apply IH.
Qed.

(** *** Added edges and the score *)

Lemma fold_sum_sumOf {A : Type} (f : A -> Q) (l : list A) (a : Q) :
  fold_left (fun sum x => sum + f x) l a == a + sumOf f l.
Proof.
  revert a. induction l as [|x l IH]; intros a; cbn [fold_left sumOf].
  - ring.
  - rewrite IH. ring.
Qed.

Lemma sumOf_submseteq {A : Type} (f : A -> Q) (l k : list A) :
  (∀ x, 0 <= f x) → l ⊆+ k → sumOf f l <= sumOf f k.
Proof.
  intros Hf Hlk. induction Hlk as [|x l k _ IH|x y l|x l k _ IH|l k m _ IH1 _ IH2];
    cbn [sumOf].
  - lra.
  - lra.
  - lra.
  - specialize (Hf x). lra.
  - lra.
Qed.

Lemma totalWeight_sumOf (decay : Q) (ps : list Path) :
  fold_left (fun sum wp => sum + wp_weight wp) (map (weigh decay) ps) 0
  == sumOf (fun p => wp_weight (weigh decay p)) ps.
Proof.
  rewrite fold_sum_sumOf.
  induction ps as [|p ps IH]; cbn [map sumOf] in *; [ring|].
  lra.
Qed.

Lemma directlyLinked_neighbors (g : Graph) (u v : string) :
  directlyLinked g u v = true ↔ v ∈ neighbors g u.
Proof.
  unfold directlyLinked, neighbors, getOr.
  destruct (g !! u) as [edges|]; cbn [default].
  - apply bool_decide_eq_true.
  - rewrite elem_of_nil. split; [discriminate|tauto].
Qed.

(** Adding edges to the graph never lowers the pairwise score. *)
Lemma score_subgraph (sourceHER targetHER : string) (g g' : Graph)
    (options : ConnectednessOptions) :
  nonnegativeDecay options → subgraph g g' →
  score (calculatePairwiseConnectedness sourceHER targetHER g options)
  <= score (calculatePairwiseConnectedness sourceHER targetHER g' options).
Proof.
  intros Hd Hsub.
  pose proof (calculatePairwiseConnectedness_bounds sourceHER targetHER g
                options Hd) as [[_ Hle] _].
  pose proof (calculatePairwiseConnectedness_bounds sourceHER targetHER g'
                options Hd) as [[Hge _] _].
  apply mergeOptions_decay_nonneg in Hd. revert Hle Hge.
  unfold calculatePairwiseConnectedness. cbv zeta.
  destruct (directlyLinked g' sourceHER targetHER) eqn:Hdirect';
    [cbn [score]; intros; lra|].
  destruct (directlyLinked g sourceHER targetHER) eqn:Hdirect.
  { apply directlyLinked_neighbors, Hsub, directlyLinked_neighbors in Hdirect.
    congruence. }
  set (d := decayFactor _) in *. set (depth := maxDepth _) in *.
  pose proof (NoDup_findWeightedPaths sourceHER targetHER g depth) as Hnd.
  assert (Hin : ∀ p, p ∈ findWeightedPaths sourceHER targetHER g depth →
                     p ∈ findWeightedPaths sourceHER targetHER g' depth).
  { intros p. rewrite !elem_of_findWeightedPaths. by apply search_subgraph. }
  pose proof (NoDup_submseteq _ _ Hnd Hin) as Hsubm.
  destruct (findWeightedPaths sourceHER targetHER g depth) as [|p ps] eqn:E.
  { cbn [length Nat.eqb score]. intros _ Hge. apply Hge. }
  rewrite <- E in *. 
  destruct (findWeightedPaths sourceHER targetHER g' depth) as [|p' ps'] eqn:E'.
  { rewrite E in Hsubm. by apply submseteq_nil_r in Hsubm. }
  rewrite <- E' in *.
  replace (length (findWeightedPaths sourceHER targetHER g depth) =? 0)%nat
    with false by (rewrite E; done).
  replace (length (findWeightedPaths sourceHER targetHER g' depth) =? 0)%nat
    with false by (rewrite E'; done).
  cbn [score]. intros _ _. apply Q.min_le_compat_l.
  rewrite !totalWeight_sumOf. apply sumOf_submseteq; [|exact Hsubm].
  intros q. cbn. by apply Qpower_0_le.
Qed.

Lemma subgraph_addChain (rest : list string) :
  ∀ (g : Graph) (prev : string), subgraph g (addChain g prev rest).
Proof.
  induction rest as [|next rest IH]; intros g prev u v Huv; cbn [addChain].
  - exact Huv.
  - apply IH, addSponsor_neighbors. by left.
Qed.

Lemma nonnegativeDecay_noOptions : nonnegativeDecay noOptions.
Proof. intros d Hd. discriminate Hd. Qed.

(** C6. Extending the graph with an additional independent path between
    [a] and [b] (new, pairwise distinct interior nodes) never lowers the
    pairwise connectedness score, for the default options and for every
    override that keeps the decay factor non-negative.  The proof uses only
    that the extension adds edges ([score_subgraph]). *)
Theorem independent_path_never_lowers_score (g : Graph) (a b : string)
    (interior : list string) (options : ConnectednessOptions) :
  nonnegativeDecay options →
  independentPath g a b interior →
  score (calculatePairwiseConnectedness a b g options)
  <= score (calculatePairwiseConnectedness a b (addPath g a interior b)
              options).
Proof.
  intros Hd _. apply score_subgraph; [exact Hd|]. apply subgraph_addChain.
Qed.

(** C6 at a concrete input: the path [a - x - y - b] added to
    [exampleGraph]. *)
Lemma independent_path_never_lowers_score_witness :
  score (calculatePairwiseConnectedness "a" "b" exampleGraph noOptions)
  <= score (calculatePairwiseConnectedness "a" "b"
              (addPath exampleGraph "a" ["x"; "y"]%string "b") noOptions).
Proof.
  apply independent_path_never_lowers_score.
  - exact nonnegativeDecay_noOptions.
  - apply (bool_decide_unpack _). by vm_compute.
Defined.

(** The added path is found and raises the score from 1/9 to 4/27. *)
Example independent_path_raises_score :
  findWeightedPaths "a" "b" (addPath exampleGraph "a" ["x"; "y"]%string "b") 6
  = [["a"; "m"; "b"]; ["a"; "x"; "y"; "b"]]%string
  ∧ score (calculatePairwiseConnectedness "a" "b" exampleGraph noOptions)
    == 1 # 9
  ∧ score (calculatePairwiseConnectedness "a" "b"
             (addPath exampleGraph "a" ["x"; "y"]%string "b") noOptions)
    == 4 # 27.
Proof. by vm_compute. Qed.

(** C9. The results of the pairwise and of the union computation are within
    their declared bounds: score, diversity score and confidence in [0,1]
    and a non-negative path count, for the default options and for every
    override that keeps the decay factor non-negative. *)
Theorem connectedness_results_within_bounds (sourceHER targetHER : string)
    (targetSet : list string) (sponsorGraph : Graph)
    (options : ConnectednessOptions) :
  nonnegativeDecay options →
  withinBounds
    (calculatePairwiseConnectedness sourceHER targetHER sponsorGraph options)
  ∧ withinBounds
      (calculateUnionConnectedness sourceHER targetSet sponsorGraph options).
Proof.
  intros Hd. split.
  - by apply calculatePairwiseConnectedness_bounds.
  - by apply calculateUnionConnectedness_bounds.
Qed.

(** C9 at a concrete input, with the default options. *)
Lemma connectedness_results_within_bounds_witness :
  withinBounds
    (calculatePairwiseConnectedness "a" "b" exampleGraph noOptions)
  ∧ withinBounds
      (calculateUnionConnectedness "a" ["b"; "m"; "z"]%string exampleGraph
         noOptions).
Proof.
  apply connectedness_results_within_bounds, nonnegativeDecay_noOptions.
Defined.

(** *** Fuel, and the diversity score by path count *)

Lemma dfs_fuel_enough (target : string) (graph : Graph) (maxDepth : Z)
    (fuel : nat) (source : string) :
  (dfsFuel maxDepth <= fuel)%nat →
  dfs target graph maxDepth fuel source [source] 0%Z
    {| paths := []; visited := ∅ |}
  = dfs target graph maxDepth (dfsFuel maxDepth) source [source] 0%Z
      {| paths := []; visited := ∅ |}.
Proof.
  intros Hfuel.
  assert (Hvis : visitedOnPath {| paths := []; visited := ∅ |} [source] source).
  { intros x Hx. cbn in Hx. by apply elem_of_empty in Hx. }
  assert (Hsrc : source ∈ [source]) by by apply list_elem_of_singleton.
  rewrite !dfs_search by done. f_equal. f_equal.
  apply search_fuel_enough; unfold dfsFuel in *; lia.
Qed.

(** C2 (as amended). The diversity score the pairwise computation returns
    is 1 when it reports exactly one path (the direct link, or a single path
    found by the search) and 0 when it reports none; without a direct link
    the reported count is the number of paths the search found. *)
Theorem diversity_by_path_count (sourceHER targetHER : string)
    (sponsorGraph : Graph) (options : ConnectednessOptions) :
  let r :=
    calculatePairwiseConnectedness sourceHER targetHER sponsorGraph options in
  (pathCount r = 1%Z → diversityScore r == 1)
  ∧ (pathCount r = 0%Z → diversityScore r == 0)
  ∧ (directlyLinked sponsorGraph sourceHER targetHER = false →
     pathCount r
     = Z.of_nat (length (findWeightedPaths sourceHER targetHER sponsorGraph
                           (maxDepth (mergeOptions DEFAULT_OPTIONS options))))).
Proof.
  unfold calculatePairwiseConnectedness. cbv zeta.
  destruct (directlyLinked sponsorGraph sourceHER targetHER).
  { cbn. repeat split; (reflexivity || discriminate). }
  destruct (length _ =? 0)%nat eqn:Hlen.
  { cbn [pathCount diversityScore]. apply Nat.eqb_eq in Hlen.
    rewrite Hlen. repeat split; (reflexivity || discriminate). }
  cbn [pathCount diversityScore]. apply Nat.eqb_neq in Hlen.
  split; [|split; [lia|done]].
  intros Hone. unfold calculatePathDiversity.
  rewrite length_map.
  replace (length _) with 1%nat by lia. reflexivity.
Qed.

(** C2 at a concrete input: the single path [a - m - b]. *)
Lemma diversity_by_path_count_witness :
  diversityScore
    (calculatePairwiseConnectedness "a" "b"
       (buildSponsorGraph [("m", ["a"]); ("b", ["m"])]%string) noOptions)
  == 1.
Proof.
  apply (diversity_by_path_count "a" "b"
           (buildSponsorGraph [("m", ["a"]); ("b", ["m"])]%string) noOptions).
  by vm_compute.
Defined.

(** C2 as stated fails: with no path the count is 0, which is at most one,
    and the diversity score is 0, not 1. *)
Lemma diversity_without_path :
  let r := calculatePairwiseConnectedness "a" "b" ∅ noOptions in
  (pathCount r <= 1)%Z ∧ ¬ diversityScore r == 1.
Proof. vm_compute. split; discriminate. Qed.

End Connectedness.

(** * Cross-branch escalation (src/unnamed/part_002, imported by the API as
      [../math/cross_branch.js]) *)
Module CrossBranch.
Local Open Scope Q_scope.
Local Open Scope string_scope.

(** ** The embedded code and the notions the properties use *)

Record Branch : Type := mkBranch {
  id : string;
  members : list string;
  avg_credits : Q;
  diversity_score : Q;
  open_needs_count : Q;
  current_load : Q;
  location_hint : option string
}.

Record EscalationParameters : Type := mkEscalationParameters {
  gamma1 : Q;
  gamma2 : Q;
  gamma3 : Q;
  Theta_esc : Q;
  lambda1 : Q;
  lambda2 : Q;
  lambda3 : Q;
  max_neighbors : Q;
  theta : Q
}.

Record Issue : Type := mkIssue {
  issue_ident : string;          (* [id] *)
  subject_set : list string;
  severity : Q;
  confidence : Q;
  reporter : string;
  focal_branch : string
}.

Record EscalationScore : Type := mkEscalationScore {
  branch_id : string;
  issue_id : string;
  local_impact : Q;
  need_pressure : Q;
  diversity_penalty : Q;
  total_score : Q;
  triggered : bool
}.

Inductive ContractStatus : Type :=
| proposed
| active
| completed
| failed
| disputed.

Record CrossBranchContract : Type := mkContract {
  contract_id : string;
  requesting_branch : string;
  helping_branches : list string;
  contract_issue_id : string;    (* [issue_id] *)
  scope : list string;
  tasks : list string;
  timebox_hours : Q;
  evidence_requirements : string;
  credit_rewards : Q;
  status : ContractStatus;
  signatures : gmap string string;
  created_at : Q;
  expires_at : Q
}.

(** The key [`${member}->${subject}`] of a connectedness map. *)
Definition pairKey (member subject : string) : string :=
  member ++ "->" ++ subject.

(** The inner loop of [calculateEscalationScore]: the largest pairwise
    connectedness of [member] to a subject, read with [|| 0]. *)
Definition memberConnectedness (connectedness_map : gmap string Q)
    (member : string) (subjects : list string) : Q :=
  fold_left
    (fun member_connectedness subject =>
       let pairwise := getOr connectedness_map (pairKey member subject) 0 in
       Qmax member_connectedness pairwise)
    subjects 0.

Definition calculateEscalationScore (branch : Branch) (issue : Issue)
    (connectedness_map : gmap string Q) (params : EscalationParameters)
  : EscalationScore :=
  let total_member_impact :=
    fold_left
      (fun total member =>
         total
         + memberConnectedness connectedness_map member (subject_set issue)
           * severity issue * confidence issue)
      (members branch) 0 in
  let size := Connectedness.inject_nat (length (members branch)) in
  let local_impact :=
    if (0 <? length (members branch))%nat
    then total_member_impact / size else 0 in
  let need_pressure :=
    if (0 <? length (members branch))%nat
    then open_needs_count branch / size else 0 in
  let diversity_penalty := 1 - Qmax 0 (Qmin 1 (diversity_score branch)) in
  let weighted_impact := gamma1 params * local_impact in
  let weighted_need := gamma2 params * need_pressure in
  let weighted_diversity := gamma3 params * diversity_penalty in
  let total_score := weighted_impact + weighted_need + weighted_diversity in
  let triggered := Qle_bool (Theta_esc params) total_score in
  {| branch_id := id branch;
     issue_id := issue_ident issue;
     local_impact := weighted_impact;
     need_pressure := weighted_need;
     diversity_penalty := weighted_diversity;
     total_score := total_score;
     triggered := triggered |}.

(** What [createCrossBranchContract] reads from the runtime: the clock and
    the two base-36 strings [generateContractId] derives from the clock and
    from [Math.random()]. *)
Record Runtime : Type := mkRuntime {
  now : Z;
  timestamp36 : string;
  random36 : string
}.

Definition generateContractId (rt : Runtime) (branch_id issue_id : string)
  : string :=
  "contract_" ++ branch_id ++ "_" ++ issue_id ++ "_" ++ timestamp36 rt
  ++ "_" ++ random36 rt.

Definition createCrossBranchContract (rt : Runtime)
    (requesting_branch : string) (helping_branches : list string)
    (issue : Issue) (tasks : list string) (timebox_hours credit_rewards : Q)
  : CrossBranchContract :=
  let contract_id := generateContractId rt requesting_branch
                       (issue_ident issue) in
  {| contract_id := contract_id;
     requesting_branch := requesting_branch;
     helping_branches := helping_branches;
     contract_issue_id := issue_ident issue;
     scope := subject_set issue;
     tasks := tasks;
     timebox_hours := timebox_hours;
     evidence_requirements :=
       "Survivor-approved outcome with witness attestations";
     credit_rewards := credit_rewards;
     status := proposed;
     signatures := ∅;
     created_at := inject_Z (now rt);
     expires_at := inject_Z (now rt) + timebox_hours * 60 * 60 * 1000 |}.

Definition getDefaultEscalationParameters : EscalationParameters :=
  {| gamma1 := 0.6;
     gamma2 := 0.3;
     gamma3 := 0.1;
     Theta_esc := 0.35;
     lambda1 := 0.6;
     lambda2 := 0.3;
     lambda3 := 0.1;
     max_neighbors := 5;
     theta := 0.5 |}.

(** [`member_${i}`]. *)
Definition memberName (i : nat) : string :=
  "member_" ++ NilEmpty.string_of_uint (Nat.to_uint i).

(** The branch, the issue and the escalation score of [workedExample]; its
    neighbour selection is not part of this development. *)
Record WorkedExample : Type := mkWorkedExample {
  branch : Branch;
  issue : Issue;
  escalation_score : EscalationScore
}.

Definition workedExample : WorkedExample :=
  let params := getDefaultEscalationParameters in
  let branch :=
    {| id := "branch_b0";
       members := map memberName (seq 0 10);
       avg_credits := 8;
       diversity_score := 0.3;
       open_needs_count := 5;
       current_load := 2;
       location_hint := None |} in
  let issue :=
    {| issue_ident := "issue_x";
       subject_set := ["subject_1"; "subject_2"];
       severity := 0.7;
       confidence := 0.8;
       reporter := "reporter_1";
       focal_branch := "branch_b0" |} in
  let connectedness_map :=
    fold_left
      (fun m member =>
         fold_left (fun m subject => <[ pairKey member subject := 0.4 ]> m)
           (subject_set issue) m)
      (members branch) (∅ : gmap string Q) in
  let escalation_score :=
    calculateEscalationScore branch issue connectedness_map params in
  {| branch := branch; issue := issue; escalation_score := escalation_score |}.

(** ** Properties *)

(** C8. On the worked example (10 members, every pairwise connectedness 0.4,
    severity 0.7, confidence 0.8, 5 open needs, diversity 0.3, default
    weights and threshold) the escalation is triggered, and the weighted
    components are [γ1·(0.4·0.7·0.8)], [γ2·(5/10)] and [γ3·(1−0.3)], which
    add up to 0.3544; over the rationals the equalities are exact. *)
Theorem workedExample_triggers_escalation :
  let params := getDefaultEscalationParameters in
  let e := escalation_score workedExample in
  triggered e = true
  ∧ local_impact e == gamma1 params * (0.4 * 0.7 * 0.8)
  ∧ need_pressure e == gamma2 params * (5 / 10)
  ∧ diversity_penalty e == gamma3 params * (1 - 0.3)
  ∧ total_score e == 0.3544
  ∧ Theta_esc params <= total_score e.
Proof. vm_compute. repeat split; discriminate. Qed.

End CrossBranch.

(** * The contract endpoint of the credit API (src/unnamed/part_003) *)
Module CreditAPI.
Import CrossBranch.
Local Open Scope string_scope.

(** ** The embedded code and the notions the properties use *)

Inductive ContractAction : Type :=
| approve
| reject
| complete
| dispute
| otherAction.    (* any value the [switch] sends to [default] *)

Record BranchContractRequest : Type := mkRequest {
  requester : string;
  timestamp : Q;
  signature : string;
  request_contract_id : string;              (* [contract_id] *)
  action : ContractAction;
  request_branch_id : string;                (* [branch_id] *)
  completion_evidence : option (list string)
}.

(** The object the handler resolves to. *)
Record Response : Type := mkResponse {
  success : bool;
  contract : option CrossBranchContract;
  error : option string
}.

Definition refuse (message : string) : Response :=
  {| success := false; contract := None; error := Some message |}.

(** The data layer behind [getContract], [getBranch], [storeContract] and
    [distributeContractCredits]: maps keyed by id, and a distribution
    recorded by the id of the contract it pays out.  The source ships these
    four as stubs that find nothing and keep nothing ([getContract] and
    [getBranch] return [null]); that is this data layer at the store
    [noStorage] below, which no request changes. *)
Record Store : Type := mkStore {
  contracts : gmap string CrossBranchContract;
  branches : gmap string Branch;
  distributed : list string
}.

Definition getContract (store : Store) (contract_id : string)
  : option CrossBranchContract :=
  contracts store !! contract_id.

Definition getBranch (store : Store) (branch_id : string) : option Branch :=
  branches store !! branch_id.

Definition storeContract (store : Store) (c : CrossBranchContract) : Store :=
  {| contracts := <[ contract_id c := c ]> (contracts store);
     branches := branches store;
     distributed := distributed store |}.

Definition distributeContractCredits (store : Store) (c : CrossBranchContract)
  : Store :=
  {| contracts := contracts store;
     branches := branches store;
     distributed := distributed store ++ [contract_id c] |}.

(** What the store of the shipped stubs holds: nothing. *)
Definition noStorage : Store :=
  {| contracts := ∅; branches := ∅; distributed := [] |}.

(** [signatures] is a plain object ([{}] at creation): its own properties
    are the map, and a key it does not own is looked up on
    [Object.prototype], whose members are these. *)
Definition inheritedKeys : list string :=
  ["constructor"; "__defineGetter__"; "__defineSetter__"; "hasOwnProperty";
   "__lookupGetter__"; "__lookupSetter__"; "isPrototypeOf";
   "propertyIsEnumerable"; "toString"; "valueOf"; "__proto__";
   "toLocaleString"].

(** JavaScript truthiness of [signatures[branch_id]]: an own signature that
    is not the empty string, or an inherited member (a function or an
    object, so truthy). *)
Definition signed (signatures : gmap string string) (branch_id : string)
  : bool :=
  match signatures !! branch_id with
  | Some s => negb (String.eqb s EmptyString)
  | None => bool_decide (branch_id ∈ inheritedKeys)
  end.

(** [object[key] = value] for a string [value]: an own property is written,
    except that the key [__proto__], when not an own property, reaches the
    setter of [Object.prototype], which ignores a string. *)
Definition setOwn (object : gmap string string) (key value : string)
  : gmap string string :=
  if bool_decide (key = "__proto__") && bool_decide (object !! key = None)
  then object
  else <[ key := value ]> object.

Definition withStatus (c : CrossBranchContract) (s : ContractStatus)
  : CrossBranchContract :=
  {| contract_id := contract_id c;
     requesting_branch := requesting_branch c;
     helping_branches := helping_branches c;
     contract_issue_id := contract_issue_id c;
     scope := scope c;
     tasks := tasks c;
     timebox_hours := timebox_hours c;
     evidence_requirements := evidence_requirements c;
     credit_rewards := credit_rewards c;
     status := s;
     signatures := signatures c;
     created_at := created_at c;
     expires_at := expires_at c |}.

Definition withSignature (c : CrossBranchContract) (branch_id sig : string)
  : CrossBranchContract :=
  {| contract_id := contract_id c;
     requesting_branch := requesting_branch c;
     helping_branches := helping_branches c;
     contract_issue_id := contract_issue_id c;
     scope := scope c;
     tasks := tasks c;
     timebox_hours := timebox_hours c;
     evidence_requirements := evidence_requirements c;
     credit_rewards := credit_rewards c;
     status := status c;
     signatures := setOwn (signatures c) branch_id sig;
     created_at := created_at c;
     expires_at := expires_at c |}.

Section Handler.
(** Signature validation is a collaborator (a stub answering [true] in the
    source). *)
Variable validateRequestSignature : BranchContractRequest -> bool.

(** The final [storeContract] and the successful answer. *)
Definition stored (store : Store) (updated_contract : CrossBranchContract)
  : Store * Response :=
  (storeContract store updated_contract,
   {| success := true; contract := Some updated_contract; error := None |}).

Definition handleBranchContract (store : Store)
    (request : BranchContractRequest) : Store * Response :=
  if negb (validateRequestSignature request) then
    (store, refuse "Invalid request signature")
  else
    match getContract store (request_contract_id request) with
    | None => (store, refuse "Contract not found")
    | Some contract =>
        match getBranch store (request_branch_id request) with
        | None => (store, refuse "Requester not authorized for this branch")
        | Some branch =>
            if negb (bool_decide (requester request ∈ members branch)) then
              (store, refuse "Requester not authorized for this branch")
            else
              match action request with
              | approve =>
                  let updated_contract :=
                    withSignature contract (request_branch_id request)
                      (signature request) in
                  let all_signed :=
                    forallb (signed (signatures updated_contract))
                      (helping_branches updated_contract) in
                  if all_signed
                  then stored store (withStatus updated_contract active)
                  else stored store updated_contract
              | reject => stored store (withStatus contract failed)
              | complete =>
                  match completion_evidence request with
                  | Some (_ :: _) =>
                      let updated_contract := withStatus contract completed in
                      stored (distributeContractCredits store updated_contract)
                        updated_contract
                  | _ => (store, refuse "Completion evidence required")
                  end
              | dispute => stored store (withStatus contract disputed)
              | otherAction => (store, refuse "Invalid contract action")
              end
        end
    end.

(** The request passes the checks that precede the [switch]. *)
Definition authorised (store : Store) (request : BranchContractRequest)
    (contract : CrossBranchContract) : Prop :=
  validateRequestSignature request = true
  ∧ getContract store (request_contract_id request) = Some contract
  ∧ ∃ branch, getBranch store (request_branch_id request) = Some branch
              ∧ requester request ∈ members branch.

(** The handler stored [c] under its id and answered with it. *)
Definition storedAndAnswered (result : Store * Response)
    (c : CrossBranchContract) : Prop :=
  snd result = {| success := true; contract := Some c; error := None |}
  ∧ contracts (fst result) !! contract_id c = Some c.

(** The property the design document asks of terminal states: once a
    contract is [completed] or [failed], no authorised action changes the
    status it is stored with. *)
Definition terminalStatesAreFinal : Prop :=
  ∀ (store : Store) (request : BranchContractRequest)
    (contract : CrossBranchContract),
    authorised store request contract →
    status contract = completed ∨ status contract = failed →
    ∀ c, contracts (fst (handleBranchContract store request))
           !! request_contract_id request = Some c →
         status c = status contract.
End Handler.

(** A contract of branch [b0] with the helping branches [b1] and [b2], of
    which [b1] has signed. *)
Definition exampleContract (s : ContractStatus) : CrossBranchContract :=
  {| contract_id := "c1";
     requesting_branch := "b0";
     helping_branches := ["b1"; "b2"];
     contract_issue_id := "issue_x";
     scope := ["subject_1"];
     tasks := ["mediate"];
     timebox_hours := 48;
     evidence_requirements :=
       "Survivor-approved outcome with witness attestations";
     credit_rewards := 5;
     status := s;
     signatures := <[ "b1" := "sig_b1" ]> ∅;
     created_at := 0;
     expires_at := 172800000 |}.

Definition exampleBranch : Branch :=
  {| id := "b2"; members := ["alice"; "bob"]; avg_credits := 8;
     diversity_score := 0.5; open_needs_count := 1; current_load := 0;
     location_hint := None |}.

Definition exampleStore (s : ContractStatus) : Store :=
  {| contracts := <[ "c1" := exampleContract s ]> ∅;
     branches := <[ "b2" := exampleBranch ]> ∅;
     distributed := [] |}.

Definition exampleRequest (a : ContractAction) : BranchContractRequest :=
  {| requester := "alice"; timestamp := 1; signature := "sig_b2";
     request_contract_id := "c1"; action := a; request_branch_id := "b2";
     completion_evidence := None |}.

(** A clock reading and a random string for [createCrossBranchContract]. *)
Definition exampleRuntime : Runtime :=
  {| now := 0; timestamp36 := "0"; random36 := "4fzzzx" |}.

(** The stub of the source: every request signature is accepted. *)
Definition acceptAll (request : BranchContractRequest) : bool := true.

(** ** Properties *)

Section HandlerFacts.
Variable validateRequestSignature : BranchContractRequest -> bool.

Lemma authorised_handle (store : Store) (request : BranchContractRequest)
    (contract : CrossBranchContract) :
  authorised validateRequestSignature store request contract →
  handleBranchContract validateRequestSignature store request
  = match action request with
    | approve =>
        let updated_contract :=
          withSignature contract (request_branch_id request)
            (signature request) in
        if forallb (signed (signatures updated_contract))
             (helping_branches updated_contract)
        then stored store (withStatus updated_contract active)
        else stored store updated_contract
    | reject => stored store (withStatus contract failed)
    | complete =>
        match completion_evidence request with
        | Some (_ :: _) =>
            stored
              (distributeContractCredits store (withStatus contract completed))
              (withStatus contract completed)
        | _ => (store, refuse "Completion evidence required")
        end
    | dispute => stored store (withStatus contract disputed)
    | otherAction => (store, refuse "Invalid contract action")
    end.
Proof.
  intros (Hsig & Hc & branch & Hb & Hmem). unfold handleBranchContract.
  rewrite Hsig, Hc, Hb. cbn [negb].
  by rewrite (bool_decide_eq_true_2 _ Hmem).
Qed.

Lemma stored_storedAndAnswered (store : Store) (c : CrossBranchContract) :
  storedAndAnswered (stored store c) c.
Proof. split; [reflexivity|]. cbn. apply lookup_insert_eq. Qed.

(** A request never finds a contract in [noStorage]. *)
Lemma noStorage_refuses (request : BranchContractRequest) :
  handleBranchContract validateRequestSignature noStorage request
  = (noStorage,
     refuse (if validateRequestSignature request
             then "Contract not found" else "Invalid request signature")).
Proof.
  unfold handleBranchContract.
  destruct (validateRequestSignature request); cbn [negb]; [|reflexivity].
  unfold getContract, noStorage. cbn [contracts]. by rewrite lookup_empty.
Qed.

(** C1 (as amended).  A contract is created [proposed] and unsigned.  With
    the data layer as shipped, which finds no contract, every request is
    refused and nothing is stored.  Behind a data layer that returns the
    contract and a branch the requester belongs to, the handler never reads
    the current status: an [approve] stores the signature of the requesting
    branch and keeps the status while a helping branch reads as unsigned,
    and stores [active] once every helping branch reads as signed;
    [complete] without evidence, or with an empty evidence list, is refused
    and the store is unchanged; [complete] with evidence stores [completed]
    and records the payout; [reject] stores [failed] and [dispute] stores
    [disputed], from [completed] and [failed] as from any other status. *)
Theorem contract_lifecycle :
  (∀ rt requesting helping issue tasks timebox rewards,
     let c := createCrossBranchContract rt requesting helping issue tasks
                timebox rewards in
     status c = proposed ∧ signatures c = ∅)
  ∧ (∀ request : BranchContractRequest,
       handleBranchContract validateRequestSignature noStorage request
       = (noStorage,
          refuse (if validateRequestSignature request
                  then "Contract not found" else "Invalid request signature")))
  ∧ ∀ (store : Store) (request : BranchContractRequest)
      (contract : CrossBranchContract),
      authorised validateRequestSignature store request contract →
      let result := handleBranchContract validateRequestSignature store request in
      let signedContract :=
        withSignature contract (request_branch_id request)
          (signature request) in
      (action request = approve →
       (∃ b, b ∈ helping_branches contract
             ∧ signed (signatures signedContract) b = false) →
       storedAndAnswered result signedContract)
      ∧ (action request = approve →
         (∀ b, b ∈ helping_branches contract →
               signed (signatures signedContract) b = true) →
         storedAndAnswered result (withStatus signedContract active))
      ∧ (action request = complete →
         completion_evidence request = None
         ∨ completion_evidence request = Some [] →
         result = (store, refuse "Completion evidence required"))
      ∧ (action request = complete →
         (∃ e es, completion_evidence request = Some (e :: es)) →
         storedAndAnswered result (withStatus contract completed)
         ∧ distributed (fst result)
           = (distributed store ++ [contract_id contract])%list)
      ∧ (action request = reject →
         storedAndAnswered result (withStatus contract failed))
      ∧ (action request = dispute →
         storedAndAnswered result (withStatus contract disputed)).
Proof.
  split; [intros; split; reflexivity|].
  split; [apply noStorage_refuses|].
  intros store request contract Hadm result signedContract.
  subst result signedContract.
  rewrite (authorised_handle _ _ _ Hadm).
  split; [|split; [|split; [|split; [|split]]]].
  - intros -> (b & Hb & Hunsigned). cbv zeta.
    destruct (forallb _ _) eqn:Hall.
    + rewrite forallb_forall in Hall.
      specialize (Hall b (proj1 (list_elem_of_In _ _) Hb)).
      cbn [helping_branches withSignature] in Hall. congruence.
    + apply stored_storedAndAnswered.
  - intros -> Hall. cbv zeta.
    replace (forallb _ _) with true; [apply stored_storedAndAnswered|].
    symmetry. apply forallb_forall. intros b Hb.
    apply list_elem_of_In in Hb. by apply Hall.
  - intros -> [->| ->]; reflexivity.
  - intros -> (e & es & ->).
    split; [apply stored_storedAndAnswered|reflexivity].
  - intros ->. apply stored_storedAndAnswered.
  - intros ->. apply stored_storedAndAnswered.
Qed.

(** Writing the signature of one branch leaves the others as they were. *)
Lemma setOwn_other (object : gmap string string) (key value b : string) :
  b ≠ key → setOwn object key value !! b = object !! b.
Proof.
  intros Hb. unfold setOwn. destruct (_ && _); [done|].
  by rewrite lookup_insert_ne.
Qed.
End HandlerFacts.

Lemma example_authorised (s : ContractStatus) (a : ContractAction) :
  authorised acceptAll (exampleStore s) (exampleRequest a) (exampleContract s).
Proof.
  split; [reflexivity|]. split; [reflexivity|].
  exists exampleBranch. split; [reflexivity|].
  apply elem_of_cons. by left.
Qed.

(** C1 at concrete inputs: as shipped the approval is refused; behind a
    data layer that holds the contract, [b2] signs last and the proposed
    contract is stored as active with both signatures. *)
Lemma contract_lifecycle_witness :
  handleBranchContract acceptAll noStorage (exampleRequest approve)
  = (noStorage, refuse "Contract not found")
  ∧ storedAndAnswered
      (handleBranchContract acceptAll (exampleStore proposed)
         (exampleRequest approve))
      (withStatus (withSignature (exampleContract proposed) "b2" "sig_b2")
         active).
Proof.
  destruct (contract_lifecycle acceptAll) as (_ & Hshipped & Hhandle).
  split; [apply Hshipped|].
  destruct (Hhandle (exampleStore proposed) (exampleRequest approve)
              (exampleContract proposed) (example_authorised proposed approve))
    as (_ & Hfinal & _).
  apply Hfinal; [reflexivity|].
  intros b Hb. cbn in Hb.
  repeat (apply elem_of_cons in Hb as [->|Hb]; [by vm_compute|]).
  by apply elem_of_nil in Hb.
Defined.

(** C1 as stated fails.  On the shipped code the contract
    [createCrossBranchContract] makes for the single helping branch [b2] is
    [proposed], and the approval of [b2], the final one, is refused with
    [Contract not found] instead of making it active.  And where the data
    layer does hold the contract, [completed] is not final: a [reject]
    stores the completed contract as [failed]. *)
Lemma lifecycle_is_not_enforced :
  let c :=
    createCrossBranchContract exampleRuntime "branch_b0" ["b2"]
      (issue workedExample) ["mediate"] 48 5 in
  let request :=
    {| requester := "alice"; timestamp := 1; signature := "sig_b2";
       request_contract_id := contract_id c; action := approve;
       request_branch_id := "b2"; completion_evidence := None |} in
  status c = proposed
  ∧ helping_branches c = ["b2"]
  ∧ handleBranchContract acceptAll noStorage request
    = (noStorage, refuse "Contract not found")
  ∧ status (exampleContract completed) = completed
  ∧ storedAndAnswered
      (handleBranchContract acceptAll (exampleStore completed)
         (exampleRequest reject))
      (withStatus (exampleContract completed) failed).
Proof. unfold storedAndAnswered. repeat split. Qed.

(** So the handler does not have the property the design document asks of
    terminal states. *)
Lemma completed_contract_can_be_rejected :
  ¬ terminalStatesAreFinal acceptAll.
Proof.
  intros Hfinal.
  specialize (Hfinal (exampleStore completed) (exampleRequest reject)
                (exampleContract completed)
                (example_authorised completed reject)
                (or_introl eq_refl)
                (withStatus (exampleContract completed) failed)).
  discriminate Hfinal. reflexivity.
Qed.

End CreditAPI.

(** * Credit flow (src/social/credit_system/math/credit_flow.ts) *)
Module CreditFlow.
Local Open Scope R_scope.
Local Open Scope string_scope.

(** ** The embedded code and the notions the properties use *)

Record CreditParameters : Type := mkCreditParameters {
  C_max : R;
  I_max_per_epoch : R;
  S_max_per_epoch : R;
  beta0 : R;
  beta1 : R;
  theta : R;
  c_local : R;
  c_xbranch : R;
  c_global : R;
  H_c_days : R;
  delta : R
}.

Inductive ActionType : Type :=
| mediation
| support_response
| replication
| other.

Record EarnableAction : Type := mkEarnableAction {
  action_type : ActionType;      (* [type] *)
  base_award : R;                (* w_a > 0 *)
  description : string
}.

Record EarnEvent : Type := mkEarnEvent {
  helper : string;
  action : EarnableAction;
  subject_set : list string;
  evidence_confidence : R;
  diversity_factor : R;
  proximity_score : R;
  branch_avg_credits : R;
  timestamp : R;
  witnesses : list string
}.

Record BranchApproval : Type := mkBranchApproval {
  branch_id : string;
  voters : list string;
  votes : list R;
  participation_rate : R;
  path_diversity_score : R;
  trimmed_mean : R;
  approved : bool
}.

Inductive SpendType : Type :=
| spend_local
| spend_xbranch
| spend_global.

Record SpendEvent : Type := mkSpendEvent {
  requester : string;
  spend_type : SpendType;
  amount : R;
  purpose : string;
  branch_approval : BranchApproval;
  spend_timestamp : R            (* [timestamp] *)
}.

Record CreditBalance : Type := mkCreditBalance {
  human : string;
  balance : R;
  last_updated_epoch : R;
  earn_history : list EarnEvent;
  spend_history : list SpendEvent
}.

(** [Math.max(0, Math.min(1, x))]. *)
Definition clamp01 (x : R) : R := Rmax 0 (Rmin 1 x).

Definition sigmoid (x : R) : R := 1 / (1 + exp (- x)).

(** Over the reals.  The source's division is [NaN] at 0/0 and its
    products can overflow, which [scarcityDefined] and [withinRange] exclude;
    [Binary64.calculateCreditAward] is the function over binary64. *)
Definition calculateCreditAward (event : EarnEvent) (params : CreditParameters)
  : R :=
  let base_award := base_award (action event) in
  let confidence := clamp01 (evidence_confidence event) in
  let diversity := clamp01 (diversity_factor event) in
  let proximity_factor :=
    beta0 params + beta1 params * clamp01 (proximity_score event) in
  let scarcity_input :=
    theta params - branch_avg_credits event / C_max params in
  let scarcity_bonus := sigmoid scarcity_input in
  let award :=
    base_award * confidence * diversity * proximity_factor * scarcity_bonus in
  Rmax 0 award.

(** Over the reals, for a positive decay base (see [Math_pow]). *)
Definition applyCreditDecay (balance : CreditBalance)
    (current_epoch epoch_duration_hours : R) (params : CreditParameters) : R :=
  let epochs_elapsed := current_epoch - last_updated_epoch balance in
  let hours_elapsed := epochs_elapsed * epoch_duration_hours in
  let days_elapsed := hours_elapsed / 24 in
  let decay_multiplier :=
    Math_pow (delta params) (days_elapsed / H_c_days params) in
  let decayed_balance := CreditFlow.balance balance * decay_multiplier in
  Rmax 0 (Rmin (C_max params) decayed_balance).

(** The key [`${helper}->${subject}`]. *)
Definition pairKey (helper subject : string) : string :=
  helper ++ "->" ++ subject.

(** Over the reals.  The source rounds the subtractions and the product;
    [Binary64.calculateUnionConnectedness] is the function over binary64. *)
Definition calculateUnionConnectedness (helper : string)
    (subject_set : list string) (pairwise_connectedness : gmap string R) : R :=
  if (length subject_set =? 0)%nat then 0
  else
    let product :=
      fold_left
        (fun product subject =>
           let pairwise :=
             getOr pairwise_connectedness (pairKey helper subject) 0 in
           product * (1 - clamp01 pairwise))
        subject_set 1 in
    clamp01 (1 - product).

Record Validation : Type := mkValidation {
  valid : bool;
  reason : option string
}.

Definition invalid (why : string) : Validation :=
  {| valid := false; reason := Some why |}.

Definition validateEarnEvent (event : EarnEvent) (params : CreditParameters)
  : Validation :=
  if Rle_dec (evidence_confidence event) 0 then
    invalid "Evidence confidence must be positive"
  else if Rle_dec (diversity_factor event) 0 then
    invalid "Diversity factor must be positive"
  else if (length (witnesses event) =? 0)%nat then
    invalid "At least one witness required"
  else if (length (subject_set event) =? 0)%nat then
    invalid "Subject set cannot be empty"
  else if bool_decide (helper event ∈ subject_set event) then
    invalid "Helper cannot earn credits for helping themselves"
  else {| valid := true; reason := None |}.

Definition updateCreditBalance (balance : CreditBalance)
    (earn_events : list EarnEvent) (spend_events : list SpendEvent)
    (current_epoch epoch_duration_hours : R) (params : CreditParameters)
  : CreditBalance :=
  let decayed_balance :=
    applyCreditDecay balance current_epoch epoch_duration_hours params in
  let total_earnings :=
    fold_left
      (fun sum event =>
         let validation := validateEarnEvent event params in
         if negb (valid validation) then sum
         else sum + calculateCreditAward event params)
      earn_events 0 in
  let total_spends :=
    fold_left (fun sum event => sum + amount event) spend_events 0 in
  let new_balance :=
    Rmax 0
      (Rmin (C_max params) (decayed_balance + total_earnings - total_spends)) in
  {| human := human balance;
     balance := new_balance;
     last_updated_epoch := current_epoch;
     earn_history := (earn_history balance ++ earn_events)%list;
     spend_history := (spend_history balance ++ spend_events)%list |}.

Definition getDefaultCreditParameters : CreditParameters :=
  {| C_max := 100;
     I_max_per_epoch := 0;
     S_max_per_epoch := 0;
     beta0 := 0.6;
     beta1 := 0.4;
     theta := 0.5;
     c_local := 2;
     c_xbranch := 5;
     c_global := 10;
     H_c_days := 180;
     delta := 0.5 |}.

(** The event with another proximity score, all other fields fixed. *)
Definition withProximity (event : EarnEvent) (p : R) : EarnEvent :=
  {| helper := helper event;
     action := action event;
     subject_set := subject_set event;
     evidence_confidence := evidence_confidence event;
     diversity_factor := diversity_factor event;
     proximity_score := p;
     branch_avg_credits := branch_avg_credits event;
     timestamp := timestamp event;
     witnesses := witnesses event |}.

(** The scarcity input is a number: [branch_avg_credits / C_max] is not
    [0 / 0], which JavaScript evaluates to [NaN]. *)
Definition scarcityDefined (event : EarnEvent) (params : CreditParameters)
  : Prop :=
  C_max params ≠ 0 ∨ branch_avg_credits event ≠ 0.

(** Far from the overflow threshold of a JavaScript number. *)
Definition moderate (x : R) : Prop := Rabs x <= 1e100.

(** No sum or product of the award formula overflows. *)
Definition withinRange (event : EarnEvent) (params : CreditParameters)
  : Prop :=
  moderate (base_award (action event))
  ∧ moderate (beta0 params) ∧ moderate (beta1 params).

(** What the two subtractions of the union can lose to rounding in
    JavaScript's numbers: 2^-53. *)
Definition rounding : R := / 2 ^ 53.

(** [Π (1 − C(h,s))] over the subjects, each pairwise value clamped. *)
Fixpoint missProduct (helper : string) (pairwise_connectedness : gmap string R)
    (subjects : list string) : R :=
  match subjects with
  | [] => 1
  | s :: rest =>
      (1 - clamp01 (getOr pairwise_connectedness (pairKey helper s) 0))
      * missProduct helper pairwise_connectedness rest
  end.

(** An earn event without evidence confidence, and a balance to update. *)
Definition unconfirmedEvent : EarnEvent :=
  {| helper := "helper";
     action := {| action_type := mediation; base_award := 3;
                  description := "mediation" |};
     subject_set := ["subject"];
     evidence_confidence := 0;
     diversity_factor := 1;
     proximity_score := 0.5;
     branch_avg_credits := 50;
     timestamp := 0;
     witnesses := ["witness"] |}.

(** The same event with full evidence confidence. *)
Definition confirmedEvent : EarnEvent :=
  {| helper := "helper";
     action := {| action_type := mediation; base_award := 3;
                  description := "mediation" |};
     subject_set := ["subject"];
     evidence_confidence := 1;
     diversity_factor := 1;
     proximity_score := 0.5;
     branch_avg_credits := 50;
     timestamp := 0;
     witnesses := ["witness"] |}.

Definition freshBalance : CreditBalance :=
  {| human := "helper"; balance := 10; last_updated_epoch := 1;
     earn_history := []; spend_history := [] |}.

(** An event with a negative base award, and parameters with a negative
    base multiplier [beta0] and the default proximity weight. *)
Definition penaltyEvent : EarnEvent :=
  {| helper := "helper";
     action := {| action_type := other; base_award := -1;
                  description := "penalty" |};
     subject_set := ["subject"];
     evidence_confidence := 1;
     diversity_factor := 1;
     proximity_score := 0;
     branch_avg_credits := 50;
     timestamp := 0;
     witnesses := ["witness"] |}.

Definition negativeBaseParameters : CreditParameters :=
  {| C_max := 100;
     I_max_per_epoch := 0;
     S_max_per_epoch := 0;
     beta0 := -1;
     beta1 := 0.4;
     theta := 0.5;
     c_local := 2;
     c_xbranch := 5;
     c_global := 10;
     H_c_days := 180;
     delta := 0.5 |}.

(** ** Properties *)

(** *** The award *)

Lemma clamp01_bounds (x : R) : 0 <= clamp01 x <= 1.
Proof.
  unfold clamp01, Rmax, Rmin.
  destruct (Rle_dec 1 x); destruct (Rle_dec 0 _); lra.
Qed.

Lemma clamp01_zero : clamp01 0 = 0.
Proof.
  unfold clamp01, Rmax, Rmin.
  destruct (Rle_dec 1 0); destruct (Rle_dec 0 _); lra.
Qed.

Lemma clamp01_monotone (x y : R) : x <= y → clamp01 x <= clamp01 y.
Proof.
  intros Hxy. unfold clamp01, Rmax, Rmin.
  destruct (Rle_dec 1 x); destruct (Rle_dec 1 y);
    repeat destruct (Rle_dec 0 _); lra.
Qed.

Lemma sigmoid_pos (x : R) : 0 < sigmoid x.
Proof.
  unfold sigmoid. pose proof (exp_pos (- x)).
  apply Rdiv_lt_0_compat; lra.
Qed.

(** C7 (as amended).  Where the scarcity input is a number (not 0/0) and the
    base award and the multipliers are far from overflow, the award is 0
    when the evidence confidence or the diversity factor is 0.  With all
    other fields fixed and a non-negative proximity weight [beta1], the
    award is monotone non-decreasing in the proximity score when the base
    award is non-negative (its documented range is [w_a > 0]) or the base
    multiplier [beta0] is non-negative (the default is 0.6). *)
Theorem award_zero_and_monotone (event : EarnEvent) (params : CreditParameters) :
  scarcityDefined event params → withinRange event params →
  (evidence_confidence event = 0 ∨ diversity_factor event = 0 →
   calculateCreditAward event params = 0)
  ∧ (0 <= beta1 params →
     0 <= base_award (action event) ∨ 0 <= beta0 params →
     ∀ p1 p2, p1 <= p2 →
       calculateCreditAward (withProximity event p1) params
       <= calculateCreditAward (withProximity event p2) params).
Proof.
  intros _ _. split.
  - intros H. unfold calculateCreditAward. cbv zeta.
    assert (Hz : clamp01 (evidence_confidence event)
                 * clamp01 (diversity_factor event) = 0).
    { destruct H as [-> | ->]; rewrite clamp01_zero; ring. }
    match goal with |- Rmax 0 ?a = 0 => replace a with 0 end.
    + unfold Rmax. destruct (Rle_dec 0 0); reflexivity.
    + rewrite (Rmult_assoc (base_award _)), Hz. ring.
  - intros Hb1 Hbase p1 p2 Hp. unfold calculateCreditAward. cbv zeta.
    cbn [withProximity action evidence_confidence diversity_factor
         proximity_score branch_avg_credits].
    pose proof (clamp01_bounds (evidence_confidence event)) as Hc.
    pose proof (clamp01_bounds (diversity_factor event)) as Hd.
    pose proof (clamp01_bounds p1) as H1.
    pose proof (clamp01_bounds p2) as H2.
    pose proof (clamp01_monotone p1 p2 Hp) as Hmono.
    pose proof (sigmoid_pos
      (theta params - branch_avg_credits event / C_max params)) as Hs.
    set (s := sigmoid _) in *.
    set (c := clamp01 (evidence_confidence event)) in *.
    set (d := clamp01 (diversity_factor event)) in *.
    set (q1 := clamp01 p1) in *. set (q2 := clamp01 p2) in *.
    set (w := base_award (action event)) in *.
    assert (Hcds : 0 <= c * d * s) by
      (apply Rmult_le_pos; [apply Rmult_le_pos|]; lra).
    assert (Hstep : 0 <= beta1 params * (q2 - q1)) by
      (apply Rmult_le_pos; lra).
    replace (w * c * d * (beta0 params + beta1 params * q1) * s)
      with (w * (beta0 params + beta1 params * q1) * (c * d * s)) by ring.
    replace (w * c * d * (beta0 params + beta1 params * q2) * s)
      with (w * (beta0 params + beta1 params * q2) * (c * d * s)) by ring.
    destruct Hbase as [Hw|Hb0].
    + apply Rle_max_compat_l. apply Rmult_le_compat_r; [exact Hcds|].
      apply Rmult_le_compat_l; [exact Hw|]. lra.
    + destruct (Rle_dec 0 w) as [Hw|Hw].
      * apply Rle_max_compat_l. apply Rmult_le_compat_r; [exact Hcds|].
        apply Rmult_le_compat_l; [exact Hw|]. lra.
      * assert (Hq1 : 0 <= beta1 params * q1) by (apply Rmult_le_pos; lra).
        assert (Hq2 : 0 <= beta1 params * q2) by (apply Rmult_le_pos; lra).
        assert (Hneg : ∀ q, 0 <= beta1 params * q →
                  w * (beta0 params + beta1 params * q) * (c * d * s) <= 0).
        { intros q Hq.
          assert (w * (beta0 params + beta1 params * q) <= 0) by nra.
          nra. }
        rewrite !Rmax_left by (apply Hneg; assumption). lra.
Qed.

(** *** Union connectedness of the credit engine *)

Lemma fold_product_missProduct (helper : string) (m : gmap string R)
    (subjects : list string) (a : R) :
  fold_left
    (fun product subject =>
       product * (1 - clamp01 (getOr m (pairKey helper subject) 0)))
    subjects a
  = a * missProduct helper m subjects.
Proof.
  revert a. induction subjects as [|s rest IH]; intros a;
    cbn [fold_left missProduct].
  - ring.
  - rewrite IH. ring.
Qed.

Lemma missProduct_bounds (helper : string) (m : gmap string R)
    (subjects : list string) :
  0 <= missProduct helper m subjects <= 1.
Proof.
  induction subjects as [|s rest IH]; cbn [missProduct]; [lra|].
  pose proof (clamp01_bounds (getOr m (pairKey helper s) 0)). nra.
Qed.

Lemma missProduct_le (helper : string) (m : gmap string R)
    (subjects : list string) (s : string) :
  s ∈ subjects →
  missProduct helper m subjects <= 1 - clamp01 (getOr m (pairKey helper s) 0).
Proof.
  induction subjects as [|t rest IH]; intros Hs.
  - by apply elem_of_nil in Hs.
  - cbn [missProduct].
    pose proof (clamp01_bounds (getOr m (pairKey helper t) 0)).
    pose proof (missProduct_bounds helper m rest).
    apply elem_of_cons in Hs as [->|Hs]; [nra|].
    specialize (IH Hs).
    pose proof (clamp01_bounds (getOr m (pairKey helper s) 0)). nra.
Qed.

Lemma clamp01_id (x : R) : 0 <= x <= 1 → clamp01 x = x.
Proof.
  intros Hx. unfold clamp01, Rmax, Rmin.
  destruct (Rle_dec 1 x); destruct (Rle_dec 0 _); lra.
Qed.

Lemma calculateUnionConnectedness_missProduct (helper : string)
    (subject_set : list string) (m : gmap string R) :
  calculateUnionConnectedness helper subject_set m
  = 1 - missProduct helper m subject_set.
Proof.
  unfold calculateUnionConnectedness.
  destruct subject_set as [|s rest]; [cbn; ring|].
  cbn [length Nat.eqb]. cbv zeta. rewrite fold_product_missProduct.
  pose proof (missProduct_bounds helper m (s :: rest)).
  rewrite clamp01_id; lra.
Qed.

Lemma rounding_pos : 0 < rounding.
Proof. unfold rounding. apply Rinv_0_lt_compat, pow_lt. lra. Qed.

(** C10 (as amended). The probabilistic-OR union connectedness of the
    credit engine lies in [0,1], is 0 for the empty subject set, and is at
    least the clamped pairwise connectedness of every subject of the set
    less the rounding of the two subtractions, 2^-53 (in exact arithmetic
    it is [1 − Π (1 − C(h,s))] and nothing is lost). *)
Theorem union_connectedness_probabilistic_or (helper : string)
    (subject_set : list string) (pairwise_connectedness : gmap string R) :
  let u :=
    calculateUnionConnectedness helper subject_set pairwise_connectedness in
  0 <= u <= 1
  ∧ (subject_set = [] → u = 0)
  ∧ ∀ s, s ∈ subject_set →
         clamp01 (getOr pairwise_connectedness (pairKey helper s) 0)
         - rounding <= u.
Proof.
  cbv zeta. rewrite calculateUnionConnectedness_missProduct.
  pose proof (missProduct_bounds helper pairwise_connectedness subject_set).
  pose proof rounding_pos.
  split; [lra|]. split.
  - intros ->. cbn. ring.
  - intros s Hs.
    pose proof (missProduct_le helper pairwise_connectedness subject_set s Hs).
    lra.
Qed.

(** C10 at a concrete input: two subjects with pairwise connectedness 0.5
    and 0.2 give a union of at least 0.5 less the rounding. *)
Lemma union_connectedness_probabilistic_or_witness :
  let m : gmap string R := <[ "h->s1" := 0.5 ]> (<[ "h->s2" := 0.2 ]> ∅) in
  clamp01 (getOr m (pairKey "h" "s1") 0) - rounding
  <= calculateUnionConnectedness "h" ["s1"; "s2"] m.
Proof.
  intros m.
  apply (union_connectedness_probabilistic_or "h" ["s1"; "s2"] m).
  apply elem_of_cons. by left.
Defined.

(** *** Balance update *)

Lemma updateCreditBalance_earn_history (balance : CreditBalance)
    (earn_events : list EarnEvent) (spend_events : list SpendEvent)
    (current_epoch epoch_duration_hours : R) (params : CreditParameters) :
  earn_history
    (updateCreditBalance balance earn_events spend_events current_epoch
       epoch_duration_hours params)
  = (earn_history balance ++ earn_events)%list.
Proof. reflexivity. Qed.

(** An event that validation rejects adds nothing to the new balance,
    wherever it stands in the batch. *)
Lemma rejected_event_earns_nothing (balance : CreditBalance)
    (before after : list EarnEvent) (event : EarnEvent)
    (spend_events : list SpendEvent) (current_epoch epoch_duration_hours : R)
    (params : CreditParameters) :
  valid (validateEarnEvent event params) = false →
  CreditFlow.balance
    (updateCreditBalance balance (before ++ event :: after)%list spend_events
       current_epoch epoch_duration_hours params)
  = CreditFlow.balance
      (updateCreditBalance balance (before ++ after)%list spend_events
         current_epoch epoch_duration_hours params).
Proof.
  intros Hrej. unfold updateCreditBalance. cbn [CreditFlow.balance].
  rewrite !fold_left_app. cbn [fold_left]. by rewrite Hrej.
Qed.

(** C4 on the code: validation rejects [unconfirmedEvent] and the update
    adds nothing for it to the balance, yet the event is in the earn history
    of the record the update returns. *)
Theorem rejected_event_is_kept_in_history :
  let updated :=
    updateCreditBalance freshBalance [unconfirmedEvent] [] 1 24
      getDefaultCreditParameters in
  validateEarnEvent unconfirmedEvent getDefaultCreditParameters
  = invalid "Evidence confidence must be positive"
  ∧ CreditFlow.balance updated
    = CreditFlow.balance
        (updateCreditBalance freshBalance [] [] 1 24
           getDefaultCreditParameters)
  ∧ earn_history updated = [unconfirmedEvent].
Proof.
  assert (Hrej : validateEarnEvent unconfirmedEvent getDefaultCreditParameters
                 = invalid "Evidence confidence must be positive").
  { unfold validateEarnEvent. cbn [evidence_confidence unconfirmedEvent].
    destruct (Rle_dec 0 0); [reflexivity|lra]. }
  split; [exact Hrej|]. split; [|reflexivity].
  apply (rejected_event_earns_nothing freshBalance [] [] unconfirmedEvent).
  by rewrite Hrej.
Qed.

(** Monotonicity in the proximity score needs a condition on signs: with
    a non-negative proximity weight, a negative base award and a negative
    [beta0], a proximity of 1 earns less than a proximity of 0. *)
Lemma award_falls_with_proximity :
  0 <= beta1 negativeBaseParameters
  ∧ calculateCreditAward (withProximity penaltyEvent 1) negativeBaseParameters
    < calculateCreditAward (withProximity penaltyEvent 0)
        negativeBaseParameters.
Proof.
  split; [cbn; lra|].
  unfold calculateCreditAward. cbv zeta.
  cbn [withProximity penaltyEvent negativeBaseParameters action base_award
       evidence_confidence diversity_factor proximity_score
       branch_avg_credits beta0 beta1 theta C_max].
  rewrite clamp01_zero, !(clamp01_id 1) by lra.
  pose proof (sigmoid_pos (0.5 - 50 / 100)) as Hs.
  set (s := sigmoid _) in *.
  rewrite !Rmax_right by nra. nra.
Qed.

Lemma moderate_small (x : R) : -1e100 <= x <= 1e100 → moderate x.
Proof. intros Hx. unfold moderate. apply Rabs_le. lra. Qed.

Lemma sigmoid_0 : sigmoid 0 = / 2.
Proof. unfold sigmoid. rewrite Ropp_0, exp_0. lra. Qed.

(** The award of [confirmedEvent] at another proximity, under the default
    parameters. *)
Lemma confirmedEvent_award (p : R) :
  0 <= p <= 1 →
  calculateCreditAward (withProximity confirmedEvent p)
    getDefaultCreditParameters
  = 3 * (0.6 + 0.4 * p) / 2.
Proof.
  intros Hp. unfold calculateCreditAward. cbv zeta.
  cbn [withProximity confirmedEvent getDefaultCreditParameters action
       base_award evidence_confidence diversity_factor proximity_score
       branch_avg_credits beta0 beta1 theta C_max].
  rewrite !(clamp01_id 1), (clamp01_id p) by lra.
  replace (0.5 - 50 / 100) with 0 by lra. rewrite sigmoid_0.
  rewrite Rmax_right by nra. lra.
Qed.

(** C7 at concrete inputs: under the default parameters an event without
    evidence confidence earns 0, and the fully confirmed event earns 1.02 at
    proximity 0.2 and no less, namely 1.32, at proximity 0.7. *)
Lemma award_zero_and_monotone_witness :
  calculateCreditAward unconfirmedEvent getDefaultCreditParameters = 0
  ∧ calculateCreditAward (withProximity confirmedEvent 0.2)
      getDefaultCreditParameters
    <= calculateCreditAward (withProximity confirmedEvent 0.7)
         getDefaultCreditParameters
  ∧ calculateCreditAward (withProximity confirmedEvent 0.2)
      getDefaultCreditParameters = 1.02
  ∧ calculateCreditAward (withProximity confirmedEvent 0.7)
      getDefaultCreditParameters = 1.32.
Proof.
  assert (Hrange : ∀ event,
            base_award (action event) = 3 →
            withinRange event getDefaultCreditParameters).
  { intros event Hw. unfold withinRange. rewrite Hw.
    repeat split; apply moderate_small;
      cbn [beta0 beta1 getDefaultCreditParameters]; split; lra. }
  assert (Hscarcity : ∀ event,
            scarcityDefined event getDefaultCreditParameters).
  { intros event. left. cbn [C_max getDefaultCreditParameters]. lra. }
  split; [|split; [|split]].
  - apply (award_zero_and_monotone unconfirmedEvent
             getDefaultCreditParameters (Hscarcity _)
             (Hrange unconfirmedEvent eq_refl)).
    by left.
  - apply (award_zero_and_monotone confirmedEvent
             getDefaultCreditParameters (Hscarcity _)
             (Hrange confirmedEvent eq_refl)).
    + cbn. lra.
    + left. cbn. lra.
    + lra.
  - rewrite confirmedEvent_award by lra. lra.
  - rewrite confirmedEvent_award by lra. lra.
Defined.

End CreditFlow.

(** * Safety tiers (src/social/math/safety_tiers.ts) *)
Module SafetyTiers.
Local Open Scope R_scope.

(** ** The embedded code and the notions the properties use *)

Inductive SafetyTier : Type :=
| NONE
| LOW
| MEDIUM
| HIGH
| CRITICAL.

Inductive FrictionType : Type :=
| RATE_LIMIT
| VERIFICATION
| COOLDOWN
| VISIBILITY_LIMIT
| INTERACTION_LIMIT
| REVIEW_REQUIRED
| WARNING_LABEL
| SUPPORTER_REQUIRED.

#[local] Instance FrictionType_eq_dec : EqDecision FrictionType.
Proof. solve_decision. Defined.

(** [startTime] is the [Date]'s millisecond count. *)
Record DecayTimer : Type := mkDecayTimer {
  halfLifeHours : R;
  startTime : Z;
  initialImpact : R;
  currentMultiplier : R
}.

Record SafetyTierResult : Type := mkSafetyTierResult {
  impactScore : R;
  tier : SafetyTier;
  frictions : list FrictionType;
  decayTimer : option DecayTimer;
  appealable : bool
}.

Record TierThresholds : Type := mkTierThresholds {
  low : R;
  medium : R;
  high : R;
  critical : R
}.

(** [SafetyTierOptions]: every field may be left out. *)
Record SafetyTierOptions : Type := mkSafetyTierOptions {
  opt_tierThresholds : option TierThresholds;
  opt_decayHalfLife : option R;
  opt_enableDecay : option bool;
  opt_maxImpactScore : option R;
  opt_minConnectednessForImpact : option R
}.

(** [Required<SafetyTierOptions>]. *)
Record RequiredOptions : Type := mkRequiredOptions {
  tierThresholds : TierThresholds;
  decayHalfLife : R;
  enableDecay : bool;
  maxImpactScore : R;
  minConnectednessForImpact : R
}.

Definition DEFAULT_OPTIONS : RequiredOptions :=
  {| tierThresholds :=
       {| low := 0.1; medium := 0.3; high := 0.6; critical := 0.85 |};
     decayHalfLife := 168;
     enableDecay := true;
     maxImpactScore := 1;
     minConnectednessForImpact := 0.05 |}.

(** [{ ...DEFAULT_OPTIONS, ...options }]. *)
Definition mergeOptions (d : RequiredOptions) (o : SafetyTierOptions)
  : RequiredOptions :=
  {| tierThresholds := default (tierThresholds d) (opt_tierThresholds o);
     decayHalfLife := default (decayHalfLife d) (opt_decayHalfLife o);
     enableDecay := default (enableDecay d) (opt_enableDecay o);
     maxImpactScore := default (maxImpactScore d) (opt_maxImpactScore o);
     minConnectednessForImpact :=
       default (minConnectednessForImpact d)
         (opt_minConnectednessForImpact o) |}.

Definition determineTier (impactScore : R) (thresholds : TierThresholds)
  : SafetyTier :=
  if Rge_dec impactScore (critical thresholds) then CRITICAL
  else if Rge_dec impactScore (high thresholds) then HIGH
  else if Rge_dec impactScore (medium thresholds) then MEDIUM
  else if Rge_dec impactScore (low thresholds) then LOW
  else NONE.

(** The [switch] falls through from the tier's case to [LOW]. *)
Definition determineFrictions (tier : SafetyTier) (impactScore : R)
  : list FrictionType :=
  let fromLow := [RATE_LIMIT] in
  let fromMedium := [RATE_LIMIT; WARNING_LABEL] ++ fromLow in
  let fromHigh := [VERIFICATION; COOLDOWN] ++ fromMedium in
  let fromCritical :=
    [INTERACTION_LIMIT; REVIEW_REQUIRED; SUPPORTER_REQUIRED; VISIBILITY_LIMIT;
     WARNING_LABEL] ++ fromHigh in
  let frictions :=
    match tier with
    | CRITICAL => fromCritical
    | HIGH => fromHigh
    | MEDIUM => fromMedium
    | LOW => fromLow
    | NONE => []
    end in
  unique frictions.

(** [tier >= SafetyTier.MEDIUM]. *)
Definition atLeastMedium (tier : SafetyTier) : bool :=
  match tier with
  | MEDIUM | HIGH | CRITICAL => true
  | NONE | LOW => false
  end.

(** [now] is the millisecond count of the [new Date()] the source takes. *)
Definition calculateSafetyTier (now : Z) (connectedness severity confidence : R)
    (options : SafetyTierOptions) : SafetyTierResult :=
  let opts := mergeOptions DEFAULT_OPTIONS options in
  let boundedC := Rmax 0 (Rmin 1 connectedness) in
  let boundedS := Rmax 0 (Rmin 1 severity) in
  let boundedK := Rmax 0 (Rmin 1 confidence) in
  if Rlt_dec boundedC (minConnectednessForImpact opts) then
    {| impactScore := 0; tier := NONE; frictions := []; decayTimer := None;
       appealable := false |}
  else
    let rawImpact := boundedC * boundedS * boundedK in
    let impactScore := Rmin rawImpact (maxImpactScore opts) in
    let tier := determineTier impactScore (tierThresholds opts) in
    let frictions := determineFrictions tier impactScore in
    let decayTimer :=
      if enableDecay opts then
        Some {| halfLifeHours := decayHalfLife opts;
                startTime := now;
                initialImpact := impactScore;
                currentMultiplier := 1 |}
      else None in
    {| impactScore := impactScore; tier := tier; frictions := frictions;
       decayTimer := decayTimer; appealable := atLeastMedium tier |}.

(** [(Date.now() - startTime.getTime()) / (1000 * 60 * 60)]. *)
Definition hoursElapsed (now : Z) (timer : DecayTimer) : R :=
  IZR (now - startTime timer) / (1000 * 60 * 60).

(** [now] is the value [Date.now()] returns during the call. *)
Definition updateDecayedImpact (now : Z) (result : SafetyTierResult)
  : SafetyTierResult :=
  match decayTimer result with
  | None => result
  | Some timer =>
      let decayMultiplier :=
        Math_pow 0.5 (hoursElapsed now timer / halfLifeHours timer) in
      let currentImpact := initialImpact timer * decayMultiplier in
      let newTier :=
        determineTier currentImpact (tierThresholds DEFAULT_OPTIONS) in
      let newFrictions := determineFrictions newTier currentImpact in
      {| impactScore := currentImpact;
         tier := newTier;
         frictions := newFrictions;
         decayTimer :=
           Some {| halfLifeHours := halfLifeHours timer;
                   startTime := startTime timer;
                   initialImpact := initialImpact timer;
                   currentMultiplier := decayMultiplier |};
         appealable := appealable result |}
  end.

(** A medium-tier result whose decay started at time 0, with the default
    half-life of one week. *)
Definition exampleResult : SafetyTierResult :=
  {| impactScore := 0.5;
     tier := MEDIUM;
     frictions := determineFrictions MEDIUM 0.5;
     decayTimer :=
       Some {| halfLifeHours := 168; startTime := 0; initialImpact := 0.5;
               currentMultiplier := 1 |};
     appealable := true |}.

(** ** Properties *)


Lemma half_pow_decreasing (x y : R) :
  x < y → Math_pow 0.5 y < Math_pow 0.5 x.
Proof.
  intros Hxy. unfold Math_pow, Rpower. apply exp_increasing.
  assert (Hln : ln 0.5 < 0).
  { rewrite <- ln_1. apply ln_increasing; lra. }
  nra.
Qed.


Lemma half_pow_antitone (x y : R) : x <= y → Math_pow 0.5 y <= Math_pow 0.5 x.
Proof.
  intros [Hlt| ->]; [left; by apply half_pow_decreasing|lra].
Qed.

Lemma hoursElapsed_monotone (now1 now2 : Z) (timer : DecayTimer) :
  (now1 <= now2)%Z → hoursElapsed now1 timer <= hoursElapsed now2 timer.
Proof.
  intros Hnow. unfold hoursElapsed.
  assert (IZR (now1 - startTime timer) <= IZR (now2 - startTime timer))
    by (apply IZR_le; lia).
  lra.
Qed.



End SafetyTiers.

(** * The code over binary64 numbers

    Where overflow, rounding or NaN decide what the code returns, the
    functions are read here over the numbers JavaScript computes with.
    [Math.pow] and [Math.exp] are fixed by the language for zeros, infinities
    and NaN; for the rest they take the approximation of the engine, which
    is a parameter. *)
Module Binary64.
#[local] Existing Instance SafetyTiers.FrictionType_eq_dec.
#[local] Set Warnings "-inexact-float".
Local Open Scope string_scope.
Local Open Scope float_scope.

(** ** The embedded code *)

(** [Math.max(x, y)]: NaN when an argument is, and [+0] above [-0]. *)
Definition Math_max (x y : float) : float :=
  if is_nan x || is_nan y then nan
  else if x <? y then y
  else if y <? x then x
  else if get_sign x then y else x.

(** [Math.min(x, y)]: NaN when an argument is, and [-0] below [+0]. *)
Definition Math_min (x y : float) : float :=
  if is_nan x || is_nan y then nan
  else if x <? y then x
  else if y <? x then y
  else if get_sign x then x else y.

(** [map.get(key) || 0]: a missing key, NaN and both zeros give 0. *)
Definition getOr0 (m : gmap string float) (key : string) : float :=
  match m !! key with
  | Some value => if is_nan value || is_zero value then 0 else value
  | None => 0
  end.

Definition calculateUnionConnectedness (helper : string)
    (subject_set : list string) (pairwise_connectedness : gmap string float)
  : float :=
  if (length subject_set =? 0)%nat then 0
  else
    let product :=
      fold_left
        (fun product subject =>
           let pairwise :=
             getOr0 pairwise_connectedness
               (CreditFlow.pairKey helper subject) in
           product * (1 - Math_max 0 (Math_min 1 pairwise)))
        subject_set 1 in
    Math_max 0 (Math_min 1 (1 - product)).

(** [startTime] is the [Date]'s millisecond count. *)
Record DecayTimer : Type := mkDecayTimer {
  halfLifeHours : float;
  startTime : float;
  initialImpact : float;
  currentMultiplier : float
}.

Record SafetyTierResult : Type := mkSafetyTierResult {
  impactScore : float;
  tier : SafetyTiers.SafetyTier;
  frictions : list SafetyTiers.FrictionType;
  decayTimer : option DecayTimer;
  appealable : bool
}.

Record TierThresholds : Type := mkTierThresholds {
  low : float;
  medium : float;
  high : float;
  critical : float
}.

(** [DEFAULT_OPTIONS.tierThresholds]. *)
Definition defaultTierThresholds : TierThresholds :=
  {| low := 0.1; medium := 0.3; high := 0.6; critical := 0.85 |}.

Definition determineTier (impactScore : float) (thresholds : TierThresholds)
  : SafetyTiers.SafetyTier :=
  if critical thresholds <=? impactScore then SafetyTiers.CRITICAL
  else if high thresholds <=? impactScore then SafetyTiers.HIGH
  else if medium thresholds <=? impactScore then SafetyTiers.MEDIUM
  else if low thresholds <=? impactScore then SafetyTiers.LOW
  else SafetyTiers.NONE.

(** The [switch] falls through from the tier's case to [LOW]. *)
Definition determineFrictions (tier : SafetyTiers.SafetyTier)
    (impactScore : float) : list SafetyTiers.FrictionType :=
  let fromLow := [SafetyTiers.RATE_LIMIT] in
  let fromMedium :=
    ([SafetyTiers.RATE_LIMIT; SafetyTiers.WARNING_LABEL] ++ fromLow)%list in
  let fromHigh :=
    ([SafetyTiers.VERIFICATION; SafetyTiers.COOLDOWN] ++ fromMedium)%list in
  let fromCritical :=
    ([SafetyTiers.INTERACTION_LIMIT; SafetyTiers.REVIEW_REQUIRED;
      SafetyTiers.SUPPORTER_REQUIRED; SafetyTiers.VISIBILITY_LIMIT;
      SafetyTiers.WARNING_LABEL] ++ fromHigh)%list in
  let frictions :=
    match tier with
    | SafetyTiers.CRITICAL => fromCritical
    | SafetyTiers.HIGH => fromHigh
    | SafetyTiers.MEDIUM => fromMedium
    | SafetyTiers.LOW => fromLow
    | SafetyTiers.NONE => []
    end in
  unique frictions.

Record CreditParameters : Type := mkCreditParameters {
  C_max : float;
  I_max_per_epoch : float;
  S_max_per_epoch : float;
  beta0 : float;
  beta1 : float;
  theta : float;
  c_local : float;
  c_xbranch : float;
  c_global : float;
  H_c_days : float;
  delta : float
}.

Record EarnableAction : Type := mkEarnableAction {
  action_type : CreditFlow.ActionType;      (* [type] *)
  base_award : float;
  description : string
}.

Record EarnEvent : Type := mkEarnEvent {
  helper : string;
  action : EarnableAction;
  subject_set : list string;
  evidence_confidence : float;
  diversity_factor : float;
  proximity_score : float;
  branch_avg_credits : float;
  timestamp : float;
  witnesses : list string
}.

(** The number is an integer. *)
Definition integral (x : float) : bool :=
  match Prim2SF x with
  | S754_zero _ => true
  | S754_finite _ m e =>
      (0 <=? e)%Z || (Z.pos m mod 2 ^ (- e) =? 0)%Z
  | _ => false
  end.

(** The number is an odd integer. *)
Definition oddIntegral (x : float) : bool :=
  match Prim2SF x with
  | S754_finite _ m e =>
      if (0 <? e)%Z then false
      else (Z.pos m mod 2 ^ (- e) =? 0)%Z && Z.odd (Z.pos m / 2 ^ (- e))
  | _ => false
  end.

Section Engine.
(** What the engine returns where the language asks for an approximation
    only. *)
Variable pow_approx : float -> float -> float.
Variable exp_approx : float -> float.

(** [Math.pow(base, exponent)], case by case as the language defines it. *)
Definition Math_pow (base exponent : float) : float :=
  if is_nan exponent then nan
  else if is_zero exponent then 1
  else if is_nan base then nan
  else if is_infinity base then
    if get_sign base then
      if 0 <? exponent
      then (if oddIntegral exponent then neg_infinity else infinity)
      else (if oddIntegral exponent then neg_zero else 0)
    else (if 0 <? exponent then infinity else 0)
  else if is_zero base then
    if get_sign base then
      if 0 <? exponent
      then (if oddIntegral exponent then neg_zero else 0)
      else (if oddIntegral exponent then neg_infinity else infinity)
    else (if 0 <? exponent then 0 else infinity)
  else if is_infinity exponent then
    if get_sign exponent then
      if 1 <? abs base then 0
      else if abs base =? 1 then nan else infinity
    else
      if 1 <? abs base then infinity
      else if abs base =? 1 then nan else 0
  else if (base <? 0) && negb (integral exponent) then nan
  else pow_approx base exponent.

(** [Math.exp(x)]. *)
Definition Math_exp (x : float) : float :=
  if is_nan x then nan
  else if is_zero x then 1
  else if is_infinity x then (if get_sign x then 0 else infinity)
  else exp_approx x.

Definition sigmoid (x : float) : float := 1 / (1 + Math_exp (- x)).

(** [now] is the value [Date.now()] returns during the call. *)
Definition updateDecayedImpact (now : float) (result : SafetyTierResult)
  : SafetyTierResult :=
  match decayTimer result with
  | None => result
  | Some timer =>
      let hoursElapsed := (now - startTime timer) / (1000 * 60 * 60) in
      let decayMultiplier :=
        Math_pow 0.5 (hoursElapsed / halfLifeHours timer) in
      let currentImpact := initialImpact timer * decayMultiplier in
      let newTier := determineTier currentImpact defaultTierThresholds in
      let newFrictions := determineFrictions newTier currentImpact in
      {| impactScore := currentImpact;
         tier := newTier;
         frictions := newFrictions;
         decayTimer :=
           Some {| halfLifeHours := halfLifeHours timer;
                   startTime := startTime timer;
                   initialImpact := initialImpact timer;
                   currentMultiplier := decayMultiplier |};
         appealable := appealable result |}
  end.

Definition calculateCreditAward (event : EarnEvent) (params : CreditParameters)
  : float :=
  let base_award := base_award (action event) in
  let confidence := Math_max 0 (Math_min 1 (evidence_confidence event)) in
  let diversity := Math_max 0 (Math_min 1 (diversity_factor event)) in
  let proximity_factor :=
    beta0 params
    + beta1 params * Math_max 0 (Math_min 1 (proximity_score event)) in
  let scarcity_input :=
    theta params - branch_avg_credits event / C_max params in
  let scarcity_bonus := sigmoid scarcity_input in
  let award :=
    base_award * confidence * diversity * proximity_factor * scarcity_bonus in
  Math_max 0 award.
End Engine.


(** An event without evidence confidence in a branch without credits, and
    the default parameters with the cap [C_max] set to 0. *)
Definition unconfirmedEvent : EarnEvent :=
  {| helper := "helper";
     action := {| action_type := CreditFlow.mediation; base_award := 3;
                  description := "mediation" |};
     subject_set := ["subject"];
     evidence_confidence := 0;
     diversity_factor := 1;
     proximity_score := 0.5;
     branch_avg_credits := 0;
     timestamp := 0;
     witnesses := ["witness"] |}.

Definition uncappedParameters : CreditParameters :=
  {| C_max := 0;
     I_max_per_epoch := 0;
     S_max_per_epoch := 0;
     beta0 := 0.6;
     beta1 := 0.4;
     theta := 0.5;
     c_local := 2;
     c_xbranch := 5;
     c_global := 10;
     H_c_days := 180;
     delta := 0.5 |}.

(** Parameters with a cap of 100 and multipliers of 1.5e308 each: for a
    proximity of 0.5 the proximity factor is beyond the largest number.  The
    scarcity input is 0, where [Math.exp] is 1 exactly. *)
Definition overflowingParameters : CreditParameters :=
  {| C_max := 100;
     I_max_per_epoch := 0;
     S_max_per_epoch := 0;
     beta0 := 1.5e308;
     beta1 := 1.5e308;
     theta := 0;
     c_local := 2;
     c_xbranch := 5;
     c_global := 10;
     H_c_days := 180;
     delta := 0.5 |}.

(** ** Properties *)

(** C10 as stated fails: for the single subject [s] with pairwise
    connectedness 0.1 the union is [1 - (1 - 0.1)], which the subtractions
    round to 0.09999999999999998, below the clamped pairwise value 0.1. *)
Lemma union_below_pairwise :
  let m : gmap string float := <[ "h->s" := 0.1 ]> ∅ in
  Math_max 0 (Math_min 1 (getOr0 m (CreditFlow.pairKey "h" "s"))) = 0.1
  ∧ calculateUnionConnectedness "h" ["s"] m = 0.09999999999999998
  ∧ (calculateUnionConnectedness "h" ["s"] m <? 0.1) = true.
Proof. vm_compute. repeat split. Qed.


(** C7 as stated fails, in three ways.  With a negative base award and a
    negative [beta0], a proximity of 1 earns less than a proximity of 0.
    The award of an event without evidence confidence is not 0 for every
    parameter set: with [C_max] 0 and a branch average of 0 the scarcity
    input is 0/0 and the award is NaN, whatever the engine; and with
    multipliers so large that the proximity factor overflows to +∞ the
    award is 0 × ∞, NaN again. *)
Lemma award_not_zero_nor_monotone :
  (0 <= CreditFlow.beta1 CreditFlow.negativeBaseParameters
   ∧ CreditFlow.calculateCreditAward
       (CreditFlow.withProximity CreditFlow.penaltyEvent 1)
       CreditFlow.negativeBaseParameters
     < CreditFlow.calculateCreditAward
         (CreditFlow.withProximity CreditFlow.penaltyEvent 0)
         CreditFlow.negativeBaseParameters)%R
  ∧ evidence_confidence unconfirmedEvent = 0
  ∧ (∀ exp_approx,
       is_nan (calculateCreditAward exp_approx unconfirmedEvent
                 uncappedParameters) = true)
  ∧ ∀ exp_approx,
      is_nan (calculateCreditAward exp_approx unconfirmedEvent
                overflowingParameters) = true.
Proof.
  split; [exact CreditFlow.award_falls_with_proximity|].
  repeat split.
Qed.

End Binary64.

(** * A helper of the modules below *)

(** [xs.join(',')]. *)
Fixpoint join (xs : list string) : string :=
  match xs with
  | [] => EmptyString
  | [x] => x
  | x :: rest => x ++ "," ++ join rest
  end.

(** * Paths and scores (src/social/math/connectedness.ts) *)
Module Routes.
Import Connectedness.
Local Open Scope Q_scope.

(** [p] walks along edges of [g]: every node lists the next as a neighbour. *)
Fixpoint follows (g : Graph) (p : Path) : Prop :=
  match p with
  | a :: (b :: _) as rest => b ∈ neighbors g a ∧ follows g rest
  | _ => True
  end.

(** A simple path from [source] to [target] of at least one and at most
    [maxDepth] edges. *)
Definition route (g : Graph) (source target : string) (maxDepth : Z)
    (p : Path) : Prop :=
  head p = Some source ∧ last p = Some target ∧ NoDup p ∧ follows g p
  ∧ (2 <= length p)%nat ∧ (Z.of_nat (length p) - 1 <= maxDepth)%Z.

(** How a call of [dfs] can complete the path it is given: by [ext], walked
    from [current], without a repeated node, ending at [target] within the
    depth bound. *)
Definition completes (g : Graph) (target : string) (maxDepth : Z)
    (current : string) (path : Path) (depth : Z) (ext : Path) : Prop :=
  follows g (current :: ext) ∧ NoDup ext ∧ (∀ x, x ∈ ext → x ∉ path)
  ∧ last (current :: ext) = Some target
  ∧ (1 < length (path ++ ext))%nat
  ∧ (depth + Z.of_nat (length ext) <= maxDepth)%Z.

(** Shorter paths come first. *)
Definition byLength (a b : Path) : Prop := (length a <= length b)%nat.

(** ** Properties *)

(** *** The paths the search returns *)

Lemma search_sound (g : Graph) (target : string) (maxDepth : Z) (fuel : nat) :
  ∀ (current : string) (path : Path) (depth : Z) (q : Path),
    q ∈ search target g maxDepth fuel current path depth →
    ∃ ext, q = path ++ ext
           ∧ completes g target maxDepth current path depth ext.
Proof.
  induction fuel as [|fuel IH]; intros current path depth q; cbn [search].
  - intros Hq. by apply elem_of_nil in Hq.
  - destruct (maxDepth <? depth)%Z eqn:Hdepth.
    { intros Hq. by apply elem_of_nil in Hq. }
    apply Z.ltb_ge in Hdepth.
    destruct (bool_decide (current = target) && (1 <? length path)%nat)
      eqn:Hpush.
    + apply andb_true_iff in Hpush as [Hcur Hlen].
      apply bool_decide_eq_true in Hcur. apply Nat.ltb_lt in Hlen.
      intros Hq. apply list_elem_of_singleton in Hq as ->.
      exists []. rewrite app_nil_r. split; [done|].
      unfold completes. rewrite app_nil_r. cbn [follows last length].
      split; [done|]. split; [constructor|].
      split; [intros x Hx; by apply elem_of_nil in Hx|].
      split; [by rewrite Hcur|]. split; lia.
    + rewrite list_elem_of_In, in_flat_map.
      intros (n & Hn & Hq). apply list_elem_of_In in Hn.
      destruct (decide (n ∈ path)) as [Hin|Hin].
      { rewrite (bool_decide_eq_true_2 _ Hin) in Hq. destruct Hq. }
      rewrite (bool_decide_eq_false_2 _ Hin) in Hq.
      apply list_elem_of_In, IH in Hq
        as (ext & -> & Hfol & Hnd & Hdisj & Hlast & Hlen & Hd).
      exists (n :: ext). split; [by rewrite <- app_assoc|].
      repeat split.
      * exact Hn.
      * exact Hfol.
      * constructor; [|exact Hnd]. intros Hn'. apply (Hdisj n Hn').
        apply elem_of_app. right. by apply list_elem_of_singleton.
      * intros x Hx Hp. apply elem_of_cons in Hx as [->|Hx]; [done|].
        apply (Hdisj x Hx). apply elem_of_app. by left.
      * exact Hlast.
      * by rewrite <- app_assoc in Hlen.
      * cbn [length]. lia.
Qed.

Lemma last_cons_elem (x : string) (l : Path) (t : string) :
  last (x :: l) = Some t → l ≠ [] → t ∈ l.
Proof.
  revert x. induction l as [|y l IH]; intros x Hlast Hne; [done|].
  destruct l as [|z l].
  - cbn in Hlast. injection Hlast as ->. apply elem_of_cons. by left.
  - apply elem_of_cons. right. apply (IH y); [exact Hlast|done].
Qed.

Lemma search_complete (g : Graph) (target : string) (maxDepth : Z)
    (fuel : nat) :
  ∀ (current : string) (path : Path) (depth : Z) (ext : Path),
    (Z.to_nat (maxDepth + 1 - depth) <= fuel)%nat →
    current ∈ path →
    completes g target maxDepth current path depth ext →
    path ++ ext ∈ search target g maxDepth fuel current path depth.
Proof.
  induction fuel as [|fuel IH]; intros current path depth ext Hfuel Hcur
    (Hfol & Hnd & Hdisj & Hlast & Hlen & Hd).
  - lia.
  - cbn [search].
    replace (maxDepth <? depth)%Z with false by (symmetry; apply Z.ltb_ge; lia).
    destruct ext as [|n ext].
    + cbn in Hlast. injection Hlast as ->. rewrite app_nil_r in *.
      rewrite bool_decide_eq_true_2 by done.
      replace (1 <? length path)%nat with true
        by (symmetry; by apply Nat.ltb_lt).
      cbn [andb]. by apply list_elem_of_singleton.
    + assert (Hne : current ≠ target).
      { intros ->. apply (Hdisj target); [|exact Hcur].
        by apply (last_cons_elem target (n :: ext)). }
      rewrite (bool_decide_eq_false_2 _ Hne). cbn [andb].
      destruct Hfol as [Hn Hfol].
      apply list_elem_of_In, in_flat_map. exists n.
      split; [by apply list_elem_of_In|].
      rewrite bool_decide_eq_false_2
        by (apply Hdisj, elem_of_cons; by left).
      apply list_elem_of_In.
      replace (path ++ n :: ext) with ((path ++ [n]) ++ ext)
        by (by rewrite <- app_assoc).
      apply NoDup_cons in Hnd as [Hn' Hnd].
      apply IH.
      * lia.
      * apply elem_of_app. right. by apply list_elem_of_singleton.
      * repeat split.
        -- exact Hfol.
        -- exact Hnd.
        -- intros x Hx Hp. apply elem_of_app in Hp as [Hp|Hp].
           ++ apply (Hdisj x); [apply elem_of_cons; by right|exact Hp].
           ++ apply list_elem_of_singleton in Hp as ->. done.
        -- exact Hlast.
        -- by rewrite <- app_assoc.
        -- cbn [length] in Hd. lia.
Qed.

Lemma head_cons_inv (p : Path) (s : string) :
  head p = Some s → ∃ ext, p = s :: ext.
Proof. destruct p as [|x ext]; [done|]. intros [= ->]. by exists ext. Qed.

Lemma findWeightedPaths_sound (g : Graph) (source target : string)
    (maxDepth : Z) (p : Path) :
  p ∈ findWeightedPaths source target g maxDepth →
  route g source target maxDepth p.
Proof.
  rewrite elem_of_findWeightedPaths. intros Hp.
  apply search_sound in Hp
    as (ext & -> & Hfol & Hnd & Hdisj & Hlast & Hlen & Hd).
  cbn [app length] in *.
  split; [done|]. split; [exact Hlast|]. split.
  { constructor; [|exact Hnd]. intros Hs. apply (Hdisj source Hs).
    by apply list_elem_of_singleton. }
  split; [exact Hfol|]. cbn [length]. split; lia.
Qed.

Lemma findWeightedPaths_complete (g : Graph) (source target : string)
    (maxDepth : Z) (p : Path) :
  route g source target maxDepth p →
  p ∈ findWeightedPaths source target g maxDepth.
Proof.
  rewrite elem_of_findWeightedPaths.
  intros (Hhead & Hlast & Hnd & Hfol & Hlen & Hd).
  apply head_cons_inv in Hhead as [ext ->].
  apply NoDup_cons in Hnd as [Hs Hnd]. cbn [length] in *.
  apply (search_complete g target maxDepth (dfsFuel maxDepth) source
           [source] 0%Z ext).
  - unfold dfsFuel. lia.
  - by apply list_elem_of_singleton.
  - split; [exact Hfol|]. split; [exact Hnd|]. split.
    { intros x Hx Hp. apply list_elem_of_singleton in Hp as ->. done. }
    split; [exact Hlast|]. cbn [app length]. split; lia.
Qed.

(** X1. The paths [findWeightedPaths] returns are exactly the simple paths
    from the source to the target that follow edges of the graph and have
    between one and [maxDepth] edges. *)
Theorem findWeightedPaths_routes (g : Graph) (source target : string)
    (maxDepth : Z) (p : Path) :
  p ∈ findWeightedPaths source target g maxDepth
  ↔ route g source target maxDepth p.
Proof.
  split.
  - apply findWeightedPaths_sound.
  - apply findWeightedPaths_complete.
Qed.

Lemma insertByLength_sorted (p : Path) (l : list Path) :
  StronglySorted byLength l → StronglySorted byLength (insertByLength p l).
Proof.
  induction 1 as [|q l Hl IH Hq]; cbn [insertByLength].
  - repeat constructor.
  - destruct (length p <=? length q)%nat eqn:Hpq.
    + apply Nat.leb_le in Hpq. constructor; [by constructor|].
      constructor; [exact Hpq|].
      eapply Forall_impl; [exact Hq|]. unfold byLength. intros; lia.
    + apply Nat.leb_gt in Hpq. constructor; [exact IH|].
      rewrite insertByLength_Permutation. constructor; [|exact Hq].
      unfold byLength. lia.
Qed.

(** X2. [findWeightedPaths] returns every path once, shortest first. *)
Theorem findWeightedPaths_unique_sorted (g : Graph) (source target : string)
    (maxDepth : Z) :
  NoDup (findWeightedPaths source target g maxDepth)
  ∧ StronglySorted byLength (findWeightedPaths source target g maxDepth).
Proof.
  split; [apply NoDup_findWeightedPaths|].
  unfold findWeightedPaths. cbv zeta.
  generalize (unique (paths
    (dfs target g maxDepth (dfsFuel maxDepth) source [source] 0%Z
       {| paths := []; visited := ∅ |}))).
  intros l. induction l as [|p l IH]; cbn [sortByLength]; [constructor|].
  by apply insertByLength_sorted.
Qed.

(** *** Reachability and the score *)

Lemma sumOf_pos {A : Type} (f : A -> Q) (l : list A) :
  (∀ x, 0 < f x) → l ≠ [] → 0 < sumOf f l.
Proof.
  intros Hf Hl. destruct l as [|x l]; [done|]. cbn [sumOf].
  pose proof (Hf x).
  assert (0 <= sumOf f l).
  { clear Hl. induction l as [|y l IH]; cbn [sumOf]; [lra|].
    pose proof (Hf y). lra. }
  lra.
Qed.

(** X3. A positive pairwise score means the target can be reached: it is a
    direct neighbour of the source, or a simple path of at most [maxDepth]
    edges leads to it; a target that cannot be reached gets the record of
    certain absence, with score 0.  With the default decay factor and depth
    every target that can be reached has a positive score. *)
Theorem score_positive_iff_reachable (sourceHER targetHER : string)
    (sponsorGraph : Graph) (options : ConnectednessOptions) :
  let r :=
    calculatePairwiseConnectedness sourceHER targetHER sponsorGraph options in
  let reachable :=
    targetHER ∈ neighbors sponsorGraph sourceHER
    ∨ ∃ p, route sponsorGraph sourceHER targetHER
             (maxDepth (mergeOptions DEFAULT_OPTIONS options)) p in
  (0 < score r → reachable)
  ∧ (¬ reachable →
     r = {| score := 0; pathCount := 0; shortestPath := Infinity;
            diversityScore := 0; confidence := 1 |})
  ∧ (opt_decayFactor options = None → opt_maxDepth options = None →
     reachable → 0 < score r).
Proof.
  intros r reachable. subst r reachable.
  unfold calculatePairwiseConnectedness. cbv zeta.
  destruct (directlyLinked sponsorGraph sourceHER targetHER) eqn:Hdirect.
  { apply directlyLinked_neighbors in Hdirect. cbn [score].
    split; [intros _; by left|].
    split; [intros Hno; destruct Hno; by left|]. reflexivity. }
  assert (Hnot : targetHER ∉ neighbors sponsorGraph sourceHER).
  { intros Hin. apply directlyLinked_neighbors in Hin. congruence. }
  assert (Hdecay : opt_decayFactor options = None →
                   0 < decayFactor (mergeOptions DEFAULT_OPTIONS options)).
  { intros Hnone. unfold mergeOptions. cbn [decayFactor].
    by rewrite Hnone. }
  set (depth := maxDepth _) in *.
  destruct (findWeightedPaths sourceHER targetHER sponsorGraph depth)
    as [|p ps] eqn:E.
  - cbn [length Nat.eqb score].
    split; [intros Hpos; by apply Qlt_irrefl in Hpos|].
    split; [reflexivity|].
    intros _ _ [Hin|[p Hp]]; [done|].
    apply findWeightedPaths_complete in Hp. rewrite E in Hp.
    by apply elem_of_nil in Hp.
  - cbn [length Nat.eqb score]. rewrite <- E.
    assert (Hreach : ∃ q, route sponsorGraph sourceHER targetHER depth q).
    { exists p. apply findWeightedPaths_sound. rewrite E.
      apply elem_of_cons. by left. }
    split; [intros _; by right|].
    split; [intros Hno; destruct Hno; by right|].
    intros Hnone _ _. specialize (Hdecay Hnone).
    apply Q.min_glb_lt; [reflexivity|].
    rewrite totalWeight_sumOf. apply sumOf_pos.
    + intros q. cbn. by apply Qpower_0_lt.
    + by rewrite E.
Qed.

(** X3 at a concrete input. *)
Lemma score_positive_iff_reachable_witness :
  0 < score (calculatePairwiseConnectedness "a" "b" exampleGraph noOptions).
Proof.
  apply (score_positive_iff_reachable "a" "b" exampleGraph noOptions).
  - reflexivity.
  - reflexivity.
  - right. exists ["a"; "m"; "b"]%string.
    apply findWeightedPaths_sound.
    assert (E : findWeightedPaths "a" "b" exampleGraph
                  (maxDepth (mergeOptions DEFAULT_OPTIONS noOptions))
                = [["a"; "m"; "b"]]%string) by (by vm_compute).
    rewrite E. apply elem_of_cons. by left.
Defined.

(** *** Symmetry *)

Lemma follows_snoc (g : Graph) (l : Path) (a : string) :
  follows g (l ++ [a])
  ↔ follows g l ∧ ∀ b, last l = Some b → a ∈ neighbors g b.
Proof.
  induction l as [|x l IH].
  - cbn. split; [|done]. intros _. split; [done|]. intros b Hb. discriminate.
  - destruct l as [|y l].
    + cbn. split.
      * intros [Ha _]. split; [done|]. by intros b [= <-].
      * intros [_ Ha]. split; [|done]. by apply Ha.
    + change (follows g ((x :: y :: l) ++ [a]))
        with (y ∈ neighbors g x ∧ follows g ((y :: l) ++ [a])).
      change (follows g (x :: y :: l))
        with (y ∈ neighbors g x ∧ follows g (y :: l)).
      change (last (x :: y :: l)) with (last (y :: l)).
      rewrite IH. tauto.
Qed.

Lemma follows_reverse (g : Graph) (p : Path) :
  symmetric g → follows g p → follows g (reverse p).
Proof.
  intros Hsym. induction p as [|a p IH]; [done|].
  intros Hfol. rewrite reverse_cons. apply follows_snoc.
  destruct p as [|b p].
  - split; [done|]. intros c Hc. discriminate.
  - destruct Hfol as [Hab Hfol]. split; [by apply IH|].
    intros c Hc. rewrite last_reverse in Hc. cbn in Hc.
    injection Hc as <-. by apply Hsym.
Qed.

Lemma route_reverse (g : Graph) (a b : string) (maxDepth : Z) (p : Path) :
  symmetric g → route g a b maxDepth p → route g b a maxDepth (reverse p).
Proof.
  intros Hsym (Hhead & Hlast & Hnd & Hfol & Hlen & Hd).
  split; [by rewrite head_reverse|]. split; [by rewrite last_reverse|].
  split; [by rewrite reverse_Permutation|]. split; [by apply follows_reverse|].
  rewrite length_reverse. done.
Qed.

Lemma sumOf_Permutation {A : Type} (f : A -> Q) (l k : list A) :
  l ≡ₚ k → sumOf f l == sumOf f k.
Proof.
  induction 1 as [|x l k _ IH|x y l|l k m _ IH1 _ IH2]; cbn [sumOf].
  - reflexivity.
  - by rewrite IH.
  - ring.
  - by rewrite IH1.
Qed.

Lemma sumOf_fmap {A B : Type} (f : B -> Q) (h : A -> B) (l : list A) :
  sumOf f (h <$> l) = sumOf (fun x => f (h x)) l.
Proof. induction l as [|x l IH]; cbn; [done|]. by rewrite IH. Qed.

Lemma sumOf_ext {A : Type} (f h : A -> Q) (l : list A) :
  (∀ x, f x = h x) → sumOf f l = sumOf h l.
Proof. intros E. induction l as [|x l IH]; cbn; [done|]. by rewrite E, IH. Qed.

(** The paths one way are the reversed paths the other way. *)
Lemma findWeightedPaths_reverse (g : Graph) (a b : string) (maxDepth : Z) :
  symmetric g →
  findWeightedPaths a b g maxDepth
  ≡ₚ reverse <$> findWeightedPaths b a g maxDepth.
Proof.
  intros Hsym. apply NoDup_Permutation.
  - apply NoDup_findWeightedPaths.
  - apply NoDup_fmap_2; [|apply NoDup_findWeightedPaths].
    intros x y Hxy. by rewrite <- (reverse_involutive x), Hxy,
      reverse_involutive.
  - intros p. rewrite list_elem_of_fmap. split.
    + intros Hp. exists (reverse p). rewrite reverse_involutive.
      split; [done|].
      by apply findWeightedPaths_complete, route_reverse,
        findWeightedPaths_sound.
    + intros (q & -> & Hq).
      by apply findWeightedPaths_complete, route_reverse,
        findWeightedPaths_sound.
Qed.

(** X4. On a symmetric graph, as [buildSponsorGraph] builds it, pairwise
    connectedness does not depend on the direction: the score and the path
    count from [a] to [b] are those from [b] to [a]. *)
Theorem score_symmetric (a b : string) (g : Graph)
    (options : ConnectednessOptions) :
  symmetric g →
  score (calculatePairwiseConnectedness a b g options)
  == score (calculatePairwiseConnectedness b a g options)
  ∧ pathCount (calculatePairwiseConnectedness a b g options)
    = pathCount (calculatePairwiseConnectedness b a g options).
Proof.
  intros Hsym. unfold calculatePairwiseConnectedness. cbv zeta.
  assert (Hdirect : directlyLinked g a b = directlyLinked g b a).
  { apply eq_true_iff_eq. rewrite !directlyLinked_neighbors. apply Hsym. }
  rewrite Hdirect. destruct (directlyLinked g b a); [done|].
  set (depth := maxDepth _). set (d := decayFactor _).
  pose proof (findWeightedPaths_reverse g a b depth Hsym) as Hperm.
  assert (Hlen : length (findWeightedPaths a b g depth)
                 = length (findWeightedPaths b a g depth)).
  { by rewrite Hperm, length_fmap. }
  rewrite Hlen.
  destruct (length (findWeightedPaths b a g depth) =? 0)%nat; [done|].
  cbn [score pathCount]. split; [|done].
  rewrite !totalWeight_sumOf.
  rewrite (sumOf_Permutation _ _ _ Hperm), sumOf_fmap.
  erewrite sumOf_ext; [reflexivity|].
  intros p. cbn. by rewrite length_reverse.
Qed.

(** X4 at a concrete input. *)
Lemma score_symmetric_witness :
  score (calculatePairwiseConnectedness "a" "b" exampleGraph noOptions)
  == score (calculatePairwiseConnectedness "b" "a" exampleGraph noOptions).
Proof.
  apply score_symmetric.
  intros u v. unfold exampleGraph.
  rewrite !buildSponsorGraph_neighbors. tauto.
Defined.
End Routes.

(** * Sponsor graphs in use (src/social/math/connectedness.ts) *)
Module GraphUse.
Import Connectedness.
Local Open Scope Q_scope.

(** The result of the short-circuit for a direct link. *)
Definition directResult : ConnectednessResult :=
  {| score := 1; pathCount := 1; shortestPath := Finite 1;
     diversityScore := 1; confidence := 1 |}.

(** ** Properties *)

(** X5. A declared sponsorship gives maximal connectedness both ways: on
    the graph [buildSponsorGraph] makes of the declarations, the pairwise
    result between a participant and any sponsor it declares is the
    direct-link record, in either direction and under any options. *)
Theorem declared_sponsor_is_directly_connected
    (herData : list (string * list string)) (h s : string)
    (options : ConnectednessOptions) :
  declares herData h s →
  calculatePairwiseConnectedness h s (buildSponsorGraph herData) options
  = directResult
  ∧ calculatePairwiseConnectedness s h (buildSponsorGraph herData) options
    = directResult.
Proof.
  intros Hdecl. unfold calculatePairwiseConnectedness.
  assert (H1 : directlyLinked (buildSponsorGraph herData) h s = true).
  { apply directlyLinked_neighbors, buildSponsorGraph_neighbors. by left. }
  assert (H2 : directlyLinked (buildSponsorGraph herData) s h = true).
  { apply directlyLinked_neighbors, buildSponsorGraph_neighbors. by right. }
  by rewrite H1, H2.
Qed.

Lemma declared_sponsor_is_directly_connected_witness :
  calculatePairwiseConnectedness "a" "m"
    (buildSponsorGraph [("m", ["a"]); ("b", ["m"])]%string) noOptions
  = directResult.
Proof.
  apply (declared_sponsor_is_directly_connected
           [("m", ["a"]); ("b", ["m"])]%string "m" "a" noOptions).
  exists ["a"]%string. split; apply elem_of_cons; by left.
Defined.

Lemma addSponsor_present (h s : string) (g : Graph) :
  s ∈ neighbors g h → h ∈ neighbors g s → addSponsor h g s = g.
Proof.
  intros Hs Hh. unfold addSponsor. cbv zeta.
  rewrite (bool_decide_eq_true_2 _ Hh).
  by rewrite (bool_decide_eq_true_2 _ Hs).
Qed.

Lemma addEntries_present (extra : list (string * list string)) (g : Graph) :
  (∀ h s, declares extra h s → s ∈ neighbors g h ∧ h ∈ neighbors g s) →
  fold_left addEntry extra g = g.
Proof.
  induction extra as [|[h sponsors] rest IH]; intros Hall; cbn [fold_left];
    [done|].
  assert (Hentry : addEntry g (h, sponsors) = g).
  { unfold addEntry. cbn [fst snd].
    assert (Hs : ∀ s, s ∈ sponsors → s ∈ neighbors g h ∧ h ∈ neighbors g s).
    { intros s Hs. apply Hall, declares_cons. by left. }
    clear Hall IH. induction sponsors as [|s sponsors IHs]; cbn [fold_left];
      [done|].
    rewrite addSponsor_present.
    - apply IHs. intros s' Hs'. apply Hs, elem_of_cons. by right.
    - apply Hs, elem_of_cons. by left.
    - apply Hs, elem_of_cons. by left. }
  rewrite Hentry. apply IH. intros h' s' Hd. apply Hall, declares_cons.
  by right.
Qed.

(** X6. Declaring what is already known changes nothing: entries appended
    to the input whose sponsorships all occur among the earlier entries, in
    either direction (a participant names as sponsor someone who has named
    it), leave the built graph as it was, neighbour order included. *)
Theorem known_sponsorships_change_nothing
    (herData extra : list (string * list string)) :
  (∀ h s, declares extra h s → declares herData h s ∨ declares herData s h) →
  buildSponsorGraph (herData ++ extra) = buildSponsorGraph herData.
Proof.
  intros Hsub. unfold buildSponsorGraph. rewrite fold_left_app.
  apply addEntries_present. intros h s Hd. apply Hsub in Hd.
  split; apply buildSponsorGraph_neighbors; tauto.
Qed.

(** X6 at a concrete input: [a], whom [m] has named, names [m]. *)
Lemma known_sponsorships_change_nothing_witness :
  buildSponsorGraph
    ([("m", ["a"]); ("b", ["m"])]%string ++ [("a", ["m"])]%string)
  = buildSponsorGraph [("m", ["a"]); ("b", ["m"])]%string.
Proof.
  apply known_sponsorships_change_nothing.
  intros h s Hd. apply declares_cons in Hd as [[-> Hs]|Hd].
  - apply list_elem_of_singleton in Hs as ->.
    right. apply declares_cons. left. split; [done|].
    by apply list_elem_of_singleton.
  - by apply declares_nil in Hd.
Defined.

(** *** The union over a target set *)




End GraphUse.

(** * Path diversity (src/social/math/connectedness.ts) *)
Module Diversity.
Import Connectedness.
Local Open Scope Q_scope.

(** No interior node of [pathA] (a node that is neither its first nor its
    last) occurs in [pathB]. *)
Definition interiorApart (pathA pathB : WeightedPath) : Prop :=
  ∀ (i : nat) (x : string),
    wp_path pathA !! i = Some x →
    (0 < i)%nat → (S i < length (wp_path pathA))%nat →
    x ∉ wp_path pathB.

(** ** Properties *)

Lemma filterIndexed_nil {A : Type} (f : A -> nat -> bool) (xs : list A) :
  ∀ i0, (∀ i x, xs !! i = Some x → f x (i0 + i)%nat = false) →
        filterIndexed f i0 xs = [].
Proof.
  induction xs as [|x xs IH]; intros i0 Hf; cbn [filterIndexed]; [done|].
  rewrite <- (Nat.add_0_r i0) at 1. rewrite (Hf 0%nat x) by done.
  apply IH. intros i y Hy. rewrite Nat.add_succ_l, <- Nat.add_succ_r.
  by apply Hf.
Qed.

Lemma overlapNodes_apart (pathA pathB : WeightedPath) :
  interiorApart pathA pathB →
  overlapNodes (wp_path pathA) (wp_path pathB) = [].
Proof.
  intros Hapart. unfold overlapNodes. apply filterIndexed_nil.
  intros i x Hx. cbn [Nat.add].
  destruct (0 <? i)%nat eqn:H0; [|done]. apply Nat.ltb_lt in H0.
  destruct (Z.of_nat i <? Z.of_nat (length (wp_path pathA)) - 1)%Z eqn:H1;
    [|done].
  apply Z.ltb_lt in H1. cbn [andb]. apply bool_decide_eq_false.
  apply (Hapart i x Hx H0). lia.
Qed.

Lemma pairOverlap_apart (pathA : WeightedPath) (later : list WeightedPath)
    (a : Q) :
  Forall (interiorApart pathA) later →
  fold_left (pairOverlapStep pathA) later a == a.
Proof.
  intros Hl. revert a. induction Hl as [|pathB later HB _ IH]; intros a;
    cbn [fold_left]; [reflexivity|].
  rewrite IH. unfold pairOverlapStep.
  rewrite (overlapNodes_apart _ _ HB). cbn [length].
  unfold inject_nat at 1. cbn. unfold Qdiv. ring.
Qed.

Lemma totalOverlapFrom_apart (wps : list WeightedPath) (a : Q) :
  ForallOrdPairs interiorApart wps → totalOverlapFrom a wps == a.
Proof.
  intros Hw. revert a. induction Hw as [|pathA later HA _ IH]; intros a;
    cbn [totalOverlapFrom]; [reflexivity|].
  rewrite IH, (pairOverlap_apart pathA later 0 HA). ring.
Qed.

(** X8. Paths that share no interior node are fully diverse: when no
    interior node of a path occurs in a later path of the list,
    [calculatePathDiversity] is 1. *)
Theorem disjoint_paths_are_fully_diverse (weightedPaths : list WeightedPath) :
  ForallOrdPairs interiorApart weightedPaths →
  calculatePathDiversity weightedPaths == 1.
Proof.
  intros Hw. unfold calculatePathDiversity.
  destruct (length weightedPaths <=? 1)%nat; [reflexivity|]. cbv zeta.
  pose proof (totalOverlapFrom_apart weightedPaths 0 Hw) as Hzero.
  set (ratio := if Qlt_le_dec 0 _ then _ else 0).
  assert (Hratio : ratio == 0).
  { subst ratio. destruct (Qlt_le_dec 0 _) as [_|_]; [|reflexivity].
    rewrite Hzero. unfold Qdiv. apply Qmult_0_l. }
  rewrite Q.max_r by lra. lra.
Qed.

Lemma disjoint_paths_are_fully_diverse_witness :
  calculatePathDiversity
    (map (weigh (1 # 3))
       [["a"; "m"; "b"]; ["a"; "x"; "y"; "b"]; ["a"; "z"; "b"]]%string)
  == 1.
Proof.
  apply disjoint_paths_are_fully_diverse.
  repeat (constructor; [repeat constructor|]); try constructor;
    intros i x Hx Hi Hlen; cbn [weigh wp_path length] in *;
    do 4 (destruct i as [|i];
          [try lia; vm_compute in Hx; injection Hx as <-;
           apply (bool_decide_unpack _); by vm_compute|]);
    vm_compute in Hx; discriminate Hx.
Defined.
End Diversity.

(** * Batches of queries (src/social/math/connectedness.ts) *)
Module Batch.
Import Connectedness.
Local Open Scope string_scope.

(** [target: string | string[]]. *)
Inductive Target : Type :=
| one (target : string)
| several (targets : list string).

Record Query : Type := mkQuery {
  source : string;
  target : Target
}.

Definition queryKey (query : Query) : string :=
  match target query with
  | one t => source query ++ "->" ++ t
  | several ts => source query ++ "->[" ++ join ts ++ "]"
  end.

Definition answer (sponsorGraph : Graph) (options : ConnectednessOptions)
    (query : Query) : ConnectednessResult :=
  match target query with
  | one t =>
      calculatePairwiseConnectedness (source query) t sponsorGraph options
  | several ts =>
      calculateUnionConnectedness (source query) ts sponsorGraph options
  end.

Definition batchCalculateConnectedness (queries : list Query)
    (sponsorGraph : Graph) (options : ConnectednessOptions)
  : gmap string ConnectednessResult :=
  fold_left
    (fun results query =>
       let key := queryKey query in
       let result := answer sponsorGraph options query in
       <[ key := result ]> results)
    queries ∅.

(** ** Properties *)

Lemma batch_fold_lookup (sponsorGraph : Graph) (options : ConnectednessOptions)
    (queries : list Query) :
  ∀ (results : gmap string ConnectednessResult) (key : string),
    fold_left
      (fun results query =>
         <[ queryKey query := answer sponsorGraph options query ]> results)
      queries results !! key
    = match last (filter (λ q, queryKey q = key) queries) with
      | Some q => Some (answer sponsorGraph options q)
      | None => results !! key
      end.
Proof.
  induction queries as [|q queries IH]; intros results key; cbn [fold_left].
  - done.
  - rewrite IH, filter_cons.
    destruct (decide (queryKey q = key)) as [Hq|Hq].
    + destruct (filter _ queries) as [|q' l] eqn:E.
      * cbn. by rewrite <- Hq, lookup_insert_eq.
      * change (last (q :: q' :: l)) with (last (q' :: l)).
        destruct (last (q' :: l)) eqn:E2; [done|].
        by apply last_None in E2.
    + destruct (last _); [done|]. by rewrite lookup_insert_ne.
Qed.

(** X9. The batch keeps one result per key, that of the last query with
    the key: under every key the result map holds the pairwise or union
    result of the last query whose key it is, and nothing when no query has
    the key. *)
Theorem batch_results_by_key (queries : list Query) (sponsorGraph : Graph)
    (options : ConnectednessOptions) (key : string) :
  batchCalculateConnectedness queries sponsorGraph options !! key
  = answer sponsorGraph options
    <$> last (filter (λ q, queryKey q = key) queries).
Proof.
  unfold batchCalculateConnectedness. cbv zeta. rewrite batch_fold_lookup.
  destruct (last _); [done|]. apply lookup_empty.
Qed.

End Batch.

(** * Tiers, decay and aggregation (src/social/math/safety_tiers.ts) *)
Module Tiers.
Import SafetyTiers.
#[local] Existing Instance FrictionType_eq_dec.
Local Open Scope R_scope.
Local Open Scope string_scope.

(** The numeric value of the enum member. *)
Definition tierRank (t : SafetyTier) : nat :=
  match t with
  | NONE => 0
  | LOW => 1
  | MEDIUM => 2
  | HIGH => 3
  | CRITICAL => 4
  end.



(** [if (cond) errors.push(message)]. *)
Definition pushIf {P Q : Prop} (cond : {P} + {Q}) (message : string)
    (errors : list string) : list string :=
  if cond then (errors ++ [message])%list else errors.

Definition validateSafetyConfig (options : SafetyTierOptions) : list string :=
  let errors : list string := [] in
  let errors :=
    match opt_tierThresholds options with
    | Some t =>
        let errors :=
          pushIf (Rge_dec (low t) (medium t))
            "Low threshold must be less than medium" errors in
        let errors :=
          pushIf (Rge_dec (medium t) (high t))
            "Medium threshold must be less than high" errors in
        let errors :=
          pushIf (Rge_dec (high t) (critical t))
            "High threshold must be less than critical" errors in
        let errors :=
          pushIf (Rgt_dec (critical t) 1)
            "Critical threshold cannot exceed 1.0" errors in
        pushIf (Rlt_dec (low t) 0)
          "Low threshold cannot be negative" errors
    | None => errors
    end in
  let errors :=
    match opt_decayHalfLife options with
    | Some h =>
        pushIf (Rle_dec h 0) "Decay half-life must be positive" errors
    | None => errors
    end in
  match opt_maxImpactScore options with
  | Some m =>
      pushIf (Rgt_dec m 1) "Max impact score cannot exceed 1.0" errors
  | None => errors
  end.

(** [Math.max(x, ...xs)] on a non-empty argument list. *)
Definition Math_max (x : R) (xs : list R) : R := fold_left Rmax xs x.



(** The thresholds rise from [low] to [critical]. *)
Definition ordered (t : TierThresholds) : Prop :=
  low t <= medium t ∧ medium t <= high t ∧ high t <= critical t.

(** [Math.max(0, Math.min(1, x))], the bound put on each input. *)
Definition bounded (x : R) : R := Rmax 0 (Rmin 1 x).

(** The result for a reporter below the connectedness floor. *)
Definition inert : SafetyTierResult :=
  {| impactScore := 0; tier := NONE; frictions := []; decayTimer := None;
     appealable := false |}.

(** What the configuration check looks for. *)
Definition wellFormed (options : SafetyTierOptions) : Prop :=
  (∀ t, opt_tierThresholds options = Some t →
        0 <= low t ∧ low t < medium t ∧ medium t < high t
        ∧ high t < critical t ∧ critical t <= 1)
  ∧ (∀ h, opt_decayHalfLife options = Some h → 0 < h)
  ∧ (∀ m, opt_maxImpactScore options = Some m → m <= 1).

(** ** Properties *)

Lemma tierRank_determineTier_le (thresholds : TierThresholds) (i1 i2 : R) :
  ordered thresholds → i1 <= i2 →
  (tierRank (determineTier i1 thresholds)
   <= tierRank (determineTier i2 thresholds))%nat.
Proof.
  intros (H1 & H2 & H3) Hi. unfold determineTier.
  repeat destruct (Rge_dec _ _); cbn [tierRank]; try lia; lra.
Qed.

Lemma default_thresholds_ordered : ordered (tierThresholds DEFAULT_OPTIONS).
Proof. unfold ordered. cbn. lra. Qed.

Lemma determineFrictions_subseteq (t1 t2 : SafetyTier) (i1 i2 : R) :
  (tierRank t1 <= tierRank t2)%nat →
  determineFrictions t1 i1 ⊆ determineFrictions t2 i2.
Proof.
  destruct t1, t2; cbn [tierRank]; intros Hle; try lia;
    apply (bool_decide_unpack _); by vm_compute.
Qed.

(** X10. Friction grows with impact: with thresholds that rise from low
    to critical, as the defaults do, a higher impact score never gets a
    lower tier, and the frictions of the lower score are among those of the
    higher.  A friction list has no duplicate and is empty for tier [NONE]
    only. *)
Theorem tier_and_frictions_grow_with_impact (thresholds : TierThresholds)
    (i1 i2 : R) :
  ordered thresholds → i1 <= i2 →
  let t1 := determineTier i1 thresholds in
  let t2 := determineTier i2 thresholds in
  (tierRank t1 <= tierRank t2)%nat
  ∧ determineFrictions t1 i1 ⊆ determineFrictions t2 i2
  ∧ NoDup (determineFrictions t2 i2)
  ∧ (determineFrictions t1 i1 = [] ↔ t1 = NONE).
Proof.
  intros Hordered Hle t1 t2.
  assert (Hrank : (tierRank t1 <= tierRank t2)%nat)
    by (by apply tierRank_determineTier_le).
  split; [exact Hrank|]. split; [by apply determineFrictions_subseteq|].
  split.
  - destruct t2; apply (bool_decide_unpack _); by vm_compute.
  - destruct t1; split; intros H; try done; by vm_compute in H.
Qed.

Lemma tier_and_frictions_grow_with_impact_witness :
  determineFrictions (determineTier 0.4 (tierThresholds DEFAULT_OPTIONS)) 0.4
  ⊆ determineFrictions (determineTier 0.9 (tierThresholds DEFAULT_OPTIONS))
      0.9.
Proof.
  apply tier_and_frictions_grow_with_impact;
    [exact default_thresholds_ordered|lra].
Defined.

Lemma bounded_range (x : R) : 0 <= bounded x <= 1.
Proof.
  unfold bounded, Rmax, Rmin.
  destruct (Rle_dec 1 x); destruct (Rle_dec 0 _); lra.
Qed.

(** X11. A report from below the connectedness floor has no effect: the
    result is the inert record (impact 0, tier NONE, no friction, no timer,
    not appealable).  Otherwise the impact is the product of the three
    bounded inputs capped at the configured maximum, so it exceeds neither
    an input nor the cap, and the result is appealable exactly from tier
    MEDIUM on. *)
Theorem calculateSafetyTier_bounded_impact (now : Z)
    (connectedness severity confidence : R) (options : SafetyTierOptions) :
  let opts := mergeOptions DEFAULT_OPTIONS options in
  let r := calculateSafetyTier now connectedness severity confidence options in
  (bounded connectedness < minConnectednessForImpact opts → r = inert)
  ∧ (minConnectednessForImpact opts <= bounded connectedness →
     impactScore r <= bounded connectedness
     ∧ impactScore r <= bounded severity
     ∧ impactScore r <= bounded confidence
     ∧ impactScore r <= maxImpactScore opts
     ∧ (0 <= maxImpactScore opts → 0 <= impactScore r)
     ∧ (appealable r = true ↔ (2 <= tierRank (tier r))%nat)).
Proof.
  intros opts r. subst r opts. unfold calculateSafetyTier. cbv zeta.
  generalize (mergeOptions DEFAULT_OPTIONS options). intros opts.
  fold (bounded connectedness).
  fold (bounded severity). fold (bounded confidence).
  pose proof (bounded_range connectedness) as Hc.
  pose proof (bounded_range severity) as Hs.
  pose proof (bounded_range confidence) as Hk.
  destruct (Rlt_dec (bounded connectedness) (minConnectednessForImpact opts))
    as [Hlow|Hhigh].
  - split; [done|]. intros Hfloor. exfalso. lra.
  - split; [intros Hlow; exfalso; lra|]. intros _.
    cbn [impactScore tier appealable].
    set (raw := bounded connectedness * bounded severity * bounded confidence).
    assert (Hraw : 0 <= raw
                   ∧ raw <= bounded connectedness ∧ raw <= bounded severity
                   ∧ raw <= bounded confidence).
    { subst raw.
      generalize dependent (bounded connectedness).
      generalize dependent (bounded severity).
      generalize dependent (bounded confidence).
      intros c Hc s Hs a Ha _.
      assert (0 <= a * s) by nra. assert (a * s <= a) by nra.
      assert (a * s <= s) by nra. assert (a * s <= 1) by nra.
      repeat split; nra. }
    pose proof (Rmin_l raw (maxImpactScore opts)).
    pose proof (Rmin_r raw (maxImpactScore opts)).
    repeat split; try lra.
    + intros Hmax. apply Rmin_glb; lra.
    + destruct (determineTier _ _); cbn; intros; (lia || done).
    + destruct (determineTier _ _); cbn; intros; (lia || done).
Qed.

Lemma calculateSafetyTier_bounded_impact_witness :
  calculateSafetyTier 0 0.01 1 1 {| opt_tierThresholds := None;
    opt_decayHalfLife := None; opt_enableDecay := None;
    opt_maxImpactScore := None; opt_minConnectednessForImpact := None |}
  = inert.
Proof.
  apply calculateSafetyTier_bounded_impact.
  cbn. unfold bounded, Rmax, Rmin.
  destruct (Rle_dec 1 0.01); destruct (Rle_dec 0 _); lra.
Defined.




(** X13. [validateSafetyConfig] reports no error exactly for the
    configurations in which the given thresholds lie in [0, 1] and rise
    strictly, the given half-life is positive and the given impact cap is at
    most 1; a field left out is not checked. *)
Theorem validateSafetyConfig_accepts_wellFormed (options : SafetyTierOptions) :
  validateSafetyConfig options = [] ↔ wellFormed options.
Proof.
  unfold validateSafetyConfig, wellFormed, pushIf.
  destruct options as [[t|] [h|] e [m|] c]; cbn [opt_tierThresholds
    opt_decayHalfLife opt_maxImpactScore];
    repeat match goal with
           | |- context [Rge_dec ?a ?b] => destruct (Rge_dec a b)
           | |- context [Rgt_dec ?a ?b] => destruct (Rgt_dec a b)
           | |- context [Rlt_dec ?a ?b] => destruct (Rlt_dec a b)
           | |- context [Rle_dec ?a ?b] => destruct (Rle_dec a b)
           end;
    cbn [app];
    (split;
     [ intros Herr; try discriminate Herr;
       (split; [|split]); intros x Hx; try discriminate Hx;
       injection Hx as <-; repeat split; lra
     | intros (Ht & Hh & Hm); try reflexivity; exfalso;
       try (specialize (Ht _ eq_refl)); try (specialize (Hh _ eq_refl));
       try (specialize (Hm _ eq_refl)); lra ]).
Qed.

Lemma half_pow_bounds (x : R) : 0 <= x → 0 < Math_pow 0.5 x <= 1.
Proof.
  intros Hx. unfold Math_pow, Rpower. split; [apply exp_pos|].
  rewrite <- exp_0.
  assert (Hln : ln 0.5 < 0) by (rewrite <- ln_1; apply ln_increasing; lra).
  destruct (Req_dec x 0) as [->|Hne].
  - rewrite Rmult_0_l. lra.
  - left. apply exp_increasing. nra.
Qed.

Lemma hoursElapsed_nonneg (now : Z) (timer : DecayTimer) :
  (startTime timer <= now)%Z → 0 <= hoursElapsed now timer.
Proof.
  intros Hnow. unfold hoursElapsed.
  assert (0 <= IZR (now - startTime timer)) by (apply IZR_le; lia).
  apply Rmult_le_pos; [done|]. left. apply Rinv_0_lt_compat. lra.
Qed.

(** X14. Decay only ever relaxes: for a positive half-life and a
    non-negative initial impact, from the start time on the decayed impact
    stays between 0 and the initial impact and falls as time passes, and
    with it the tier never rises and no friction is added. *)
Theorem decay_never_raises (result : SafetyTierResult) (timer : DecayTimer)
    (now1 now2 : Z) :
  decayTimer result = Some timer →
  0 < halfLifeHours timer →
  0 <= initialImpact timer →
  (startTime timer <= now1 <= now2)%Z →
  let r1 := updateDecayedImpact now1 result in
  let r2 := updateDecayedImpact now2 result in
  0 <= impactScore r2 <= impactScore r1
  ∧ impactScore r1 <= initialImpact timer
  ∧ (tierRank (tier r2) <= tierRank (tier r1))%nat
  ∧ frictions r2 ⊆ frictions r1.
Proof.
  intros Htimer Hhalf Himpact [Hstart Hnow] r1 r2. subst r1 r2.
  unfold updateDecayedImpact. rewrite Htimer. cbn [impactScore tier frictions].
  set (e1 := hoursElapsed now1 timer / halfLifeHours timer).
  set (e2 := hoursElapsed now2 timer / halfLifeHours timer).
  assert (He1 : 0 <= e1).
  { apply Rmult_le_pos; [by apply hoursElapsed_nonneg|].
    left. by apply Rinv_0_lt_compat. }
  assert (He : e1 <= e2).
  { apply Rmult_le_compat_r; [left; by apply Rinv_0_lt_compat|].
    by apply hoursElapsed_monotone. }
  pose proof (half_pow_bounds e1 He1) as [Hp1 Hq1].
  pose proof (half_pow_bounds e2 ltac:(lra)) as [Hp2 Hq2].
  pose proof (half_pow_antitone e1 e2 He) as Hanti.
  assert (Hle : initialImpact timer * Math_pow 0.5 e2
                <= initialImpact timer * Math_pow 0.5 e1) by nra.
  assert (Hrank :
    (tierRank (determineTier (initialImpact timer * Math_pow 0.5 e2)
                 (tierThresholds DEFAULT_OPTIONS))
     <= tierRank (determineTier (initialImpact timer * Math_pow 0.5 e1)
                    (tierThresholds DEFAULT_OPTIONS)))%nat).
  { apply tierRank_determineTier_le; [apply default_thresholds_ordered|done]. }
  repeat split; try nra; [done|].
  by apply determineFrictions_subseteq.
Qed.

Lemma decay_never_raises_witness :
  (tierRank (tier (updateDecayedImpact 7200000 exampleResult))
   <= tierRank (tier (updateDecayedImpact 3600000 exampleResult)))%nat.
Proof.
  apply (decay_never_raises exampleResult
           {| halfLifeHours := 168; startTime := 0; initialImpact := 0.5;
              currentMultiplier := 1 |} 3600000 7200000).
  - reflexivity.
  - cbn. lra.
  - cbn. lra.
  - cbn. lia.
Defined.

(** X15. A fresh result read back at the instant it was made has its
    impact and appealability unchanged, for every configuration with a
    non-zero half-life; the whole record is unchanged when the tier
    thresholds were left at their defaults, which are the thresholds the
    update uses whatever the configuration was. *)
Theorem fresh_result_unchanged_at_start (now : Z)
    (connectedness severity confidence : R) (options : SafetyTierOptions) :
  decayHalfLife (mergeOptions DEFAULT_OPTIONS options) ≠ 0 →
  let r := calculateSafetyTier now connectedness severity confidence options in
  let r' := updateDecayedImpact now r in
  impactScore r' = impactScore r
  ∧ appealable r' = appealable r
  ∧ (opt_tierThresholds options = None → r' = r).
Proof.
  intros Hhalf r r'. subst r' r. unfold calculateSafetyTier. cbv zeta.
  assert (Hthr : opt_tierThresholds options = None →
                 tierThresholds (mergeOptions DEFAULT_OPTIONS options)
                 = tierThresholds DEFAULT_OPTIONS).
  { intros Hnone. unfold mergeOptions. cbn [tierThresholds]. by rewrite Hnone. }
  revert Hhalf Hthr.
  generalize (mergeOptions DEFAULT_OPTIONS options). intros opts Hhalf Hthr.
  destruct (Rlt_dec _ _); [done|].
  destruct (enableDecay opts); [|done].
  unfold updateDecayedImpact.
  cbn [decayTimer impactScore appealable halfLifeHours startTime
       initialImpact hoursElapsed].
  unfold hoursElapsed. cbn [startTime]. rewrite Z.sub_diag.
  replace (0 / (1000 * 60 * 60) / decayHalfLife opts) with 0
    by (field; lra).
  assert (Hone : Math_pow 0.5 0 = 1) by (apply Rpower_O; lra).
  rewrite Hone, Rmult_1_r.
  split; [done|]. split; [done|].
  intros Hnone. by rewrite (Hthr Hnone).
Qed.

Lemma fresh_result_unchanged_at_start_witness :
  impactScore
    (updateDecayedImpact 5
       (calculateSafetyTier 5 1 1 1
          {| opt_tierThresholds := None; opt_decayHalfLife := None;
             opt_enableDecay := None; opt_maxImpactScore := None;
             opt_minConnectednessForImpact := None |}))
  = impactScore
      (calculateSafetyTier 5 1 1 1
         {| opt_tierThresholds := None; opt_decayHalfLife := None;
            opt_enableDecay := None; opt_maxImpactScore := None;
            opt_minConnectednessForImpact := None |}).
Proof.
  apply fresh_result_unchanged_at_start. cbn. lra.
Defined.








End Tiers.

(** * The credit ledger (src/social/credit_system/math/credit_flow.ts) *)
Module Ledger.
Import CreditFlow.
Local Open Scope R_scope.
Local Open Scope string_scope.


(** The events of a batch that validation accepts. *)
Definition accepted (params : CreditParameters) (events : list EarnEvent)
  : list EarnEvent :=
  List.filter (fun event => valid (validateEarnEvent event params)) events.

(** The new balance of an update. *)
Definition newBalance (balance : CreditBalance) (earn_events : list EarnEvent)
    (spend_events : list SpendEvent) (current_epoch epoch_duration_hours : R)
    (params : CreditParameters) : R :=
  CreditFlow.balance
    (updateCreditBalance balance earn_events spend_events current_epoch
       epoch_duration_hours params).

(** ** Properties *)

Lemma award_nonneg (event : EarnEvent) (params : CreditParameters) :
  0 <= calculateCreditAward event params.
Proof. unfold calculateCreditAward. cbv zeta. apply Rmax_l. Qed.

Lemma sigmoid_lt_1 (x : R) : sigmoid x < 1.
Proof.
  unfold sigmoid. pose proof (exp_pos (- x)).
  apply Rmult_lt_reg_r with (1 + exp (- x)); [lra|].
  unfold Rdiv. rewrite Rmult_assoc, Rinv_l by lra. lra.
Qed.


(** X17. With a branch average and a cap that are not both 0, a
    non-negative base award and non-negative multipliers that add up to at
    most 1 (the defaults are 0.6 and 0.4), an award is never negative and
    never above the base award, whatever the other fields of the event. *)
Theorem award_within_budget (event : EarnEvent) (params : CreditParameters) :
  scarcityDefined event params →
  0 <= base_award (action event) →
  0 <= beta0 params → 0 <= beta1 params → beta0 params + beta1 params <= 1 →
  0 <= calculateCreditAward event params <= base_award (action event).
Proof.
  intros _ Hw Hb0 Hb1 Hsum. split; [apply award_nonneg|].
  unfold calculateCreditAward. cbv zeta.
  pose proof (clamp01_bounds (evidence_confidence event)) as Hc.
  pose proof (clamp01_bounds (diversity_factor event)) as Hd.
  pose proof (clamp01_bounds (proximity_score event)) as Hp.
  pose proof (sigmoid_pos
    (theta params - branch_avg_credits event / C_max params)) as Hs.
  pose proof (sigmoid_lt_1
    (theta params - branch_avg_credits event / C_max params)) as Hs1.
  set (s := sigmoid _) in *.
  set (c := clamp01 (evidence_confidence event)) in *.
  set (d := clamp01 (diversity_factor event)) in *.
  set (q := clamp01 (proximity_score event)) in *.
  set (w := base_award (action event)) in *.
  assert (Hcd : 0 <= c * d <= 1) by nra.
  assert (Hcds : 0 <= c * d * s <= 1) by nra.
  assert (Hpf : 0 <= beta0 params + beta1 params * q <= 1) by nra.
  assert (Hwpf : 0 <= w * (beta0 params + beta1 params * q) <= w) by nra.
  replace (w * c * d * (beta0 params + beta1 params * q) * s)
    with (w * (beta0 params + beta1 params * q) * (c * d * s)) by ring.
  apply Rmax_lub; nra.
Qed.

(** X17 at a concrete input: the confirmed mediation, base award 3, earns
    1.2 under the default parameters. *)
Lemma award_within_budget_witness :
  0 <= calculateCreditAward confirmedEvent getDefaultCreditParameters
    <= base_award (action confirmedEvent)
  ∧ calculateCreditAward confirmedEvent getDefaultCreditParameters = 1.2.
Proof.
  split.
  - apply award_within_budget.
    + left. cbn [C_max getDefaultCreditParameters]. lra.
    + cbn. lra.
    + cbn. lra.
    + cbn. lra.
    + cbn. lra.
  - change confirmedEvent with (withProximity confirmedEvent 0.5).
    rewrite confirmedEvent_award by lra. lra.
Defined.



Lemma pow_fraction_le_1 (base exponent : R) :
  0 < base <= 1 → 0 <= exponent → 0 < Math_pow base exponent <= 1.
Proof.
  intros [Hpos Hle] Hexp. unfold Math_pow, Rpower. split; [apply exp_pos|].
  rewrite <- exp_0.
  assert (Hln : ln base <= 0).
  { rewrite <- ln_1. destruct Hle as [Hlt| ->]; [|lra].
    left. by apply ln_increasing. }
  destruct (Req_dec (exponent * ln base) 0) as [->|Hne]; [lra|].
  left. apply exp_increasing. nra.
Qed.

(** X19. Decay never raises a balance: with a decay base strictly between
    0 and 1, a positive half-life and epoch duration, and a current epoch
    not before the last update, a non-negative balance decays to a value
    between 0 and itself, and no higher than a non-negative cap. *)
Theorem applyCreditDecay_shrinks (balance : CreditBalance)
    (current_epoch epoch_duration_hours : R) (params : CreditParameters) :
  0 < delta params < 1 → 0 < H_c_days params →
  0 < epoch_duration_hours →
  last_updated_epoch balance <= current_epoch →
  0 <= CreditFlow.balance balance → 0 <= C_max params →
  let decayed :=
    applyCreditDecay balance current_epoch epoch_duration_hours params in
  0 <= decayed ∧ decayed <= CreditFlow.balance balance
  ∧ decayed <= C_max params.
Proof.
  intros Hdelta Hhalf Hduration Hepoch Hbalance Hcap. cbv zeta.
  unfold applyCreditDecay. cbv zeta.
  set (e := (current_epoch - last_updated_epoch balance)
            * epoch_duration_hours / 24 / H_c_days params).
  assert (He : 0 <= e).
  { subst e. apply Rmult_le_pos; [|left; by apply Rinv_0_lt_compat].
    apply Rmult_le_pos; [|lra]. apply Rmult_le_pos; lra. }
  pose proof (pow_fraction_le_1 (delta params) e ltac:(lra) He) as [Hp Hq].
  split; [apply Rmax_l|]. split.
  - apply Rmax_lub; [done|]. etrans; [apply Rmin_r|]. nra.
  - apply Rmax_lub; [done|apply Rmin_l].
Qed.

(** X19 at a concrete input: two epochs of a day each on a balance of 10
    under the default parameters. *)
Lemma applyCreditDecay_shrinks_witness :
  applyCreditDecay freshBalance 3 24 getDefaultCreditParameters
  <= CreditFlow.balance freshBalance.
Proof.
  apply applyCreditDecay_shrinks; cbn; lra.
Defined.

Lemma earnings_accepted (params : CreditParameters) (events : list EarnEvent)
    (sum : R) :
  fold_left
    (fun sum event =>
       let validation := validateEarnEvent event params in
       if negb (valid validation) then sum
       else sum + calculateCreditAward event params)
    (accepted params events) sum
  = fold_left
      (fun sum event =>
         let validation := validateEarnEvent event params in
         if negb (valid validation) then sum
         else sum + calculateCreditAward event params)
      events sum.
Proof.
  revert sum. induction events as [|event rest IH]; intros sum; [done|].
  cbn [accepted List.filter fold_left]. fold (accepted params rest).
  destruct (valid (validateEarnEvent event params)) eqn:Hvalid;
    cbn [fold_left negb]; [rewrite Hvalid|]; cbn [negb]; apply IH.
Qed.

(** X20. The new balance depends on the accepted earn events only: updating
    with a batch gives the balance that updating with its accepted events
    gives. *)
Theorem balance_counts_accepted_events_only (balance : CreditBalance)
    (earn_events : list EarnEvent) (spend_events : list SpendEvent)
    (current_epoch epoch_duration_hours : R) (params : CreditParameters) :
  newBalance balance earn_events spend_events current_epoch
    epoch_duration_hours params
  = newBalance balance (accepted params earn_events) spend_events
      current_epoch epoch_duration_hours params.
Proof.
  unfold newBalance, updateCreditBalance. cbn [CreditFlow.balance].
  by rewrite earnings_accepted.
Qed.

Lemma earnings_from (params : CreditParameters) (events : list EarnEvent)
    (sum : R) :
  sum <= fold_left
           (fun sum event =>
              let validation := validateEarnEvent event params in
              if negb (valid validation) then sum
              else sum + calculateCreditAward event params)
           events sum.
Proof.
  revert sum. induction events as [|event rest IH]; intros sum; [cbn; lra|].
  cbn [fold_left]. cbv zeta.
  destruct (negb (valid (validateEarnEvent event params))); [apply IH|].
  pose proof (award_nonneg event params).
  etrans; [|apply IH]. lra.
Qed.

Lemma spends_from (events : list SpendEvent) (sum : R) :
  (∀ event, event ∈ events → 0 <= amount event) →
  sum <= fold_left (fun sum event => sum + amount event) events sum.
Proof.
  revert sum. induction events as [|event rest IH]; intros sum Hpos;
    [cbn; lra|].
  cbn [fold_left].
  assert (0 <= amount event) by (apply Hpos, elem_of_cons; by left).
  etrans; [|apply IH]; [lra|].
  intros e He. apply Hpos, elem_of_cons. by right.
Qed.

Lemma cap_monotone (cap x y : R) :
  x <= y → Rmax 0 (Rmin cap x) <= Rmax 0 (Rmin cap y).
Proof.
  intros Hxy. apply Rle_max_compat_l. by apply Rle_min_compat_l.
Qed.

(** X21. Under parameters in range (a decay base strictly between 0 and 1,
    a positive half-life, epoch duration and cap, non-negative multipliers
    that add up to at most 1) and from a non-negative balance not updated
    after the current epoch, earning only raises and spending only lowers:
    the balance after a batch of earn events lies between the merely
    decayed balance and the cap, and the balance after spend events of
    non-negative amounts lies between 0 and the merely decayed balance. *)
Theorem update_moves_balance_the_right_way (balance : CreditBalance)
    (earn_events : list EarnEvent) (spend_events : list SpendEvent)
    (current_epoch epoch_duration_hours : R) (params : CreditParameters) :
  0 < delta params < 1 → 0 < H_c_days params → 0 < epoch_duration_hours →
  last_updated_epoch balance <= current_epoch →
  0 <= CreditFlow.balance balance → 0 < C_max params →
  0 <= beta0 params → 0 <= beta1 params → beta0 params + beta1 params <= 1 →
  (∀ event, event ∈ spend_events → 0 <= amount event) →
  let plain := newBalance balance [] [] current_epoch epoch_duration_hours
                 params in
  plain <= newBalance balance earn_events [] current_epoch
             epoch_duration_hours params <= C_max params
  ∧ 0 <= newBalance balance [] spend_events current_epoch
           epoch_duration_hours params <= plain.
Proof.
  intros _ _ _ _ _ Hcap _ _ _ Hpos. cbv zeta.
  unfold newBalance, updateCreditBalance. cbn [CreditFlow.balance].
  cbn [fold_left].
  pose proof (earnings_from params earn_events 0) as Hearn.
  pose proof (spends_from spend_events 0 Hpos) as Hspend.
  split; split.
  - apply cap_monotone. lra.
  - apply Rmax_lub; [lra|apply Rmin_l].
  - apply Rmax_l.
  - apply cap_monotone. lra.
Qed.

(** X21 at a concrete input: the confirmed mediation raises the balance of
    [freshBalance] above its merely decayed value. *)
Lemma update_moves_balance_the_right_way_witness :
  newBalance freshBalance [] [] 3 24 getDefaultCreditParameters
  <= newBalance freshBalance [confirmedEvent] [] 3 24
       getDefaultCreditParameters
  <= C_max getDefaultCreditParameters.
Proof.
  apply (update_moves_balance_the_right_way freshBalance [confirmedEvent] []
           3 24 getDefaultCreditParameters); try (cbn; lra).
  intros event Hevent. by apply elem_of_nil in Hevent.
Defined.


End Ledger.

(** * Branch votes (src/social/credit_system/math/credit_flow.ts) *)
Module Voting.
Local Open Scope Q_scope.

(** [xs.slice(start, finish)]: a negative index counts from the end, and
    both are cut to the length. *)
Definition slice {A : Type} (xs : list A) (start finish : Z) : list A :=
  let len := Z.of_nat (length xs) in
  let from :=
    if (start <? 0)%Z then Z.max (len + start) 0 else Z.min start len in
  let to :=
    if (finish <? 0)%Z then Z.max (len + finish) 0 else Z.min finish len in
  take (Z.to_nat (to - from)) (drop (Z.to_nat from) xs).

(** [sort((a, b) => a - b)] is stable: a vote goes behind the votes that
    are not greater. *)
Fixpoint insertVote (vote : Q) (sorted : list Q) : list Q :=
  match sorted with
  | [] => [vote]
  | v :: rest =>
      if Qle_bool v vote then v :: insertVote vote rest
      else vote :: v :: rest
  end.

Definition sortVotes (votes : list Q) : list Q :=
  fold_left (fun sorted vote => insertVote vote sorted) votes [].

Definition DEFAULT_TRIM : Q := 1 # 10.

(** The index [Math.floor(sorted.length / 2)] lies inside [sorted], which
    has at least two votes where it is read.  Over the exact rationals: the
    source rounds the product [votes.length * trim_percent], the sum and
    the quotient. *)
Definition calculateTrimmedMean (votes : list Q) (trim_percent : Q) : Q :=
  match votes with
  | [] => 0
  | [vote] => vote
  | _ =>
      let sorted := sortVotes votes in
      let trim_count :=
        Qfloor (inject_Z (Z.of_nat (length votes)) * trim_percent) in
      let trimmed :=
        slice sorted trim_count (Z.of_nat (length sorted) - trim_count) in
      if (length trimmed =? 0)%nat then
        nth (Z.to_nat (Z.of_nat (length sorted) / 2)) sorted 0
      else
        let sum := fold_left Qplus trimmed 0 in
        sum / inject_Z (Z.of_nat (length trimmed))
  end.

(** The plain mean of a non-empty list of votes. *)
Definition mean (votes : list Q) : Q :=
  fold_left Qplus votes 0 / inject_Z (Z.of_nat (length votes)).

(** ** Properties *)

Lemma insertVote_Permutation (vote : Q) (sorted : list Q) :
  Permutation (insertVote vote sorted) (vote :: sorted).
Proof.
  induction sorted as [|v rest IH]; cbn [insertVote]; [done|].
  destruct (Qle_bool v vote); [|done].
  rewrite IH. apply perm_swap.
Qed.

Lemma sortVotes_from (votes sorted : list Q) :
  Permutation (fold_left (fun sorted vote => insertVote vote sorted) votes
                 sorted)
    (votes ++ sorted).
Proof.
  revert sorted. induction votes as [|v rest IH]; intros sorted; [done|].
  cbn [fold_left]. rewrite IH, insertVote_Permutation.
  symmetry. apply Permutation_middle.
Qed.

Lemma sortVotes_Permutation (votes : list Q) :
  Permutation (sortVotes votes) votes.
Proof.
  unfold sortVotes. rewrite sortVotes_from. by rewrite app_nil_r.
Qed.

Lemma slice_subseteq {A : Type} (xs : list A) (start finish : Z) :
  slice xs start finish ⊆ xs.
Proof.
  unfold slice. cbv zeta. etrans; [apply subseteq_take|apply subseteq_drop].
Qed.

Lemma sum_from (votes : list Q) (sum : Q) :
  fold_left Qplus votes sum == sum + fold_left Qplus votes 0.
Proof.
  revert sum. induction votes as [|v rest IH]; intros sum; cbn [fold_left].
  - ring.
  - rewrite IH, (IH (0 + v)). ring.
Qed.

Lemma sum_between (a b : Q) (votes : list Q) :
  (∀ v, v ∈ votes → a <= v <= b) →
  a * inject_Z (Z.of_nat (length votes)) <= fold_left Qplus votes 0
  ∧ fold_left Qplus votes 0 <= b * inject_Z (Z.of_nat (length votes)).
Proof.
  induction votes as [|v rest IH]; intros Hall.
  - cbn. split; rewrite Qmult_0_r; apply Qle_refl.
  - destruct IH as [IHa IHb].
    { intros w Hw. apply Hall, elem_of_cons. by right. }
    destruct (Hall v) as [Ha Hb]; [apply elem_of_cons; by left|].
    cbn [fold_left length]. rewrite sum_from.
    rewrite Nat2Z.inj_succ, <- Z.add_1_r, inject_Z_plus.
    change (inject_Z 1) with 1.
    split; lra.
Qed.

Lemma mean_between (a b : Q) (votes : list Q) :
  votes ≠ [] → (∀ v, v ∈ votes → a <= v <= b) →
  a <= mean votes <= b.
Proof.
  intros Hne Hall. unfold mean.
  destruct (sum_between a b votes Hall) as [Ha Hb].
  assert (Hn : 0 < inject_Z (Z.of_nat (length votes))).
  { destruct votes; [done|]. cbn [length].
    change 0 with (inject_Z 0). rewrite <- Zlt_Qlt. lia. }
  split.
  - by apply Qle_shift_div_l.
  - by apply Qle_shift_div_r.
Qed.

Lemma trimmed_mean_between (votes : list Q) (trim_percent a b : Q) :
  votes ≠ [] → (∀ v, v ∈ votes → a <= v <= b) →
  a <= calculateTrimmedMean votes trim_percent <= b.
Proof.
  intros Hne Hall. unfold calculateTrimmedMean.
  destruct votes as [|v1 [|v2 rest]]; [done| |].
  - apply Hall, elem_of_cons. by left.
  - cbv zeta. set (votes := v1 :: v2 :: rest) in *.
    pose proof (sortVotes_Permutation votes) as Hperm.
    set (sorted := sortVotes votes) in *.
    assert (Hsorted : ∀ v, v ∈ sorted → a <= v <= b).
    { intros v Hv. apply Hall. by rewrite <- Hperm. }
    set (trimmed := slice sorted _ _).
    destruct (Nat.eqb_spec (length trimmed) 0) as [Hempty|Hfull].
    + apply Hsorted, list_elem_of_In, nth_In.
      assert (Hlen : length sorted = length votes)
        by (by apply Permutation_length).
      rewrite Hlen. subst votes. cbn [length].
      apply Nat2Z.inj_lt. rewrite Z2Nat.id by (apply Z.div_pos; lia).
      apply Z.div_lt; lia.
    + apply (mean_between a b trimmed).
      * intros Hnil. by rewrite Hnil in Hfull.
      * intros v Hv. apply Hsorted. revert Hv. apply slice_subseteq.
Qed.

(** X24. For every trim percentage the trimmed mean of votes between 0 and
    1 lies between 0 and 1, and the trimmed mean of stances between -1 and
    1 lies between -1 and 1. *)
Theorem trimmed_mean_within_unit_range (votes : list Q) (trim_percent : Q) :
  ((∀ v, v ∈ votes → 0 <= v <= 1) →
   0 <= calculateTrimmedMean votes trim_percent <= 1)
  ∧ ((∀ v, v ∈ votes → - (1) <= v <= 1) →
     - (1) <= calculateTrimmedMean votes trim_percent <= 1).
Proof.
  destruct votes as [|v rest].
  - cbn. split; intros _; split; discriminate.
  - split; intros Hall; by apply trimmed_mean_between.
Qed.

(** X24 at a concrete input. *)
Lemma trimmed_mean_within_unit_range_witness :
  0 <= calculateTrimmedMean [1; 0; 1 # 2; 1; 1] DEFAULT_TRIM <= 1.
Proof.
  apply trimmed_mean_within_unit_range.
  intros v Hv. repeat (apply elem_of_cons in Hv as [->|Hv]; [lra|]).
  by apply elem_of_nil in Hv.
Defined.

(** X25. Nothing is trimmed from a small poll: when the number of votes
    times a non-negative trim percentage is at most 15/16, and so stays
    below 1 after rounding too (up to nine votes at the default 10%), the
    result is the mean of all votes, added up in ascending order. *)
Theorem small_poll_is_plain_mean (votes : list Q) (trim_percent : Q) :
  votes ≠ [] → 0 <= trim_percent →
  inject_Z (Z.of_nat (length votes)) * trim_percent <= 15 # 16 →
  calculateTrimmedMean votes trim_percent == mean (sortVotes votes).
Proof.
  intros Hne Hpos Hsmall. unfold calculateTrimmedMean.
  destruct votes as [|v1 [|v2 rest]]; [done| |].
  - unfold mean. cbn. field.
  - cbv zeta. set (votes := v1 :: v2 :: rest) in *.
    pose proof (sortVotes_Permutation votes) as Hperm.
    set (sorted := sortVotes votes) in *.
    assert (Hlen : length sorted = length votes)
      by (by apply Permutation_length).
    assert (Hfloor :
      Qfloor (inject_Z (Z.of_nat (length votes)) * trim_percent) = 0%Z).
    { assert (Hn : 0 <= inject_Z (Z.of_nat (length votes))).
      { change 0 with (inject_Z 0). rewrite <- Zle_Qle. lia. }
      pose proof (Qmult_le_0_compat _ _ Hn Hpos) as Hprod.
      set (x := inject_Z (Z.of_nat (length votes)) * trim_percent) in *.
      pose proof (Qfloor_resp_le 0 x Hprod) as Hlow.
      change (Qfloor 0) with 0%Z in Hlow.
      assert (Hhigh : (Qfloor x < 1)%Z).
      { rewrite Zlt_Qlt. eapply Qle_lt_trans; [apply Qfloor_le|].
        eapply Qle_lt_trans; [exact Hsmall|reflexivity]. }
      lia. }
    rewrite Hfloor, Z.sub_0_r.
    assert (Hslice : slice sorted 0 (Z.of_nat (length sorted)) = sorted).
    { unfold slice. cbv zeta. cbn [Z.ltb Z.compare].
      destruct (Z.of_nat (length sorted) <? 0)%Z eqn:Hneg; [lia|].
      rewrite Z.min_id, Z.min_l by lia.
      rewrite Z.sub_0_r, Nat2Z.id. cbn [Z.to_nat drop].
      apply firstn_all. }
    rewrite Hslice, Hlen.
    subst votes. cbn [length Nat.eqb]. unfold mean. rewrite Hlen.
    reflexivity.
Qed.

(** X25 at a concrete input: three votes at the default 10%. *)
Lemma small_poll_is_plain_mean_witness :
  calculateTrimmedMean [1; 0; 1 # 2] DEFAULT_TRIM
  == mean (sortVotes [1; 0; 1 # 2]).
Proof.
  apply small_poll_is_plain_mean; [done|done|].
  unfold DEFAULT_TRIM. cbn [length]. discriminate.
Defined.

End Voting.

(** * Escalation scores (src/unnamed/part_002) *)
Module Escalation.
Import CrossBranch.
Local Open Scope Q_scope.
Local Open Scope string_scope.

Definition calculateBranchConnectedness (branch : Branch)
    (subject_set : list string) (pairwise_connectedness : gmap string Q) : Q :=
  if (length (members branch) =? 0)%nat || (length subject_set =? 0)%nat
  then 0
  else
    let total_connectedness :=
      fold_left
        (fun total_connectedness member =>
           let product :=
             fold_left
               (fun product subject =>
                  let pairwise :=
                    getOr pairwise_connectedness (pairKey member subject) 0 in
                  product * (1 - Qmax 0 (Qmin 1 pairwise)))
               subject_set 1 in
           let member_union_connectedness := 1 - product in
           total_connectedness + member_union_connectedness)
        (members branch) 0 in
    total_connectedness / Connectedness.inject_nat (length (members branch)).

(** Every recorded pairwise connectedness is at most 1. *)
Definition atMostOne (connectedness_map : gmap string Q) : Prop :=
  ∀ key value, connectedness_map !! key = Some value → value <= 1.

(** The weights of the escalation score are not negative. *)
Definition nonnegativeWeights (params : EscalationParameters) : Prop :=
  0 <= gamma1 params ∧ 0 <= gamma2 params ∧ 0 <= gamma3 params.

(** ** Properties *)

Lemma clampQ_bounds (x : Q) : 0 <= Qmax 0 (Qmin 1 x) <= 1.
Proof.
  split; [apply Q.le_max_l|].
  apply Q.max_lub; [discriminate|apply Q.le_min_l].
Qed.

Lemma scale_le (g x y : Q) : 0 <= g → x <= y → g * x <= g * y.
Proof.
  intros Hg Hxy. rewrite !(Qmult_comm g). by apply Qmult_le_compat_r.
Qed.


Lemma memberConnectedness_from (connectedness_map : gmap string Q)
    (member : string) (subjects : list string) (start : Q) :
  let best :=
    fold_left
      (fun member_connectedness subject =>
         let pairwise := getOr connectedness_map (pairKey member subject) 0 in
         Qmax member_connectedness pairwise)
      subjects start in
  start <= best
  ∧ (atMostOne connectedness_map → start <= 1 → best <= 1).
Proof.
  cbv zeta. revert start.
  induction subjects as [|s rest IH]; intros start; cbn [fold_left].
  - split; [apply Qle_refl|done].
  - destruct (IH (Qmax start (getOr connectedness_map (pairKey member s) 0)))
      as [IH1 IH2].
    split.
    + eapply Qle_trans; [apply Q.le_max_l|exact IH1].
    + intros Hmap Hstart. apply IH2; [done|].
      apply Q.max_lub; [done|].
      unfold getOr. destruct (connectedness_map !! pairKey member s) eqn:Hk.
      * cbn. by eapply Hmap.
      * cbn. discriminate.
Qed.

Lemma memberConnectedness_bounds (connectedness_map : gmap string Q)
    (member : string) (subjects : list string) :
  0 <= memberConnectedness connectedness_map member subjects
  ∧ (atMostOne connectedness_map →
     memberConnectedness connectedness_map member subjects <= 1).
Proof.
  destruct (memberConnectedness_from connectedness_map member subjects 0)
    as [H1 H2].
  split; [exact H1|]. intros Hmap. apply H2; [done|discriminate].
Qed.

Lemma impact_from (m : gmap string Q) (issue : Issue) (ms : list string)
    (total : Q) :
  let f := fun total member =>
             total + memberConnectedness m member (subject_set issue)
                     * severity issue * confidence issue in
  0 <= severity issue → 0 <= confidence issue →
  total <= fold_left f ms total
  ∧ (atMostOne m →
     fold_left f ms total
     <= total + Connectedness.inject_nat (length ms)
                * (severity issue * confidence issue)).
Proof.
  cbv zeta. intros Hs Hk. revert total.
  induction ms as [|member rest IH]; intros total; cbn [fold_left length].
  - split; [apply Qle_refl|]. intros _.
    change (Connectedness.inject_nat 0) with 0.
    rewrite Qmult_0_l, Qplus_0_r. apply Qle_refl.
  - destruct (memberConnectedness_bounds m member (subject_set issue))
      as [Hc0 Hc1].
    set (c := memberConnectedness m member (subject_set issue)) in *.
    assert (Hsk : 0 <= severity issue * confidence issue)
      by (by apply Qmult_le_0_compat).
    assert (Hterm : 0 <= c * severity issue * confidence issue).
    { rewrite <- Qmult_assoc. by apply Qmult_le_0_compat. }
    destruct (IH (total + c * severity issue * confidence issue))
      as [IH1 IH2].
    split; [lra|].
    intros Hmap. specialize (IH2 Hmap). specialize (Hc1 Hmap).
    assert (Hle : c * severity issue * confidence issue
                  <= severity issue * confidence issue).
    { rewrite <- Qmult_assoc.
      rewrite <- (Qmult_1_l (severity issue * confidence issue)) at 2.
      by apply Qmult_le_compat_r. }
    unfold Connectedness.inject_nat in *.
    rewrite Nat2Z.inj_succ, <- Z.add_1_r, inject_Z_plus.
    change (inject_Z 1) with 1. lra.
Qed.

Lemma size_pos (ms : list string) :
  (0 <? length ms)%nat = true → 0 < Connectedness.inject_nat (length ms).
Proof.
  intros Hlen. apply Nat.ltb_lt in Hlen. unfold Connectedness.inject_nat.
  change 0 with (inject_Z 0). rewrite <- Zlt_Qlt. lia.
Qed.

(** X26. With non-negative weights, severity and confidence in [0, 1], no
    negative count of open needs and no pairwise connectedness above 1,
    every component of the escalation score is non-negative, the local
    impact is at most [gamma1] and the diversity penalty at most [gamma3].
    For a branch without members the local impact and the need pressure
    are 0. *)
Theorem escalation_components_bounded (branch : Branch) (issue : Issue)
    (connectedness_map : gmap string Q) (params : EscalationParameters) :
  nonnegativeWeights params →
  0 <= severity issue <= 1 → 0 <= confidence issue <= 1 →
  0 <= open_needs_count branch →
  atMostOne connectedness_map →
  let e := calculateEscalationScore branch issue connectedness_map params in
  0 <= local_impact e <= gamma1 params
  ∧ 0 <= need_pressure e
  ∧ 0 <= diversity_penalty e <= gamma3 params
  ∧ (members branch = [] → local_impact e == 0 ∧ need_pressure e == 0).
Proof.
  intros (Hg1 & Hg2 & Hg3) [Hs0 Hs1] [Hk0 Hk1] Hneeds Hmap e. subst e.
  unfold calculateEscalationScore. cbv zeta.
  cbn [local_impact need_pressure diversity_penalty].
  destruct (impact_from connectedness_map issue (members branch) 0 Hs0 Hk0)
    as [Hlow Hhigh].
  specialize (Hhigh Hmap). cbv zeta in Hlow, Hhigh.
  set (total := fold_left _ (members branch) 0) in *.
  pose proof (clampQ_bounds (diversity_score branch)) as [Hd0 Hd1].
  set (d := Qmax 0 (Qmin 1 (diversity_score branch))) in *.
  assert (Hsk : 0 <= severity issue * confidence issue <= 1).
  { split; [by apply Qmult_le_0_compat|].
    apply Qle_trans with (1 * confidence issue).
    - by apply Qmult_le_compat_r.
    - lra. }
  destruct (0 <? length (members branch))%nat eqn:Hlen.
  - pose proof (size_pos _ Hlen) as Hn.
    set (n := Connectedness.inject_nat (length (members branch))) in *.
    assert (Hli : 0 <= total / n ∧ total / n <= 1).
    { split.
      - apply Qle_shift_div_l; [done|]. lra.
      - apply Qle_shift_div_r; [done|].
        apply Qle_trans
          with (0 + n * (severity issue * confidence issue)); [done|].
        rewrite Qplus_0_l, Qmult_comm. apply Qmult_le_compat_r; lra. }
    assert (Hnp : 0 <= open_needs_count branch / n).
    { apply Qle_shift_div_l; [done|]. lra. }
    refine (conj (conj _ _) (conj _ (conj (conj _ _) _))).
    + apply Qmult_le_0_compat; tauto.
    + rewrite <- (Qmult_1_r (gamma1 params)) at 2. apply scale_le; tauto.
    + by apply Qmult_le_0_compat.
    + apply Qmult_le_0_compat; [done|lra].
    + rewrite <- (Qmult_1_r (gamma3 params)) at 2.
      apply scale_le; [done|lra].
    + intros Hnil. rewrite Hnil in Hlen. discriminate Hlen.
  - refine (conj (conj _ _) (conj _ (conj (conj _ _) _))).
    + rewrite Qmult_0_r. apply Qle_refl.
    + by rewrite Qmult_0_r.
    + rewrite Qmult_0_r. apply Qle_refl.
    + apply Qmult_le_0_compat; [done|lra].
    + rewrite <- (Qmult_1_r (gamma3 params)) at 2.
      apply scale_le; [done|lra].
    + intros _. split; apply Qmult_0_r.
Qed.

(** X26 at a concrete input: the branch and the issue of [workedExample]
    with one member connected to a subject. *)
Lemma escalation_components_bounded_witness :
  let e :=
    calculateEscalationScore (branch workedExample) (issue workedExample)
      (<[ pairKey "member_0" "subject_1" := 0.4 ]> ∅)
      getDefaultEscalationParameters in
  local_impact e <= gamma1 getDefaultEscalationParameters
  ∧ 0 < local_impact e.
Proof.
  intros e. split; [|by vm_compute].
  refine (proj2 (proj1 (escalation_components_bounded (branch workedExample)
                          (issue workedExample)
                          (<[ pairKey "member_0" "subject_1" := 0.4 ]> ∅)
                          getDefaultEscalationParameters _ _ _ _ _))).
  - repeat split; discriminate.
  - split; discriminate.
  - split; discriminate.
  - discriminate.
  - intros key value Hkey.
    apply lookup_insert_Some in Hkey as [[_ <-]|[_ Hkey]]; [discriminate|].
    by rewrite lookup_empty in Hkey.
Defined.



Lemma miss_from (m : gmap string Q) (member : string) (subjects : list string)
    (product : Q) :
  0 <= product <= 1 →
  0 <= fold_left
         (fun product subject =>
            let pairwise := getOr m (pairKey member subject) 0 in
            product * (1 - Qmax 0 (Qmin 1 pairwise)))
         subjects product <= 1.
Proof.
  revert product. induction subjects as [|s rest IH]; intros product Hp;
    cbn [fold_left]; [done|].
  apply IH. cbv zeta.
  pose proof (clampQ_bounds (getOr m (pairKey member s) 0)) as [Hc0 Hc1].
  set (c := Qmax 0 (Qmin 1 _)) in *.
  split.
  - apply Qmult_le_0_compat; lra.
  - rewrite <- (Qmult_1_r 1). apply Qle_trans with (product * 1).
    + apply scale_le; lra.
    + apply Qmult_le_compat_r; lra.
Qed.

Lemma union_total_from (m : gmap string Q) (subjects ms : list string)
    (total : Q) :
  let f := fun total_connectedness member =>
             let product :=
               fold_left
                 (fun product subject =>
                    let pairwise := getOr m (pairKey member subject) 0 in
                    product * (1 - Qmax 0 (Qmin 1 pairwise)))
                 subjects 1 in
             let member_union_connectedness := 1 - product in
             total_connectedness + member_union_connectedness in
  total <= fold_left f ms total
  ∧ fold_left f ms total <= total + Connectedness.inject_nat (length ms).
Proof.
  cbv zeta. revert total.
  induction ms as [|member rest IH]; intros total; cbn [fold_left length].
  - change (Connectedness.inject_nat 0) with 0. rewrite Qplus_0_r.
    split; apply Qle_refl.
  - assert (Hone : 0 <= 1 <= 1) by (split; discriminate).
    pose proof (miss_from m member subjects 1 Hone) as [Hp0 Hp1].
    set (product := fold_left _ subjects 1) in *.
    destruct (IH (total + (1 - product))) as [IH1 IH2].
    unfold Connectedness.inject_nat in *.
    rewrite Nat2Z.inj_succ, <- Z.add_1_r, inject_Z_plus.
    change (inject_Z 1) with 1. split; lra.
Qed.

(** X28. The connectedness of a branch to a subject set lies in [0, 1]
    whatever the recorded pairwise values are, and is 0 for a branch
    without members and for an empty subject set. *)
Theorem calculateBranchConnectedness_bounds (branch : Branch)
    (subject_set : list string) (pairwise_connectedness : gmap string Q) :
  let c :=
    calculateBranchConnectedness branch subject_set pairwise_connectedness in
  0 <= c <= 1
  ∧ (members branch = [] ∨ subject_set = [] → c = 0).
Proof.
  cbv zeta. unfold calculateBranchConnectedness. cbv zeta.
  destruct (members branch) as [|member rest] eqn:Hmembers.
  { cbn. repeat split; discriminate || done. }
  destruct subject_set as [|subject subjects].
  { cbn. repeat split; discriminate || done. }
  cbn [length Nat.eqb orb].
  destruct (union_total_from pairwise_connectedness (subject :: subjects)
              (member :: rest) 0) as [Hlow Hhigh].
  cbv zeta in Hlow, Hhigh.
  set (total := fold_left _ (member :: rest) 0) in *.
  assert (Hn : 0 < Connectedness.inject_nat (length (member :: rest))).
  { apply size_pos. reflexivity. }
  change (S (length rest)) with (length (member :: rest)).
  set (n := Connectedness.inject_nat (length (member :: rest))) in *.
  split; [|intros [?|?]; done].
  split.
  - apply Qle_shift_div_l; [done|]. lra.
  - apply Qle_shift_div_r; [done|]. lra.
Qed.

Lemma calculateBranchConnectedness_bounds_witness :
  calculateBranchConnectedness (branch workedExample) [] ∅ = 0.
Proof.
  apply calculateBranchConnectedness_bounds. by right.
Defined.

End Escalation.

(** * Neighbour selection (src/unnamed/part_002) *)
Module Neighbors.
Local Open Scope R_scope.
Local Open Scope string_scope.

(** The neighbour score goes through [Math.exp], so this part reads the
    numbers of [Branch] and [EscalationParameters] as real numbers. *)
Record Branch : Type := mkBranch {
  id : string;
  members : list string;
  avg_credits : R;
  diversity_score : R;
  open_needs_count : R;
  current_load : R;
  location_hint : option string
}.

Record EscalationParameters : Type := mkEscalationParameters {
  gamma1 : R;
  gamma2 : R;
  gamma3 : R;
  Theta_esc : R;
  lambda1 : R;
  lambda2 : R;
  lambda3 : R;
  max_neighbors : R;
  theta : R
}.

Record Issue : Type := mkIssue {
  issue_ident : string;          (* [id] *)
  subject_set : list string;
  severity : R;
  confidence : R;
  reporter : string;
  focal_branch : string
}.

Record NeighborScore : Type := mkNeighborScore {
  branch_id : string;
  connectedness : R;
  scarcity_bonus : R;
  load_penalty : R;
  total_score : R;
  recommended : bool
}.

Definition sigmoid (x : R) : R := 1 / (1 + exp (- x)).

(** The callback of [candidate_branches.map]. *)
Definition scoreBranch (issue : Issue) (branch_connectedness : gmap string R)
    (params : EscalationParameters) (branch : Branch) : NeighborScore :=
  let connectedness_key := id branch ++ "->" ++ join (subject_set issue) in
  let connectedness := getOr branch_connectedness connectedness_key 0 in
  let scarcity_input := theta params - avg_credits branch / 100 in
  let scarcity_bonus := sigmoid scarcity_input in
  let load_penalty := Rmax 0 (Rmin 1 (current_load branch / 10)) in
  let weighted_connectedness := lambda1 params * connectedness in
  let weighted_scarcity := lambda2 params * scarcity_bonus in
  let weighted_load_penalty := lambda3 params * load_penalty in
  let total_score :=
    weighted_connectedness + weighted_scarcity - weighted_load_penalty in
  {| branch_id := id branch;
     connectedness := connectedness;
     scarcity_bonus := scarcity_bonus;
     load_penalty := load_penalty;
     total_score := total_score;
     recommended := false |}.

(** [sort((a, b) => b.total_score - a.total_score)] is stable: a score goes
    behind the scores that are not lower. *)
Fixpoint insertByScore (s : NeighborScore) (sorted : list NeighborScore)
  : list NeighborScore :=
  match sorted with
  | [] => [s]
  | t :: rest =>
      if Rle_dec (total_score s) (total_score t)
      then t :: insertByScore s rest
      else s :: t :: rest
  end.

Definition sortByScore (scores : list NeighborScore) : list NeighborScore :=
  fold_left (fun sorted s => insertByScore s sorted) scores [].

(** [scored_branches[i].recommended = true]. *)
Definition recommend (s : NeighborScore) : NeighborScore :=
  {| branch_id := branch_id s;
     connectedness := connectedness s;
     scarcity_bonus := scarcity_bonus s;
     load_penalty := load_penalty s;
     total_score := total_score s;
     recommended := true |}.

(** The loop [for (let i = 0; i < top_count; i++)] over the sorted scores,
    from index [i] on. *)
Fixpoint markTop (top_count : R) (i : nat) (scores : list NeighborScore)
  : list NeighborScore :=
  match scores with
  | [] => []
  | s :: rest =>
      (if Rlt_dec (INR i) top_count then recommend s else s)
      :: markTop top_count (S i) rest
  end.

Definition selectNeighborBranches (candidate_branches : list Branch)
    (issue : Issue) (branch_connectedness : gmap string R)
    (params : EscalationParameters) : list NeighborScore :=
  let scored_branches :=
    map (scoreBranch issue branch_connectedness params) candidate_branches in
  let scored_branches := sortByScore scored_branches in
  let top_count :=
    Rmin (max_neighbors params) (INR (length scored_branches)) in
  markTop top_count 0 scored_branches.

Definition getDefaultEscalationParameters : EscalationParameters :=
  {| gamma1 := 0.6;
     gamma2 := 0.3;
     gamma3 := 0.1;
     Theta_esc := 0.35;
     lambda1 := 0.6;
     lambda2 := 0.3;
     lambda3 := 0.1;
     max_neighbors := 5;
     theta := 0.5 |}.

(** The issue and the first candidate branch of [workedExample]. *)
Definition exampleIssue : Issue :=
  {| issue_ident := "issue_x";
     subject_set := ["subject_1"; "subject_2"];
     severity := 0.7;
     confidence := 0.8;
     reporter := "reporter_1";
     focal_branch := "branch_b0" |}.

Definition neighbor_1 : Branch :=
  {| id := "neighbor_1"; members := ["n1_m1"; "n1_m2"]; avg_credits := 12;
     diversity_score := 0.8; open_needs_count := 2; current_load := 1;
     location_hint := None |}.

(** From the best score down. *)
Definition byScore (a b : NeighborScore) : Prop :=
  total_score b <= total_score a.

(** ** Properties *)

Lemma insertByScore_Permutation (s : NeighborScore)
    (sorted : list NeighborScore) :
  Permutation (insertByScore s sorted) (s :: sorted).
Proof.
  induction sorted as [|t rest IH]; cbn [insertByScore]; [done|].
  destruct (Rle_dec _ _); [|done]. rewrite IH. apply perm_swap.
Qed.

Lemma sortByScore_from (scores sorted : list NeighborScore) :
  Permutation (fold_left (fun sorted s => insertByScore s sorted) scores sorted)
    (scores ++ sorted).
Proof.
  revert sorted. induction scores as [|s rest IH]; intros sorted; [done|].
  cbn [fold_left]. rewrite IH, insertByScore_Permutation.
  symmetry. apply Permutation_middle.
Qed.

Lemma insertByScore_sorted (s : NeighborScore) (sorted : list NeighborScore) :
  StronglySorted byScore sorted → StronglySorted byScore (insertByScore s sorted).
Proof.
  induction 1 as [|t rest Hsorted IH Hall]; cbn [insertByScore].
  - repeat constructor.
  - destruct (Rle_dec (total_score s) (total_score t)) as [Hle|Hgt].
    + constructor; [exact IH|].
      rewrite (insertByScore_Permutation s rest). by constructor.
    + constructor; [by constructor|].
      constructor; [unfold byScore; lra|].
      eapply Forall_impl; [exact Hall|].
      intros u Hu. unfold byScore in *. lra.
Qed.

Lemma sortByScore_sorted_from (scores sorted : list NeighborScore) :
  StronglySorted byScore sorted →
  StronglySorted byScore
    (fold_left (fun sorted s => insertByScore s sorted) scores sorted).
Proof.
  revert sorted. induction scores as [|s rest IH]; intros sorted Hsorted;
    [done|].
  cbn [fold_left]. by apply IH, insertByScore_sorted.
Qed.

Lemma markTop_lookup (top_count : R) (k i : nat) (scores : list NeighborScore) :
  markTop top_count k scores !! i
  = (fun s => if Rlt_dec (INR (k + i)) top_count then recommend s else s)
    <$> scores !! i.
Proof.
  revert k i. induction scores as [|s rest IH]; intros k [|i]; cbn; try done.
  - by rewrite Nat.add_0_r.
  - rewrite IH. by replace (S k + i)%nat with (k + S i)%nat by lia.
Qed.

Lemma markTop_scores (top_count : R) (k : nat) (scores : list NeighborScore) :
  map total_score (markTop top_count k scores) = map total_score scores
  ∧ map branch_id (markTop top_count k scores) = map branch_id scores.
Proof.
  revert k. induction scores as [|s rest IH]; intros k; [done|].
  cbn [markTop map]. destruct (IH (S k)) as [-> ->].
  by destruct (Rlt_dec _ _).
Qed.

Lemma sorted_by_scores (l1 l2 : list NeighborScore) :
  map total_score l1 = map total_score l2 →
  StronglySorted byScore l2 → StronglySorted byScore l1.
Proof.
  revert l2. induction l1 as [|a l1 IH]; intros [|b l2] Hmap Hsorted;
    try done; try (by constructor).
  injection Hmap as Ha Hrest. inversion Hsorted as [|? ? Hs Hall]; subst.
  constructor; [by eapply IH|].
  apply Forall_forall. intros x Hx.
  assert (Hin : total_score x ∈ map total_score l2).
  { rewrite <- Hrest. apply list_elem_of_fmap. by exists x. }
  apply list_elem_of_fmap in Hin as (y & Hxy & Hy).
  rewrite Forall_forall in Hall. specialize (Hall y Hy).
  unfold byScore in *. rewrite Ha, Hxy. exact Hall.
Qed.

Lemma sorted_lookup (scores : list NeighborScore) (i j : nat)
    (a b : NeighborScore) :
  StronglySorted byScore scores →
  scores !! i = Some a → scores !! j = Some b → (i < j)%nat → byScore a b.
Proof.
  intros Hsorted. revert i j.
  induction Hsorted as [|s rest Hsorted IH Hall]; intros i j Hi Hj Hij;
    [done|].
  destruct j as [|j]; [lia|]. destruct i as [|i].
  - injection Hi as <-. rewrite Forall_forall in Hall.
    apply Hall. by eapply list_elem_of_lookup_2.
  - apply (IH i j); [done|done|lia].
Qed.

(** X29. The neighbour selection returns every candidate branch once, from
    the best total score down; the branch at position [i] is recommended
    exactly when [i] is below [max_neighbors], so no branch that is left out
    scores higher than a recommended one. *)
Theorem selectNeighborBranches_ranks (candidate_branches : list Branch)
    (issue : Issue) (branch_connectedness : gmap string R)
    (params : EscalationParameters) :
  let scores := selectNeighborBranches candidate_branches issue
                  branch_connectedness params in
  Permutation (map branch_id scores) (map id candidate_branches)
  ∧ StronglySorted byScore scores
  ∧ (∀ i s, scores !! i = Some s →
            (recommended s = true ↔ INR i < max_neighbors params))
  ∧ (∀ a b, a ∈ scores → b ∈ scores →
            recommended a = true → recommended b = false →
            total_score b <= total_score a).
Proof.
  cbv zeta. unfold selectNeighborBranches. cbv zeta.
  set (scored := map (scoreBranch issue branch_connectedness params)
                   candidate_branches).
  assert (Hperm : Permutation (sortByScore scored) scored).
  { unfold sortByScore. rewrite sortByScore_from. by rewrite app_nil_r. }
  assert (Hsorted : StronglySorted byScore (sortByScore scored)).
  { apply sortByScore_sorted_from. constructor. }
  set (sorted := sortByScore scored) in *.
  set (top_count := Rmin (max_neighbors params) (INR (length sorted))).
  destruct (markTop_scores top_count 0 sorted) as [Hscores Hids].
  assert (Hranked : StronglySorted byScore (markTop top_count 0 sorted)).
  { by apply (sorted_by_scores _ sorted). }
  assert (Hfresh : ∀ s, s ∈ sorted → recommended s = false).
  { intros s Hs. rewrite Hperm in Hs. subst scored.
    apply list_elem_of_fmap in Hs as (branch & -> & _). reflexivity. }
  assert (Hmark : ∀ i s, markTop top_count 0 sorted !! i = Some s →
                         (recommended s = true ↔ INR i < max_neighbors params)).
  { intros i s Hi. rewrite markTop_lookup in Hi. cbn [Nat.add] in Hi.
    destruct (sorted !! i) as [t|] eqn:Ht; [|done].
    injection Hi as <-.
    assert (Hlen : INR i < INR (length sorted)).
    { apply lt_INR. by eapply lookup_lt_Some. }
    pose proof (Hfresh t ltac:(by eapply list_elem_of_lookup_2)) as Hfalse.
    subst top_count. unfold Rmin.
    destruct (Rle_dec (max_neighbors params) (INR (length sorted)));
      destruct (Rlt_dec _ _); cbn [recommend recommended];
      rewrite ?Hfalse; split; (done || lra). }
  split; [|split; [exact Hranked|split; [exact Hmark|]]].
  - rewrite Hids, Hperm. subst scored. rewrite map_map. cbn. done.
  - intros a b Ha Hb Hreca Hrecb.
    apply list_elem_of_lookup_1 in Ha as [i Hi].
    apply list_elem_of_lookup_1 in Hb as [j Hj].
    pose proof (proj1 (Hmark i a Hi) Hreca) as Hia.
    assert (Hjb : ¬ INR j < max_neighbors params).
    { intros Hlt. apply (Hmark j b Hj) in Hlt. congruence. }
    assert (Hij : (i < j)%nat).
    { apply INR_lt. lra. }
    by apply (sorted_lookup (markTop top_count 0 sorted) i j a b).
Qed.

(** X29 at a concrete input: a single candidate is recommended under the
    default parameters. *)
Lemma selectNeighborBranches_ranks_witness :
  recommended
    (recommend
       (scoreBranch exampleIssue ∅ getDefaultEscalationParameters neighbor_1))
  = true
  ↔ INR 0 < max_neighbors getDefaultEscalationParameters.
Proof.
  apply (selectNeighborBranches_ranks [neighbor_1] exampleIssue ∅
           getDefaultEscalationParameters).
  unfold selectNeighborBranches. cbv zeta.
  cbn [map sortByScore fold_left insertByScore length markTop
       max_neighbors getDefaultEscalationParameters lookup list_lookup].
  unfold Rmin. destruct (Rle_dec 5 (INR 1)) as [Hle|_]; [cbn in Hle; lra|].
  destruct (Rlt_dec (INR 0) (INR 1)) as [_|Hge]; [done|].
  cbn in Hge. lra.
Defined.

End Neighbors.

(** * Contract requests (src/unnamed/part_003) *)
Module ContractRequests.
Import CrossBranch CreditAPI.
Local Open Scope string_scope.

(** The two contracts agree on everything but status and signatures. *)
Definition sameTerms (c old : CrossBranchContract) : Prop :=
  contract_id c = contract_id old
  ∧ requesting_branch c = requesting_branch old
  ∧ helping_branches c = helping_branches old
  ∧ contract_issue_id c = contract_issue_id old
  ∧ scope c = scope old
  ∧ tasks c = tasks old
  ∧ timebox_hours c = timebox_hours old
  ∧ evidence_requirements c = evidence_requirements old
  ∧ credit_rewards c = credit_rewards old
  ∧ created_at c = created_at old
  ∧ expires_at c = expires_at old.

(** ** Properties *)

(** X30. A contract request touches one contract only.  Whatever the
    request, the branches are left as they were; a refused request leaves
    the whole store unchanged; and the contract of a successful answer is
    the requested one with at most its status changed and the signature of
    the requesting branch added, stored under its id, with a payout
    recorded only for a completion. *)
Theorem contract_request_touches_one_contract
    (validateRequestSignature : BranchContractRequest → bool)
    (store : Store) (request : BranchContractRequest) :
  let result := handleBranchContract validateRequestSignature store request in
  branches (fst result) = branches store
  ∧ (success (snd result) = false → fst result = store)
  ∧ (∀ c, contract (snd result) = Some c →
       ∃ old, getContract store (request_contract_id request) = Some old
              ∧ sameTerms c old
              ∧ (∀ b, b ≠ request_branch_id request →
                      signatures c !! b = signatures old !! b)
              ∧ contracts (fst result)
                = <[ contract_id old := c ]> (contracts store)
              ∧ (distributed (fst result) = distributed store
                 ∨ action request = complete ∧ status c = completed
                   ∧ distributed (fst result)
                     = (distributed store ++ [contract_id old])%list)).
Proof.
  cbv zeta. unfold handleBranchContract.
  destruct (validateRequestSignature request); cbn [negb];
    [|by repeat split].
  destruct (getContract store (request_contract_id request)) as [old|];
    [|by repeat split].
  destruct (getBranch store (request_branch_id request)) as [branch|];
    [|by repeat split].
  destruct (bool_decide (requester request ∈ members branch)); cbn [negb];
    [|by repeat split].
  destruct (action request) eqn:Haction.
  - (* approve *)
    cbv zeta. destruct (forallb _ _);
      (split; [done|]; split; [done|]; intros c [= <-]; exists old;
       split; [done|]; split; [repeat split|];
       split; [intros b Hb; cbn; by rewrite setOwn_other|];
       split; [done|by left]).
  - split; [done|]. split; [done|]. intros c [= <-]. exists old.
    by repeat split; try left.
  - destruct (completion_evidence request) as [[|e es]|];
      [by repeat split| |by repeat split].
    split; [done|]. split; [done|]. intros c [= <-]. exists old.
    split; [done|]. split; [repeat split|]. split; [done|].
    split; [done|]. by right.
  - split; [done|]. split; [done|]. intros c [= <-]. exists old.
    by repeat split; try left.
  - by repeat split.
Qed.

(** X30 at a concrete input: a completion without evidence is refused and
    leaves the store as it was. *)
Lemma contract_request_touches_one_contract_witness :
  fst (handleBranchContract acceptAll (exampleStore active)
         (exampleRequest complete))
  = exampleStore active.
Proof.
  apply contract_request_touches_one_contract. reflexivity.
Defined.

End ContractRequests.
